(** * cpp-iterators: a shallow embedding of [iterator.h] and [array.h]

    The library is a pull-based iterator engine.  Every iterator implements
    one primitive, [next() -> std::optional<ItemType>], and every adapter
    and terminal operation is written against it.

    Modelling decisions.

    - An iterator is a value of a state type [I]; a call of [next()] is a
      function from the state before the call to the optional item and the
      state after it.  Adapters own their inner iterators by value, so the
      embedding passes states explicitly and [clone()] is the identity.
    - Several [next()] bodies contain unbounded loops ([Filter],
      [SkipWhile], [Unique], [UniqueBy]) and Cycle makes sources infinite,
      so a call may not return.  [next] therefore takes a step budget and
      answers [None] when the budget does not suffice; the budget is handed
      down unchanged to the inner iterator.
    - [size_t] is a 64-bit unsigned integer: a [Z] reduced by [wrap].
    - Predicates, mappers and key functions are pure functions. *)

From Stdlib Require Import ZArith List Lia Bool ListSet PeanoNat.
From Stdlib Require Import String Ascii DecimalString.
Import ListNotations.

Set Implicit Arguments.
Open Scope Z_scope.

(** ** [size_t] arithmetic *)

Definition size_bits : Z := 64.
Definition size_modulus : Z := 2 ^ size_bits.

(** Reduction of a mathematical integer to its [size_t] value. *)
Definition wrap (z : Z) : Z := z mod size_modulus.

(** ** Calls that may run out of budget *)

Definition bind {A B : Type} (c : option A) (k : A -> option B) : option B :=
  match c with
  | Some a => k a
  | None => None
  end.

Notation "' pat <- c ;; k" :=
  (bind c (fun x => match x with pat => k end))
  (at level 61, pat pattern, c at next level, right associativity).

(** ** The pull contract

    [next fuel it] is the call [it.next()] run with budget [fuel]:
    [Some (v, it')] when the call returns the optional [v] and leaves the
    iterator in state [it']; [None] when the budget is exceeded. *)

Class Iterator (I Item : Type) := next : nat -> I -> option (option Item * I).

#[export] Hint Mode Iterator ! - : typeclass_instances.

Arguments next {I Item Iterator} fuel it : simpl never.

(** [operator<] and [operator>] of an item type, used by [min] and [max]. *)
Class Ordered (Item : Type) := {
  lt : Item -> Item -> bool;
  gt : Item -> Item -> bool
}.

(** [std::hash] / [std::equal_to] of an item type: what [std::unordered_set]
    needs to decide membership. *)
Class Hashable (A : Type) := equal_to : forall x y : A, {x = y} + {x <> y}.

(** ** Counted loops over [size_t]

    [bounded_loop budget body s] runs [body] from [s] for as long as it
    answers [inl] (keep going), at most [budget] times; [inr] is the state
    in which the loop was left, [None] a call inside the body that exceeded
    its budget.  The recursion follows the binary digits of [budget], so a
    loop that is left early costs no more than the iterations it ran.  A
    [for] loop whose counter is a [size_t] compared with [!=] is left after
    at most [size_modulus] evaluations of its condition. *)

Fixpoint bounded_loop {S : Type} (budget : positive)
    (body : S -> option (S + S)) (s : S) : option (S + S) :=
  match budget with
  | xH => body s
  | xO p =>
      match bounded_loop p body s with
      | Some (inl s1) => bounded_loop p body s1
      | r => r
      end
  | xI p =>
      match body s with
      | Some (inl s1) =>
          match bounded_loop p body s1 with
          | Some (inl s2) => bounded_loop p body s2
          | r => r
          end
      | r => r
      end
  end.

Definition loop_budget : positive := Z.to_pos size_modulus.

Arguments loop_budget : simpl never.

Definition loop_state {S : Type} (r : S + S) : S :=
  match r with
  | inl s => s
  | inr s => s
  end.

(** ** Adapters *)

Section Adapters.

Context {I Item : Type} `{Iterator I Item}.

(** *** StepBy *)

Record StepBy := mkStepBy { StepBy_inner : I; StepBy_step : Z }.

(** One evaluation of
    [for (size_t i = 1U; i != step; ++i) { if (!inner.next().has_value()) break; }]
    from loop state [(i, inner)]. *)
Definition StepBy_body (fuel : nat) (step : Z) (st : Z * I)
    : option ((Z * I) + (Z * I)) :=
  let (i, inner) := st in
  if i =? step then Some (inr (i, inner))
  else
    '(v, inner') <- next fuel inner ;;
    match v with
    | Some _ => Some (inl (wrap (i + 1), inner'))
    | None => Some (inr (i, inner'))
    end.

Definition StepBy_next (fuel : nat) (it : StepBy)
    : option (option Item * StepBy) :=
  '(v, inner1) <- next fuel (StepBy_inner it) ;;
  match v with
  | Some _ =>
      'r <- bounded_loop loop_budget (StepBy_body fuel (StepBy_step it))
              (1, inner1) ;;
      Some (v, mkStepBy (snd (loop_state r)) (StepBy_step it))
  | None => Some (v, mkStepBy inner1 (StepBy_step it))
  end.

(** *** Skip *)

Record Skip := mkSkip { Skip_inner : I; Skip_skip : Z }.

(** One evaluation of [for (size_t i = 0U; i != skip; ++i) { inner.next(); }]. *)
Definition Skip_body (fuel : nat) (skip : Z) (st : Z * I)
    : option ((Z * I) + (Z * I)) :=
  let (i, inner) := st in
  if i =? skip then Some (inr (i, inner))
  else
    '(_, inner') <- next fuel inner ;;
    Some (inl (wrap (i + 1), inner')).

Definition Skip_next (fuel : nat) (it : Skip) : option (option Item * Skip) :=
  if Skip_skip it =? 0 then
    '(v, inner') <- next fuel (Skip_inner it) ;;
    Some (v, mkSkip inner' (Skip_skip it))
  else
    'r <- bounded_loop loop_budget (Skip_body fuel (Skip_skip it))
            (0, Skip_inner it) ;;
    '(v, inner') <- next fuel (snd (loop_state r)) ;;
    Some (v, mkSkip inner' 0).

(** *** SkipWhile *)

Record SkipWhile := mkSkipWhile {
  SkipWhile_inner : I;
  SkipWhile_predicate : Item -> bool;
  SkipWhile_skipped : bool
}.

(** [do { v = inner.next(); } while (v.has_value() && predicate( *v ));] *)
Fixpoint SkipWhile_loop (n fuel : nat) (p : Item -> bool) (inner : I)
    : option (option Item * I) :=
  match n with
  | O => None
  | S n' =>
      '(v, inner') <- next fuel inner ;;
      match v with
      | Some x => if p x then SkipWhile_loop n' fuel p inner' else Some (v, inner')
      | None => Some (v, inner')
      end
  end.

Definition SkipWhile_next (fuel : nat) (it : SkipWhile)
    : option (option Item * SkipWhile) :=
  if SkipWhile_skipped it then
    '(v, inner') <- next fuel (SkipWhile_inner it) ;;
    Some (v, mkSkipWhile inner' (SkipWhile_predicate it) true)
  else
    '(v, inner') <- SkipWhile_loop fuel fuel (SkipWhile_predicate it)
                      (SkipWhile_inner it) ;;
    Some (v, mkSkipWhile inner' (SkipWhile_predicate it) true).

(** *** Enumerate *)

Record Enumerate := mkEnumerate { Enumerate_inner : I; Enumerate_index : Z }.

Definition Enumerate_next (fuel : nat) (it : Enumerate)
    : option (option (Z * Item) * Enumerate) :=
  '(v, inner') <- next fuel (Enumerate_inner it) ;;
  match v with
  | Some x =>
      let index := wrap (Enumerate_index it + 1) in
      Some (Some (wrap (index - 1), x), mkEnumerate inner' index)
  | None => Some (None, mkEnumerate inner' (Enumerate_index it))
  end.

(** *** Filter *)

Record Filter := mkFilter { Filter_inner : I; Filter_predicate : Item -> bool }.

(** [do { v = inner.next(); } while (v.has_value() && !predicate( *v ));] *)
Fixpoint Filter_loop (n fuel : nat) (p : Item -> bool) (inner : I)
    : option (option Item * I) :=
  match n with
  | O => None
  | S n' =>
      '(v, inner') <- next fuel inner ;;
      match v with
      | Some x => if negb (p x) then Filter_loop n' fuel p inner' else Some (v, inner')
      | None => Some (v, inner')
      end
  end.

Definition Filter_next (fuel : nat) (it : Filter)
    : option (option Item * Filter) :=
  '(v, inner') <- Filter_loop fuel fuel (Filter_predicate it) (Filter_inner it) ;;
  Some (v, mkFilter inner' (Filter_predicate it)).

(** *** Take *)

Record Take := mkTake { Take_inner : I; Take_num : Z }.

Definition Take_next (fuel : nat) (it : Take) : option (option Item * Take) :=
  if negb (Take_num it =? 0) then
    let num := wrap (Take_num it - 1) in
    '(v, inner') <- next fuel (Take_inner it) ;;
    Some (v, mkTake inner' num)
  else Some (None, it).

(** *** TakeWhile *)

Record TakeWhile := mkTakeWhile {
  TakeWhile_inner : I;
  TakeWhile_predicate : Item -> bool;
  TakeWhile_stopped_taking : bool
}.

Definition TakeWhile_next (fuel : nat) (it : TakeWhile)
    : option (option Item * TakeWhile) :=
  if negb (TakeWhile_stopped_taking it) then
    '(v, inner') <- next fuel (TakeWhile_inner it) ;;
    match v with
    | Some x =>
        if TakeWhile_predicate it x
        then Some (v, mkTakeWhile inner' (TakeWhile_predicate it) false)
        else Some (None, mkTakeWhile inner' (TakeWhile_predicate it) true)
    | None => Some (None, mkTakeWhile inner' (TakeWhile_predicate it) true)
    end
  else Some (None, it).

(** *** Cycle *)

Record Cycle := mkCycle { Cycle_original : I; Cycle_inner : I }.

Definition Cycle_next (fuel : nat) (it : Cycle) : option (option Item * Cycle) :=
  '(v, inner') <- next fuel (Cycle_inner it) ;;
  match v with
  | Some _ => Some (v, mkCycle (Cycle_original it) inner')
  | None =>
      '(v', inner'') <- next fuel (Cycle_original it) ;;
      Some (v', mkCycle (Cycle_original it) inner'')
  end.

(** *** Unique and UniqueBy *)

Record Unique := mkUnique { Unique_inner : I; Unique_set : set Item }.

(** [auto v = inner.next();
     while (v.has_value() && set.find( *v ) != set.end()) { v = inner.next(); }] *)
Fixpoint Unique_loop `{Hashable Item} (n fuel : nat) (seen : set Item) (inner : I)
    : option (option Item * I) :=
  match n with
  | O => None
  | S n' =>
      '(v, inner') <- next fuel inner ;;
      match v with
      | Some x =>
          if set_mem equal_to x seen then Unique_loop n' fuel seen inner'
          else Some (v, inner')
      | None => Some (v, inner')
      end
  end.

Definition Unique_next `{Hashable Item} (fuel : nat) (it : Unique)
    : option (option Item * Unique) :=
  '(v, inner') <- Unique_loop fuel fuel (Unique_set it) (Unique_inner it) ;;
  match v with
  | Some x => Some (v, mkUnique inner' (set_add equal_to x (Unique_set it)))
  | None => Some (v, mkUnique inner' (Unique_set it))
  end.

Record UniqueBy (Key : Type) := mkUniqueBy {
  UniqueBy_inner : I;
  UniqueBy_set : set Key;
  UniqueBy_func : Item -> Key
}.

Fixpoint UniqueBy_loop {Key : Type} `{Hashable Key} (n fuel : nat)
    (func : Item -> Key) (seen : set Key) (inner : I)
    : option (option Item * I) :=
  match n with
  | O => None
  | S n' =>
      '(v, inner') <- next fuel inner ;;
      match v with
      | Some x =>
          if set_mem equal_to (func x) seen
          then UniqueBy_loop n' fuel func seen inner'
          else Some (v, inner')
      | None => Some (v, inner')
      end
  end.

Definition UniqueBy_next {Key : Type} `{Hashable Key} (fuel : nat)
    (it : UniqueBy Key) : option (option Item * UniqueBy Key) :=
  '(v, inner') <- UniqueBy_loop fuel fuel (UniqueBy_func it) (UniqueBy_set it)
                    (UniqueBy_inner it) ;;
  match v with
  | Some x =>
      Some (v, mkUniqueBy inner'
                 (set_add equal_to (UniqueBy_func it x) (UniqueBy_set it))
                 (UniqueBy_func it))
  | None => Some (v, mkUniqueBy inner' (UniqueBy_set it) (UniqueBy_func it))
  end.

End Adapters.

(** *** Map *)

Section MapAdapter.

Context {I A B : Type} `{Iterator I A}.

Record Map := mkMap { Map_inner : I; Map_mapper : A -> B }.

Definition Map_next (fuel : nat) (it : Map) : option (option B * Map) :=
  '(v, inner') <- next fuel (Map_inner it) ;;
  match v with
  | Some x => Some (Some (Map_mapper it x), mkMap inner' (Map_mapper it))
  | None => Some (None, mkMap inner' (Map_mapper it))
  end.

End MapAdapter.

(** *** Adapters over two iterators *)

Section BinaryAdapters.

Context {I1 I2 Item : Type} `{Iterator I1 Item} `{Iterator I2 Item}.

Record Chain := mkChain { Chain_first : I1; Chain_second : I2 }.

Definition Chain_next (fuel : nat) (it : Chain) : option (option Item * Chain) :=
  '(v, first') <- next fuel (Chain_first it) ;;
  match v with
  | Some _ => Some (v, mkChain first' (Chain_second it))
  | None =>
      '(v', second') <- next fuel (Chain_second it) ;;
      Some (v', mkChain first' second')
  end.

Record Interleave := mkInterleave {
  Interleave_first : I1;
  Interleave_second : I2;
  Interleave_yield_first : bool
}.

Definition Interleave_next (fuel : nat) (it : Interleave)
    : option (option Item * Interleave) :=
  let yield_first := Interleave_yield_first it in
  if yield_first then
    '(v, first') <- next fuel (Interleave_first it) ;;
    match v with
    | Some _ => Some (v, mkInterleave first' (Interleave_second it) (negb yield_first))
    | None =>
        '(v', second') <- next fuel (Interleave_second it) ;;
        Some (v', mkInterleave first' second' (negb yield_first))
    end
  else
    '(v, second') <- next fuel (Interleave_second it) ;;
    match v with
    | Some _ => Some (v, mkInterleave (Interleave_first it) second' (negb yield_first))
    | None =>
        '(v', first') <- next fuel (Interleave_first it) ;;
        Some (v', mkInterleave first' second' (negb yield_first))
    end.

Record InterleaveShortest := mkInterleaveShortest {
  InterleaveShortest_first : I1;
  InterleaveShortest_second : I2;
  InterleaveShortest_yield_first : bool
}.

Definition InterleaveShortest_next (fuel : nat) (it : InterleaveShortest)
    : option (option Item * InterleaveShortest) :=
  let yield_first := InterleaveShortest_yield_first it in
  if yield_first then
    '(v, first') <- next fuel (InterleaveShortest_first it) ;;
    match v with
    | None =>
        Some (None, mkInterleaveShortest first' (InterleaveShortest_second it)
                      yield_first)
    | Some _ =>
        Some (v, mkInterleaveShortest first' (InterleaveShortest_second it)
                   (negb yield_first))
    end
  else
    '(v, second') <- next fuel (InterleaveShortest_second it) ;;
    match v with
    | None =>
        Some (None, mkInterleaveShortest (InterleaveShortest_first it) second'
                      yield_first)
    | Some _ =>
        Some (v, mkInterleaveShortest (InterleaveShortest_first it) second'
                   (negb yield_first))
    end.

End BinaryAdapters.

Section ZipAdapter.

Context {I1 I2 A B : Type} `{Iterator I1 A} `{Iterator I2 B}.

Record Zip := mkZip { Zip_first : I1; Zip_second : I2 }.

Definition Zip_next (fuel : nat) (it : Zip) : option (option (A * B) * Zip) :=
  '(first_value, first') <- next fuel (Zip_first it) ;;
  match first_value with
  | Some a =>
      '(second_value, second') <- next fuel (Zip_second it) ;;
      match second_value with
      | Some b => Some (Some (a, b), mkZip first' second')
      | None => Some (None, mkZip first' second')
      end
  | None => Some (None, mkZip first' (Zip_second it))
  end.

End ZipAdapter.

Arguments StepBy I : clear implicits.
Arguments Skip I : clear implicits.
Arguments SkipWhile I Item : clear implicits.
Arguments Enumerate I : clear implicits.
Arguments Filter I Item : clear implicits.
Arguments Take I : clear implicits.
Arguments TakeWhile I Item : clear implicits.
Arguments Cycle I : clear implicits.
Arguments Unique I Item : clear implicits.
Arguments UniqueBy I Item Key : clear implicits.
Arguments Map I A B : clear implicits.
Arguments Chain I1 I2 : clear implicits.
Arguments Interleave I1 I2 : clear implicits.
Arguments InterleaveShortest I1 I2 : clear implicits.
Arguments Zip I1 I2 : clear implicits.

(** Every adapter is itself an iterator. *)

#[export] Instance StepBy_Iterator {I Item} `{Iterator I Item}
  : Iterator (StepBy I) Item := StepBy_next.
#[export] Instance Map_Iterator {I A B} `{Iterator I A}
  : Iterator (Map I A B) B := Map_next.
#[export] Instance Skip_Iterator {I Item} `{Iterator I Item}
  : Iterator (Skip I) Item := Skip_next.
#[export] Instance SkipWhile_Iterator {I Item} `{Iterator I Item}
  : Iterator (SkipWhile I Item) Item := SkipWhile_next.
#[export] Instance Enumerate_Iterator {I Item} `{Iterator I Item}
  : Iterator (Enumerate I) (Z * Item) := Enumerate_next.
#[export] Instance Filter_Iterator {I Item} `{Iterator I Item}
  : Iterator (Filter I Item) Item := Filter_next.
#[export] Instance Chain_Iterator {I1 I2 Item} `{Iterator I1 Item} `{Iterator I2 Item}
  : Iterator (Chain I1 I2) Item := Chain_next.
#[export] Instance Zip_Iterator {I1 I2 A B} `{Iterator I1 A} `{Iterator I2 B}
  : Iterator (Zip I1 I2) (A * B) := Zip_next.
#[export] Instance Take_Iterator {I Item} `{Iterator I Item}
  : Iterator (Take I) Item := Take_next.
#[export] Instance TakeWhile_Iterator {I Item} `{Iterator I Item}
  : Iterator (TakeWhile I Item) Item := TakeWhile_next.
#[export] Instance Cycle_Iterator {I Item} `{Iterator I Item}
  : Iterator (Cycle I) Item := Cycle_next.
#[export] Instance Interleave_Iterator {I1 I2 Item} `{Iterator I1 Item} `{Iterator I2 Item}
  : Iterator (Interleave I1 I2) Item := Interleave_next.
#[export] Instance InterleaveShortest_Iterator {I1 I2 Item}
    `{Iterator I1 Item} `{Iterator I2 Item}
  : Iterator (InterleaveShortest I1 I2) Item := InterleaveShortest_next.
#[export] Instance Unique_Iterator {I Item} `{Iterator I Item} `{Hashable Item}
  : Iterator (Unique I Item) Item := Unique_next.
#[export] Instance UniqueBy_Iterator {I Item Key} `{Iterator I Item} `{Hashable Key}
  : Iterator (UniqueBy I Item Key) Item := UniqueBy_next.

(** The methods of [Iterator] that build adapters.  Each copies the
    iterator it is called on into the adapter. *)

Definition step_by {I} (it : I) (step : Z) : StepBy I := mkStepBy it step.
Definition map {I A B} (it : I) (mapper : A -> B) : Map I A B := mkMap it mapper.
Definition enumerate {I} (it : I) : Enumerate I := mkEnumerate it 0.
Definition skip {I} (it : I) (num : Z) : Skip I := mkSkip it num.
Definition skip_while {I Item} (it : I) (p : Item -> bool) : SkipWhile I Item :=
  mkSkipWhile it p false.
Definition filter {I Item} (it : I) (p : Item -> bool) : Filter I Item :=
  mkFilter it p.
Definition chain {I1 I2} (it : I1) (other : I2) : Chain I1 I2 := mkChain it other.
Definition zip {I1 I2} (it : I1) (other : I2) : Zip I1 I2 := mkZip it other.
Definition take {I} (it : I) (num : Z) : Take I := mkTake it num.
Definition take_while {I Item} (it : I) (p : Item -> bool) : TakeWhile I Item :=
  mkTakeWhile it p false.
Definition cycle {I} (it : I) : Cycle I := mkCycle it it.
Definition interleave {I1 I2} (it : I1) (other : I2) : Interleave I1 I2 :=
  mkInterleave it other true.
Definition interleave_shortest {I1 I2} (it : I1) (other : I2)
  : InterleaveShortest I1 I2 := mkInterleaveShortest it other true.
Definition unique {I Item} (it : I) : Unique I Item := mkUnique it (empty_set Item).
Definition unique_by {I Item Key} (it : I) (func : Item -> Key)
  : UniqueBy I Item Key := mkUniqueBy it (empty_set Key) func.
Definition clone {I} (it : I) : I := it.
Definition iter {I} (it : I) : I := it.

(** ** Sequence sources *)

(** *** Array (array.h)

    [T *data] with [num_elements] live elements is a list; [num_elements]
    is its length. *)

Section ArraySource.

Context {T : Type}.

Record Array := mkArray { Array_data : list T }.

Definition len (a : Array) : Z := Z.of_nat (List.length (Array_data a)).

(** [explicit Array(size_t size) : data{new T[size]}, num_elements{size}];
    [fresh] is the value of a freshly allocated element.  [new T[size]]
    throws [std::bad_array_new_length] or [std::bad_alloc] when the free
    store cannot give an array of that size: [can_allocate] tells the sizes
    it can give, and there is no array otherwise. *)
Definition Array_new (can_allocate : Z -> bool) (fresh : T) (size : Z)
    : option Array :=
  if can_allocate size then Some (mkArray (List.repeat fresh (Z.to_nat size)))
  else None.

Fixpoint store (l : list T) (n : nat) (x : T) : list T :=
  match l, n with
  | [], _ => []
  | _ :: l', O => x :: l'
  | y :: l', S n' => y :: store l' n' x
  end.

(** [arr[index] = value]; [operator[]] does not check the index, so a
    write past the end has no defined result. *)
Definition Array_set (a : Array) (index : Z) (value : T) : option Array :=
  if (0 <=? index) && (index <? len a)
  then Some (mkArray (store (Array_data a) (Z.to_nat index) value))
  else None.

(** [ArrayIterator]: a reference to the array and a cursor.  An item is a
    [std::reference_wrapper<T>] into the array, which is not modified while
    it is iterated; the model yields the element referred to. *)
Record ArrayIterator := mkArrayIterator {
  ArrayIterator_cont : Array;
  ArrayIterator_cursor : Z
}.

Definition ArrayIterator_next (fuel : nat) (it : ArrayIterator)
    : option (option T * ArrayIterator) :=
  let cursor := ArrayIterator_cursor it in
  if cursor <? len (ArrayIterator_cont it) then
    let cursor' := wrap (cursor + 1) in
    Some (nth_error (Array_data (ArrayIterator_cont it)) (Z.to_nat (wrap (cursor' - 1))),
          mkArrayIterator (ArrayIterator_cont it) cursor')
  else Some (None, it).

Definition Array_iter (a : Array) : ArrayIterator := mkArrayIterator a 0.

End ArraySource.

Arguments Array T : clear implicits.
Arguments ArrayIterator T : clear implicits.

#[export] Instance ArrayIterator_Iterator {T} : Iterator (ArrayIterator T) T :=
  ArrayIterator_next.

(** *** Range (data_structures/range.h)

    [Range<T>] is generic in its element type; [le] is [operator<=] and
    [incr] is [operator++] of [T]. *)

Section RangeSource.

Context {T : Type} (le : T -> T -> bool) (incr : T -> T).

Record Range := mkRange { Range_start : T; Range_end : T }.

Record RangeIterator := mkRangeIterator {
  RangeIterator_range : Range;
  RangeIterator_cursor : T
}.

Definition RangeIterator_next (fuel : nat) (it : RangeIterator)
    : option (option T * RangeIterator) :=
  let cursor := RangeIterator_cursor it in
  if le cursor (Range_end (RangeIterator_range it)) then
    Some (Some cursor, mkRangeIterator (RangeIterator_range it) (incr cursor))
  else Some (None, it).

Definition Range_iter (r : Range) : RangeIterator :=
  mkRangeIterator r (Range_start r).

End RangeSource.

Arguments Range T : clear implicits.
Arguments RangeIterator T : clear implicits.

(** A range over an integer type wider than [size_t] (a 128-bit integer,
    say), for bounds on which its cursor does not overflow. *)
#[export] Instance WideRange_Iterator : Iterator (RangeIterator Z) Z :=
  RangeIterator_next Z.leb Z.succ.

(** ** Iterators that yield values

    An iterator yields its items by value ([ItemType] is [T]) or by
    reference ([ItemType] is [std::reference_wrapper<T>]).  An array
    iterator yields references into its array; a range iterator yields
    values, and so does [Map], whose items are what the mapper returns (the
    mappers of this development are functions into values; a mapper that
    returns [std::ref] of its argument has no counterpart here); the other
    adapters yield what their inner iterators yield.
    [YieldsValues I] holds of the iterator types built from ranges and maps
    only: their items hold no reference, so [UnwrapedItemType] is the item
    type itself and the item type has a default constructor when its
    values have one. *)
Inductive YieldsValues : Type -> Prop :=
| Range_values : forall T, YieldsValues (RangeIterator T)
| Map_values : forall I A B, YieldsValues (Map I A B)
| StepBy_values : forall I, YieldsValues I -> YieldsValues (StepBy I)
| Skip_values : forall I, YieldsValues I -> YieldsValues (Skip I)
| SkipWhile_values : forall I Item, YieldsValues I -> YieldsValues (SkipWhile I Item)
| Enumerate_values : forall I, YieldsValues I -> YieldsValues (Enumerate I)
| Filter_values : forall I Item, YieldsValues I -> YieldsValues (Filter I Item)
| Chain_values : forall I1 I2,
    YieldsValues I1 -> YieldsValues I2 -> YieldsValues (Chain I1 I2)
| Zip_values : forall I1 I2,
    YieldsValues I1 -> YieldsValues I2 -> YieldsValues (Zip I1 I2)
| Take_values : forall I, YieldsValues I -> YieldsValues (Take I)
| TakeWhile_values : forall I Item, YieldsValues I -> YieldsValues (TakeWhile I Item)
| Cycle_values : forall I, YieldsValues I -> YieldsValues (Cycle I)
| Interleave_values : forall I1 I2,
    YieldsValues I1 -> YieldsValues I2 -> YieldsValues (Interleave I1 I2)
| InterleaveShortest_values : forall I1 I2,
    YieldsValues I1 -> YieldsValues I2 -> YieldsValues (InterleaveShortest I1 I2)
| Unique_values : forall I Item, YieldsValues I -> YieldsValues (Unique I Item)
| UniqueBy_values : forall I Item Key,
    YieldsValues I -> YieldsValues (UniqueBy I Item Key).

Existing Class YieldsValues.

#[export] Existing Instances Range_values Map_values StepBy_values Skip_values
  SkipWhile_values Enumerate_values Filter_values Chain_values Zip_values
  Take_values TakeWhile_values Cycle_values Interleave_values
  InterleaveShortest_values Unique_values UniqueBy_values.

(** ** Terminal operations *)

(** What a terminal operation comes to: a value, a budget that did not
    suffice, an execution without defined behaviour (an empty
    [std::optional] dereferenced, a write past the end of an array), or an
    exception that leaves the operation (a failed allocation). *)
Inductive outcome (A : Type) : Type :=
| Done (a : A)
| OutOfFuel
| Undefined
| Thrown.

Arguments OutOfFuel {A}.
Arguments Undefined {A}.
Arguments Thrown {A}.

(** What one run of a loop body asks for. *)
Inductive flow (A R : Type) : Type :=
| Continue (a : A)
| Return (r : R)
| Fault.

Arguments Continue {A R} a.
Arguments Return {A R} r.
Arguments Fault {A R}.

Section Terminal.

Context {I Item : Type} `{Iterator I Item}.

(** The loop shared by the range-[for] protocol of [Iterator] and the
    [foreach] macro: [yielded] is the optional last pulled from [it]; while
    it holds an item the body runs on it and the iterator is pulled again. *)
Fixpoint iterate {A R : Type} (n fuel : nat) (body : A -> Item -> flow A R)
    (acc : A) (yielded : option Item) (it : I) : outcome (A + R) :=
  match yielded with
  | None => Done (inl acc)
  | Some v =>
      match body acc v with
      | Return r => Done (inr r)
      | Fault => Undefined
      | Continue acc' =>
          match n with
          | O => OutOfFuel
          | S n' =>
              match next fuel it with
              | None => OutOfFuel
              | Some (yielded', it') => iterate n' fuel body acc' yielded' it'
              end
          end
      end
  end.

(** [for (UnwrapedItemType v : *iter) body]: [begin()] pulls once, stores
    the result in [yielded] and returns a copy of the iterator;
    [operator!=] tests [yielded != std::nullopt], [operator*] reads it and
    [operator++] pulls the copy again. *)
Definition range_for {A R : Type} (fuel : nat) (body : A -> Item -> flow A R)
    (acc : A) (it : I) : outcome (A + R) :=
  match next fuel it with
  | None => OutOfFuel
  | Some (yielded, it') => iterate fuel fuel body acc yielded it'
  end.

(** [foreach(it, iterable) body]:
    [auto __it = (iterable).iter(); auto it = __it.next();
     for (; it.has_value(); it = __it.next()) body]. *)
Definition foreach {A R : Type} (fuel : nat) (body : A -> Item -> flow A R)
    (acc : A) (iterable : I) : outcome (A + R) :=
  match next fuel (iter iterable) with
  | None => OutOfFuel
  | Some (it, it') => iterate fuel fuel body acc it it'
  end.

Definition finish {A R B : Type} (o : outcome (A + R)) (at_end : A -> B)
    (returned : R -> B) : outcome B :=
  match o with
  | Done (inl a) => Done (at_end a)
  | Done (inr r) => Done (returned r)
  | OutOfFuel => OutOfFuel
  | Undefined => Undefined
  | Thrown => Thrown
  end.

Definition all (fuel : nat) (p : Item -> bool) (it : I) : outcome bool :=
  finish
    (range_for fuel (fun (_ : unit) v => if negb (p v) then Return false else Continue tt)
       tt it)
    (fun _ => true) (fun b => b).

Definition any (fuel : nat) (p : Item -> bool) (it : I) : outcome bool :=
  finish
    (range_for fuel (fun (_ : unit) v => if p v then Return true else Continue tt) tt it)
    (fun _ => false) (fun b => b).

Definition none (fuel : nat) (p : Item -> bool) (it : I) : outcome bool :=
  finish
    (range_for fuel (fun (_ : unit) v => if p v then Return false else Continue tt) tt it)
    (fun _ => true) (fun b => b).

Definition find (fuel : nat) (p : Item -> bool) (it : I) : outcome (option Item) :=
  finish
    (range_for fuel (fun (_ : unit) v => if p v then Return v else Continue tt) tt it)
    (fun _ => None) (fun v => Some v).

(** [auto max = iter->next(); for (v : *iter) { if (v > *max) max = v; } return max;]
    [*max] has no defined value when [max] is empty. *)
Definition max `{Ordered Item} (fuel : nat) (it : I) : outcome (option Item) :=
  match next fuel it with
  | None => OutOfFuel
  | Some (first, it') =>
      finish
        (range_for (R := Empty_set) fuel
           (fun (max : option Item) v =>
              match max with
              | None => Fault
              | Some m => if gt v m then Continue (Some v) else Continue max
              end)
           first it')
        (fun max => max) (fun e => match e with end)
  end.

Definition min `{Ordered Item} (fuel : nat) (it : I) : outcome (option Item) :=
  match next fuel it with
  | None => OutOfFuel
  | Some (first, it') =>
      finish
        (range_for (R := Empty_set) fuel
           (fun (min : option Item) v =>
              match min with
              | None => Fault
              | Some m => if lt v m then Continue (Some v) else Continue min
              end)
           first it')
        (fun min => min) (fun e => match e with end)
  end.

(** [size_t count = 0U; for (_ : *iter) { ++count; } return count;] *)
Definition count (fuel : nat) (it : I) : outcome Z :=
  finish
    (range_for (R := Empty_set) fuel (fun (count : Z) _ => Continue (wrap (count + 1)))
       0 it)
    (fun count => count) (fun e => match e with end).

End Terminal.

Section Collect.

Context {I Item : Type} `{Iterator I Item}.

(** [{ auto[index, value] = *it; arr[index] = std::move(value); }] *)
Definition fill_slot (arr : Array Item) (item : Z * Item)
    : flow (Array Item) Empty_set :=
  let (index, value) := item in
  match Array_set arr index value with
  | Some arr' => Continue arr'
  | None => Fault
  end.

(** [Array<T>::from_iterator]:
    [size_t count = iter.clone().count(); auto arr = Array<T>(count);
     foreach(it, iter.enumerate()) { auto[index, value] = *it; arr[index] = std::move(value); }
     return arr;]
    The exception of a failed allocation leaves the function. *)
Definition from_iterator (can_allocate : Z -> bool) (fresh : Item) (fuel : nat)
    (it : I) : outcome (Array Item) :=
  match count fuel (clone it) with
  | Done count =>
      match Array_new can_allocate fresh count with
      | Some arr =>
          finish (foreach fuel fill_slot arr (enumerate it))
            (fun arr => arr) (fun e => match e with end)
      | None => Thrown
      end
  | OutOfFuel => OutOfFuel
  | Undefined => Undefined
  | Thrown => Thrown
  end.

(** [collect<Collection>()] hands the iterator to
    [Collection<ItemType>::from_iterator].  The collection is one of
    [ItemType], which has to have a default constructor for [new T[size]]:
    [collect<Array>()] compiles for iterators that yield values, not for
    an array iterator, whose [std::reference_wrapper] items have none. *)
Definition collect {V : YieldsValues I} (can_allocate : Z -> bool) (fresh : Item)
    (fuel : nat) (it : I) : outcome (Array Item) :=
  from_iterator can_allocate fresh fuel it.

End Collect.

(** ** Observing iterators *)

Section Observations.

Context {I Item : Type} `{Iterator I Item}.

(** The call [it.next()] returns [v] and leaves the iterator in state
    [it']: every large enough budget gives this result. *)
Definition returns (it : I) (v : option Item) (it' : I) : Prop :=
  exists f0, forall fuel, (f0 <= fuel)%nat -> next fuel it = Some (v, it').

(** Successive calls from [it] return the optionals [vs], in this order,
    and leave the iterator in state [it']. *)
Inductive trace : I -> list (option Item) -> I -> Prop :=
| trace_nil : forall it, trace it [] it
| trace_cons : forall it v it1 vs it2,
    returns it v it1 -> trace it1 vs it2 -> trace it (v :: vs) it2.

(** The same, every call run with the one budget [fuel]. *)
Fixpoint trace_at (fuel : nat) (it : I) (vs : list (option Item)) (it' : I) : Prop :=
  match vs with
  | [] => it = it'
  | v :: vs' => exists it1, next fuel it = Some (v, it1) /\ trace_at fuel it1 vs' it'
  end.

(** Successive calls yield the items [l]. *)
Definition yields (it : I) (l : list Item) (it' : I) : Prop :=
  trace it (List.map Some l) it'.

(** Every call from now on returns exhaustion. *)
Definition Exhausted (it : I) : Prop :=
  forall n, exists it', trace it (List.repeat None n) it'.

(** A finite iterator whose remaining items are [l]: it yields them and is
    exhausted from then on. *)
Definition drains (it : I) (l : list Item) : Prop :=
  exists it', yields it l it' /\ Exhausted it'.

(** [it'] is a state the iterator can be in after some calls from [it]. *)
Inductive Reach : I -> I -> Prop :=
| Reach_refl : forall it, Reach it it
| Reach_next : forall it fuel v it1 it2,
    next fuel it = Some (v, it1) -> Reach it1 it2 -> Reach it it2.

(** Single pass: a call that returns exhaustion, now or after any number
    of calls, leaves the iterator exhausted for good. *)
Definition SinglePass (it : I) : Prop :=
  forall it', Reach it it' ->
  forall fuel it'', next fuel it' = Some (None, it'') -> Exhausted it''.

(** Every call returns, now and after any number of calls. *)
Definition Productive (it : I) : Prop :=
  forall it', Reach it it' -> exists v it'', returns it' v it''.

End Observations.

(** ** Reference sequences *)

(** Items taken in turn from [a] and [b], starting with [a], up to the
    first turn whose side has none left. *)
Fixpoint alternate {A : Type} (a b : list A) : list A :=
  match a with
  | [] => []
  | x :: a' =>
      x :: match b with
           | [] => []
           | y :: b' => y :: alternate a' b'
           end
  end.

(** The first [k] items of the endless repetition of [l]. *)
Definition cycled {A : Type} (d : A) (l : list A) (k : nat) : list A :=
  List.map (fun i => nth (i mod List.length l)%nat l d) (seq 0 k).

(** One step of the folds of [max] and [min]: the best item so far, [m],
    gives way to [v] only when [v] is strictly better. *)
Definition keep_best {A : Type} (better : A -> A -> bool) (m v : A) : A :=
  if better v m then v else m.

Definition fold_max {A : Type} `{Ordered A} (first : A) (rest : list A) : A :=
  fold_left (keep_best gt) rest first.

Definition fold_min {A : Type} `{Ordered A} (first : A) (rest : list A) : A :=
  fold_left (keep_best lt) rest first.

(** Lexicographic order of [std::string]. *)
#[export] Instance string_Ordered : Ordered string :=
  {| lt := String.ltb; gt := fun a b => String.ltb b a |}.

#[export] Instance Z_Ordered : Ordered Z := {| lt := Z.ltb; gt := Z.gtb |}.

#[export] Instance Z_Hashable : Hashable Z := Z.eq_dec.

#[export] Instance nat_Hashable : Hashable nat := Nat.eq_dec.

(** What the loop body computes over a list of items. *)
Fixpoint fold_flow {Item A R : Type} (body : A -> Item -> flow A R) (acc : A)
    (l : list Item) : flow A R :=
  match l with
  | [] => Continue acc
  | x :: l' =>
      match body acc x with
      | Continue acc' => fold_flow body acc' l'
      | r => r
      end
  end.

Definition flow_outcome {A R : Type} (f : flow A R) : outcome (A + R) :=
  match f with
  | Continue a => Done (inl a)
  | Return r => Done (inr r)
  | Fault => Undefined
  end.

(** [bounded_loop] told by unary recursion: at most [n] runs of the body. *)
Fixpoint loop_nat {S : Type} (n : nat) (body : S -> option (S + S)) (s : S)
    : option (S + S) :=
  match n with
  | O => Some (inl s)
  | Datatypes.S n' =>
      match body s with
      | Some (inl s1) => loop_nat n' body s1
      | r => r
      end
  end.

(** The wide range [0 .. size_modulus]: [size_modulus + 1] items. *)
Definition long_range : RangeIterator Z := Range_iter (mkRange 0 size_modulus).

(** The wide range [0 .. size_modulus - 1]: [size_modulus] items. *)
Definition full_range : RangeIterator Z := Range_iter (mkRange 0 (size_modulus - 1)).

(** The integers from [c], [m] of them. *)
Definition from_to (c : Z) (m : nat) : list Z :=
  List.map (fun i => c + Z.of_nat i) (seq 0 m).

(** Items paired with the indices [Enumerate] gives them, from [index]. *)
Fixpoint indexed {Item : Type} (index : Z) (l : list Item) : list (Z * Item) :=
  match l with
  | [] => []
  | x :: l' => (index, x) :: indexed (wrap (index + 1)) l'
  end.

(** *** An iterator that yields one item and then never returns

    [1] chained with the endless repetition of [2], filtered for items
    equal to 1: the second call of [next()] searches for ever. *)
Definition stalling : Filter (Chain (ArrayIterator Z) (Cycle (ArrayIterator Z))) Z :=
  filter (chain (Array_iter (mkArray [1])) (cycle (Array_iter (mkArray [2]))))
         (fun x => x =? 1).

(** [stalling] after its first item; [c] is the cursor of the cycled array. *)
Definition stalled (c : Z) : Filter (Chain (ArrayIterator Z) (Cycle (ArrayIterator Z))) Z :=
  mkFilter
    (mkChain (mkArrayIterator (mkArray [1]) 1)
             (mkCycle (Array_iter (mkArray [2])) (mkArrayIterator (mkArray [2]) c)))
    (fun x => x =? 1).

(** A free store that gives arrays of up to 2^32 elements. *)
Definition free_store (size : Z) : bool := size <=? 2 ^ 32.

(** Inputs of the unit tests. *)
Definition ints (l : list Z) : ArrayIterator Z := Array_iter (mkArray l).
Definition strings (l : list string) : ArrayIterator string := Array_iter (mkArray l).
Definition one_to_ten : list Z := [1; 2; 3; 4; 5; 6; 7; 8; 9; 10].

(** ** Folding terminal operations *)

(** The item types [sum] works on: [sum_init] is the value-initialised
    [StrippedItemType res{}] and [sum_add] is [operator+]. *)
Class Summable (Item : Type) := {
  sum_init : Item;
  sum_add : Item -> Item -> Item
}.

(** [size_t]: zero, and addition modulo [size_modulus]. *)
#[export] Instance size_t_Summable : Summable Z :=
  {| sum_init := 0; sum_add := fun a b => wrap (a + b) |}.

(** [std::string]: the empty string, and concatenation. *)
#[export] Instance string_Summable : Summable string :=
  {| sum_init := EmptyString; sum_add := String.append |}.

(** A [std::string_view] as [join] uses it: [sv_data] is the text
    [operator+] reads from the pointer [data()], up to the first NUL;
    [sv_length] is [length()]. *)
Record string_view := mk_string_view { sv_data : string; sv_length : Z }.

(** What a C string function reads from the first character of [s]: the
    characters before the first NUL. *)
Fixpoint c_string (s : string) : string :=
  match s with
  | EmptyString => EmptyString
  | String c s' =>
      if Ascii.eqb c Ascii.zero then EmptyString else String c (c_string s')
  end.

(** The view of the characters [s] of a [std::string] or of a string
    literal: its length is the number of characters, and a NUL follows
    the last one. *)
Definition view_of (s : string) : string_view :=
  mk_string_view (c_string s) (Z.of_nat (String.length s)).

(** [std::to_string] of an integer: its signed decimal notation. *)
Definition int_to_string (v : Z) : string := NilZero.string_of_int (Z.to_int v).

(** The range iterator of [Range<size_t>]: [++cursor] wraps around. *)
Definition SizeRange_next : Iterator (RangeIterator Z) Z :=
  RangeIterator_next Z.leb (fun cursor => wrap (cursor + 1)).

(** [s.substr(0, count)]: the first [count] characters of [s], all of [s]
    when it has fewer. *)
Definition substr (s : string) (count : Z) : string :=
  substring 0 (Z.to_nat (Z.min count (Z.of_nat (String.length s)))) s.

Section Folds.

Context {I Item : Type} `{Iterator I Item}.

(** [auto next = iter->next();
     if (next.has_value()) { UnwrapedItemType max = *next;
                             for (v : *iter) { max = cmp(v, max); }
                             return std::make_optional(max); }
     else { return std::nullopt; }]
    For an iterator that yields values [max] is a copy of the first item
    and the loop is a fold.  For one that yields references [max] is a
    reference to the first item in its container and the assignment writes
    into the container: that case is not the one defined here. *)
Definition max_by {V : YieldsValues I} (fuel : nat) (cmp : Item -> Item -> Item)
    (it : I) : outcome (option Item) :=
  match next fuel it with
  | None => OutOfFuel
  | Some (Some first, it') =>
      finish
        (range_for (R := Empty_set) fuel (fun (max : Item) v => Continue (cmp v max))
           first it')
        (fun max => Some max) (fun e => match e with end)
  | Some (None, _) => Done None
  end.

Definition min_by {V : YieldsValues I} (fuel : nat) (cmp : Item -> Item -> Item)
    (it : I) : outcome (option Item) :=
  match next fuel it with
  | None => OutOfFuel
  | Some (Some first, it') =>
      finish
        (range_for (R := Empty_set) fuel (fun (min : Item) v => Continue (cmp v min))
           first it')
        (fun min => Some min) (fun e => match e with end)
  | Some (None, _) => Done None
  end.

(** [auto iter = *this; for (v : iter) { func(v); }]: what [func] does is
    told as a change of the state [W] of its surroundings. *)
Definition for_each {W : Type} (fuel : nat) (func : Item -> W -> W) (world : W)
    (it : I) : outcome W :=
  finish
    (range_for (R := Empty_set) fuel (fun (w : W) v => Continue (func v w)) world it)
    (fun w => w) (fun e => match e with end).

(** [StrippedItemType res{}; for (v : *iter) { res = res + v; } return res;] *)
Definition sum `{Summable Item} (fuel : nat) (it : I) : outcome Item :=
  finish
    (range_for (R := Empty_set) fuel (fun (res : Item) v => Continue (sum_add res v))
       sum_init it)
    (fun res => res) (fun e => match e with end).

(** [res = init; for (v : *iter) { res = func(res, v); } return res;] *)
Definition fold (fuel : nat) (init : Item) (func : Item -> Item -> Item) (it : I)
    : outcome Item :=
  finish
    (range_for (R := Empty_set) fuel (fun (res : Item) v => Continue (func res v))
       init it)
    (fun res => res) (fun e => match e with end).

(** [std::string res{};
     for (v : *iter) { res += std::to_string(v) + sep.data(); }
     res = res.substr(0, res.length() - sep.length()); return res;]
    [to_string] is the overload of [std::to_string] for the item type; the
    subtraction is one of [size_t]. *)
Definition join (to_string : Item -> string) (fuel : nat) (sep : string_view)
    (it : I) : outcome string :=
  finish
    (range_for (R := Empty_set) fuel
       (fun (res : string) v =>
          Continue (String.append res (String.append (to_string v) (sv_data sep))))
       EmptyString it)
    (fun res => substr res (wrap (Z.of_nat (String.length res) - sv_length sep)))
    (fun e => match e with end).

End Folds.

(** ** More reference sequences *)

(** The longest prefix of [l] whose items satisfy [p], and what follows it. *)
Fixpoint take_prefix {A : Type} (p : A -> bool) (l : list A) : list A :=
  match l with
  | [] => []
  | x :: l' => if p x then x :: take_prefix p l' else []
  end.

Fixpoint drop_prefix {A : Type} (p : A -> bool) (l : list A) : list A :=
  match l with
  | [] => []
  | x :: l' => if p x then drop_prefix p l' else l
  end.

(** [l] without the items whose key is in [seen] or is the key of an
    earlier item of [l]. *)
Fixpoint dedup_by {A K : Type} `{Hashable K} (key : A -> K) (seen : set K)
    (l : list A) : list A :=
  match l with
  | [] => []
  | x :: l' =>
      if set_mem equal_to (key x) seen then dedup_by key seen l'
      else x :: dedup_by key (set_add equal_to (key x) seen) l'
  end.

(** The items of [l] at positions 0, [n], [2 n], ...; [m] bounds their
    number. *)
Fixpoint every_nth_upto {A : Type} (m n : nat) (l : list A) : list A :=
  match m, l with
  | S m', x :: l' => x :: every_nth_upto m' n (skipn (n - 1) l')
  | _, _ => []
  end.

Definition every_nth {A : Type} (n : nat) (l : list A) : list A :=
  every_nth_upto (List.length l) n l.

(** Items taken in turn from [a] and [b], starting with [a]; when a side
    has none left, the rest of the other side follows.  [m] bounds the
    number of turns. *)
Fixpoint interleaved_upto {A : Type} (m : nat) (a b : list A) : list A :=
  match m with
  | O => []
  | S m' =>
      match a with
      | [] => b
      | x :: a' => x :: interleaved_upto m' b a'
      end
  end.

Definition interleaved {A : Type} (a b : list A) : list A :=
  interleaved_upto (List.length a + List.length b) a b.

(** * Properties *)

(** ** Budgets and traces *)

Section TraceFacts.

Context {I Item : Type} `{Iterator I Item}.

Lemma returns_det (it : I) (v1 v2 : option Item) (a b : I) :
  returns it v1 a -> returns it v2 b -> v1 = v2 /\ a = b.
Proof.
  intros [f1 H1] [f2 H2].
  specialize (H1 (Nat.max f1 f2) (Nat.le_max_l _ _)).
  specialize (H2 (Nat.max f1 f2) (Nat.le_max_r _ _)).
  rewrite H1 in H2. now inversion H2.
Qed.

Lemma trace_det (it : I) (vs : list (option Item)) (a b : I) :
  trace it vs a -> trace it vs b -> a = b.
Proof.
  intros Ha. revert b. induction Ha as [it|it v it1 vs it2 Hr _ IH]; intros b Hb.
  - now inversion Hb.
  - inversion Hb as [|? ? it1' ? ? Hr' Ht']; subst.
    destruct (returns_det Hr Hr') as [_ ->]. now apply IH.
Qed.

Lemma trace_app (it : I) (vs ws : list (option Item)) (it1 it2 : I) :
  trace it vs it1 -> trace it1 ws it2 -> trace it (vs ++ ws) it2.
Proof.
  induction 1 as [|it v a vs b Hr _ IH]; intros Hw; simpl; [assumption|].
  econstructor; [eassumption|]. now apply IH.
Qed.

Lemma trace_app_inv (it : I) (vs ws : list (option Item)) (it2 : I) :
  trace it (vs ++ ws) it2 -> exists it1, trace it vs it1 /\ trace it1 ws it2.
Proof.
  revert it. induction vs as [|v vs IH]; simpl; intros it Ht.
  - exists it. split; [constructor | assumption].
  - inversion Ht as [|? ? a ? ? Hr Ht']; subst.
    destruct (IH _ Ht') as (it1 & H1 & H2).
    exists it1. split; [econstructor; eassumption | assumption].
Qed.

(** One budget serves all the calls of a trace. *)
Lemma trace_uniform (it : I) (vs : list (option Item)) (it' : I) :
  trace it vs it' ->
  exists f0, forall fuel, (f0 <= fuel)%nat -> trace_at fuel it vs it'.
Proof.
  induction 1 as [it|it v it1 vs it2 [f1 Hr] _ [f2 IH]].
  - exists O. intros; reflexivity.
  - exists (Nat.max f1 f2). intros fuel Hle. simpl.
    exists it1. split; [apply Hr | apply IH]; lia.
Qed.

Lemma trace_at_app (fuel : nat) (it : I) (vs ws : list (option Item)) (it2 : I) :
  trace_at fuel it (vs ++ ws) it2 <->
  exists it1, trace_at fuel it vs it1 /\ trace_at fuel it1 ws it2.
Proof.
  revert it. induction vs as [|v vs IH]; simpl; intros it.
  - split.
    + intros Hw. now exists it.
    + now intros (it1 & -> & Hw).
  - split.
    + intros (a & Hn & Ht). apply IH in Ht. destruct Ht as (it1 & H1 & H2).
      exists it1. split; [exists a; now split | assumption].
    + intros (it1 & (a & Hn & H1) & H2). exists a. split; [assumption|].
      apply IH. now exists it1.
Qed.

Lemma Exhausted_inv (it : I) :
  Exhausted it -> exists it', returns it None it' /\ Exhausted it'.
Proof.
  intros Hex. destruct (Hex 1%nat) as [x Hx].
  inversion Hx as [|? ? it' ? ? Hr Hnil]; subst.
  exists it'. split; [assumption|]. intros n.
  destruct (Hex (S n)) as [y Hy].
  inversion Hy as [|? ? it1 ? ? Hr1 Hrest]; subst.
  destruct (returns_det Hr Hr1) as [_ ->]. now exists y.
Qed.

Lemma Exhausted_intro (it it' : I) :
  returns it None it' -> Exhausted it' -> Exhausted it.
Proof.
  intros Hr Hex [|n].
  - exists it. constructor.
  - destruct (Hex n) as [y Hy]. exists y. simpl. econstructor; eassumption.
Qed.

(** An invariant kept by every call that returns exhaustion makes the
    iterator exhausted. *)
Lemma Exhausted_invariant (P : I -> Prop) :
  (forall it, P it -> exists it', returns it None it' /\ P it') ->
  forall it, P it -> Exhausted it.
Proof.
  intros Hstep it HP n. revert it HP.
  induction n as [|n IH]; intros it HP.
  - exists it. constructor.
  - destruct (Hstep _ HP) as (it' & Hr & HP').
    destruct (IH _ HP') as [y Hy]. exists y. simpl. econstructor; eassumption.
Qed.

Lemma drains_nil_Exhausted (it : I) : drains it [] <-> Exhausted it.
Proof.
  split.
  - intros (it' & Hy & Hex). inversion Hy; subst. assumption.
  - intros Hex. exists it. split; [constructor | assumption].
Qed.

Lemma drains_cons (it : I) (x : Item) (l : list Item) :
  drains it (x :: l) <-> exists it', returns it (Some x) it' /\ drains it' l.
Proof.
  split.
  - intros (it2 & Hy & Hex). inversion Hy as [|? ? it1 ? ? Hr Ht]; subst.
    exists it1. split; [assumption|]. exists it2. now split.
  - intros (it1 & Hr & it2 & Hy & Hex). exists it2. split; [|assumption].
    unfold yields. simpl. econstructor; eassumption.
Qed.

Lemma drains_returns_None (it : I) :
  drains it [] -> exists it', returns it None it' /\ drains it' [].
Proof.
  rewrite drains_nil_Exhausted. intros Hex.
  destruct (Exhausted_inv Hex) as (it' & Hr & Hex').
  exists it'. now rewrite drains_nil_Exhausted.
Qed.

Lemma drains_det (it : I) (l1 l2 : list Item) :
  drains it l1 -> drains it l2 -> l1 = l2.
Proof.
  revert it l2. induction l1 as [|x l1 IH]; intros it [|y l2] H1 H2.
  - reflexivity.
  - apply drains_returns_None in H1. apply drains_cons in H2.
    destruct H1 as (a & Ha & _), H2 as (b & Hb & _).
    destruct (returns_det Ha Hb) as [E _]. discriminate.
  - apply drains_cons in H1. apply drains_returns_None in H2.
    destruct H1 as (a & Ha & _), H2 as (b & Hb & _).
    destruct (returns_det Ha Hb) as [E _]. discriminate.
  - apply drains_cons in H1. apply drains_cons in H2.
    destruct H1 as (a & Ha & Hda), H2 as (b & Hb & Hdb).
    destruct (returns_det Ha Hb) as [E ->]. inversion E; subst.
    f_equal. eapply IH; eassumption.
Qed.

(** The calls that drain a finite iterator, the first exhaustion included,
    under one budget. *)
Lemma drains_trace_at (it : I) (l : list Item) :
  drains it l ->
  exists f0, forall fuel, (f0 <= fuel)%nat ->
    exists it', trace_at fuel it (List.map Some l ++ [None]) it'.
Proof.
  intros (it1 & Hy & Hex).
  destruct (Exhausted_inv Hex) as (it2 & Hr & _).
  assert (Ht : trace it (List.map Some l ++ [None]) it2).
  { eapply trace_app; [exact Hy|]. econstructor; [exact Hr | constructor]. }
  destruct (trace_uniform Ht) as [f0 Hf]. exists f0. intros fuel Hle.
  exists it2. now apply Hf.
Qed.

Lemma Reach_trans (a b c : I) : Reach a b -> Reach b c -> Reach a c.
Proof.
  induction 1 as [|a fuel v a1 b Hn _ IH]; intros Hbc; [assumption|].
  econstructor; [eassumption|]. now apply IH.
Qed.

Lemma Reach_one (it : I) (fuel : nat) (v : option Item) (it' : I) :
  next fuel it = Some (v, it') -> Reach it it'.
Proof. intros Hn. econstructor; [eassumption | constructor]. Qed.

Lemma SinglePass_Reach (it it' : I) :
  SinglePass it -> Reach it it' -> SinglePass it'.
Proof.
  intros Hsp Hr x Hx. apply Hsp. eapply Reach_trans; eassumption.
Qed.

Lemma Productive_Reach (it it' : I) :
  Productive it -> Reach it it' -> Productive it'.
Proof.
  intros Hp Hr x Hx. apply Hp. eapply Reach_trans; eassumption.
Qed.

Lemma returns_Reach (it : I) (v : option Item) (it' : I) :
  returns it v it' -> Reach it it'.
Proof. intros [f0 Hf]. eapply Reach_one. apply (Hf f0). lia. Qed.

Lemma Exhausted_SinglePass_step (it : I) (fuel : nat) (it' : I) :
  SinglePass it -> next fuel it = Some (None, it') -> Exhausted it'.
Proof. intros Hsp Hn. eapply Hsp; [constructor | eassumption]. Qed.

End TraceFacts.

(** ** [size_t] facts *)

Lemma size_modulus_eq : size_modulus = 18446744073709551616.
Proof. reflexivity. Qed.

Lemma size_modulus_pos : 0 < size_modulus.
Proof. rewrite size_modulus_eq. lia. Qed.

Lemma wrap_small (z : Z) : 0 <= z < size_modulus -> wrap z = z.
Proof. intros Hz. unfold wrap. now apply Z.mod_small. Qed.

Lemma wrap_range (z : Z) : 0 <= wrap z < size_modulus.
Proof. unfold wrap. apply Z.mod_pos_bound. exact size_modulus_pos. Qed.

Lemma wrap_modulus : wrap size_modulus = 0.
Proof. unfold wrap. apply Z.mod_same. pose proof size_modulus_pos. lia. Qed.

Lemma wrap_idem (z : Z) : wrap (wrap z) = wrap z.
Proof. apply wrap_small, wrap_range. Qed.

Lemma wrap_succ_pred (z : Z) : 0 <= z < size_modulus -> wrap (wrap (z + 1) - 1) = z.
Proof.
  intros Hz. destruct (Z.eq_dec (z + 1) size_modulus) as [E|E].
  - rewrite E, wrap_modulus. unfold wrap.
    replace (0 - 1) with (z + (-1) * size_modulus) by lia.
    rewrite Z.mod_add by lia. now apply Z.mod_small.
  - rewrite (wrap_small (z := z + 1)) by lia.
    replace (z + 1 - 1) with z by lia. now apply wrap_small.
Qed.

(** ** Take *)

Section TakeFacts.

Context {I Item : Type} `{Iterator I Item}.

Lemma Take_next_zero (fuel : nat) (it : Take I) :
  Take_num it = 0 -> next fuel it = Some (None, it).
Proof.
  intros E. change (next fuel it) with (Take_next fuel it).
  unfold Take_next. now rewrite E.
Qed.

Lemma Take_next_nonzero (fuel : nat) (it : Take I) :
  0 <= Take_num it < size_modulus -> Take_num it <> 0 ->
  next fuel it =
  match next fuel (Take_inner it) with
  | Some (v, inner') => Some (v, mkTake inner' (Take_num it - 1))
  | None => None
  end.
Proof.
  intros Hr Hnz. change (next fuel it) with (Take_next fuel it).
  unfold Take_next. destruct (Z.eqb_spec (Take_num it) 0) as [E|_]; [contradiction|].
  simpl. rewrite wrap_small by lia.
  unfold bind. now destruct (next fuel (Take_inner it)) as [[v inner']|].
Qed.

Lemma Take_zero_Exhausted (it : Take I) : Take_num it = 0 -> Exhausted it.
Proof.
  apply (Exhausted_invariant (fun t : Take I => Take_num t = 0)).
  intros t Ht. exists t. split; [|assumption].
  exists O. intros fuel _. now apply Take_next_zero.
Qed.

End TakeFacts.

(** C2, as the code has it: while its remaining count is not zero, [Take]
    hands each call to the inner iterator and lowers the count by one for
    every call it hands on, whether or not the pull produced an item; once
    the count is zero every call returns exhaustion and leaves the inner
    iterator as it is, whatever the inner iterator would do. *)
Theorem C2_take_counts_every_delegated_call
    {I Item : Type} `{Iterator I Item} (it : Take I) (fuel : nat) :
  0 <= Take_num it < size_modulus ->
  (Take_num it <> 0 ->
   next fuel it =
   match next fuel (Take_inner it) with
   | Some (v, inner') => Some (v, mkTake inner' (Take_num it - 1))
   | None => None
   end) /\
  (Take_num it = 0 -> next fuel it = Some (None, it) /\ Exhausted it).
Proof.
  intros Hr. split.
  - intros Hnz. now apply Take_next_nonzero.
  - intros E. split; [now apply Take_next_zero | now apply Take_zero_Exhausted].
Qed.

Lemma C2_take_witness :
  let it := take (Array_iter (mkArray [7; 8])) 1 in
  0 <= Take_num it < size_modulus /\
  next 0 it = Some (Some 7, mkTake (mkArrayIterator (mkArray [7; 8]) 1) 0).
Proof.
  intros it. split.
  - rewrite size_modulus_eq. simpl. lia.
  - assert (Hr : 0 <= Take_num it < size_modulus)
      by (rewrite size_modulus_eq; simpl; lia).
    destruct (C2_take_counts_every_delegated_call it 0 Hr) as [Hstep _].
    rewrite Hstep by (simpl; lia). reflexivity.
Defined.

(** C2 as stated fails: a pull that produced no item lowers the count too.
    [take(2)] over an empty array is left with count 1 by its first call. *)
Lemma C2_counterexample :
  let it := take (Array_iter (mkArray (@nil Z))) 2 in
  exists it', next 0 it = Some (None, it') /\ Take_num it = 2 /\ Take_num it' = 1.
Proof.
  intros it. eexists. split; [reflexivity|]. split; reflexivity.
Qed.

(** ** The array iterator *)

Section ArrayFacts.

Context {T : Type}.

Lemma ArrayIterator_next_item (a : Array T) (pre : list T) (x : T) (post : list T) :
  Array_data a = pre ++ x :: post ->
  len a < size_modulus ->
  returns (mkArrayIterator a (Z.of_nat (List.length pre))) (Some x)
          (mkArrayIterator a (Z.of_nat (List.length (pre ++ [x])))).
Proof.
  intros Hd Hlen. exists O. intros fuel _.
  change (next fuel ?it) with (ArrayIterator_next fuel it).
  unfold ArrayIterator_next. simpl.
  assert (Hl : len a = Z.of_nat (List.length pre) + 1 + Z.of_nat (List.length post)).
  { unfold len. rewrite Hd, length_app. simpl. lia. }
  destruct (Z.ltb_spec (Z.of_nat (List.length pre)) (len a)) as [_|Hge]; [|lia].
  rewrite wrap_succ_pred by lia. rewrite wrap_small by lia.
  rewrite Nat2Z.id, Hd, nth_error_app2 by lia.
  rewrite Nat.sub_diag. simpl. rewrite length_app. simpl.
  repeat f_equal. lia.
Qed.

Lemma ArrayIterator_at_end (a : Array T) (fuel : nat) :
  next fuel (mkArrayIterator a (len a)) = Some (None, mkArrayIterator a (len a)).
Proof.
  change (next fuel ?it) with (ArrayIterator_next fuel it).
  unfold ArrayIterator_next. simpl. now rewrite Z.ltb_irrefl.
Qed.

Lemma ArrayIterator_end_Exhausted (a : Array T) :
  Exhausted (mkArrayIterator a (len a)).
Proof.
  apply (Exhausted_invariant (fun it => it = mkArrayIterator a (len a))); [|reflexivity].
  intros it ->. eexists. split; [|reflexivity].
  exists O. intros fuel _. apply ArrayIterator_at_end.
Qed.

Lemma ArrayIterator_yields_from (a : Array T) (l pre : list T) :
  Array_data a = pre ++ l ->
  len a < size_modulus ->
  yields (mkArrayIterator a (Z.of_nat (List.length pre))) l (mkArrayIterator a (len a)).
Proof.
  revert pre. induction l as [|x l IH]; intros pre Hd Hlen.
  - unfold len. rewrite Hd, app_nil_r. constructor.
  - unfold yields. simpl. econstructor.
    + eapply ArrayIterator_next_item; eassumption.
    + apply IH; [|assumption]. now rewrite <- app_assoc.
Qed.

(** Iterating an array from its start yields its elements, in order. *)
Lemma Array_iter_drains (a : Array T) :
  len a < size_modulus -> drains (Array_iter a) (Array_data a).
Proof.
  intros Hlen. exists (mkArrayIterator a (len a)). split.
  - apply (ArrayIterator_yields_from a (Array_data a) []); auto.
  - apply ArrayIterator_end_Exhausted.
Qed.

End ArrayFacts.

(** ** Zip *)

Section ZipFacts.

Context {I1 I2 A B : Type} `{Iterator I1 A} `{Iterator I2 B}.

Lemma Zip_next_first (fuel : nat) (z : Zip I1 I2) (v : option (A * B)) (z' : Zip I1 I2) :
  next fuel z = Some (v, z') ->
  exists va, next fuel (Zip_first z) = Some (va, Zip_first z').
Proof.
  change (next fuel z) with (Zip_next fuel z). unfold Zip_next, bind.
  destruct (next fuel (Zip_first z)) as [[[a|] first']|]; [| |discriminate].
  - destruct (next fuel (Zip_second z)) as [[[b|] second']|]; [| |discriminate];
      intros E; inversion E; subst; simpl; eauto.
  - intros E; inversion E; subst; simpl; eauto.
Qed.

Lemma Zip_returns_first_exhausted (z : Zip I1 I2) (first' : I1) :
  returns (Zip_first z) None first' ->
  returns z None (mkZip first' (Zip_second z)).
Proof.
  intros [f0 Hf]. exists f0. intros fuel Hle.
  change (next fuel z) with (Zip_next fuel z). unfold Zip_next, bind.
  now rewrite (Hf fuel Hle).
Qed.

Lemma Zip_returns_second_exhausted (z : Zip I1 I2) (a : A) (first' : I1) (second' : I2) :
  returns (Zip_first z) (Some a) first' ->
  returns (Zip_second z) None second' ->
  returns z None (mkZip first' second').
Proof.
  intros [f1 H1] [f2 H2]. exists (Nat.max f1 f2). intros fuel Hle.
  change (next fuel z) with (Zip_next fuel z). unfold Zip_next, bind.
  rewrite (H1 fuel), (H2 fuel) by lia. reflexivity.
Qed.

Lemma Zip_returns_pair (z : Zip I1 I2) (a : A) (b : B) (first' : I1) (second' : I2) :
  returns (Zip_first z) (Some a) first' ->
  returns (Zip_second z) (Some b) second' ->
  returns z (Some (a, b)) (mkZip first' second').
Proof.
  intros [f1 H1] [f2 H2]. exists (Nat.max f1 f2). intros fuel Hle.
  change (next fuel z) with (Zip_next fuel z). unfold Zip_next, bind.
  rewrite (H1 fuel), (H2 fuel) by lia. reflexivity.
Qed.

Lemma Zip_second_exhausted_trace (l : list A) :
  forall (first first' : I1) (second : I2),
  Exhausted second -> yields first l first' ->
  exists second', trace (mkZip first second) (List.repeat None (List.length l))
                    (mkZip first' second') /\ Exhausted second'.
Proof.
  induction l as [|a l IH]; intros first first' second Hex Hy.
  - inversion Hy; subst. exists second. split; [constructor | assumption].
  - inversion Hy as [|? ? first1 ? ? Hr Ht]; subst.
    destruct (Exhausted_inv Hex) as (second1 & Hs & Hex1).
    destruct (IH first1 first' second1 Hex1 Ht) as (second' & Htr & Hex').
    exists second'. split; [|assumption]. simpl. econstructor; [|exact Htr].
    apply (Zip_returns_second_exhausted (mkZip first second) Hr Hs).
Qed.

End ZipFacts.

(** C10: every call of [Zip]'s [next()] pulls the first iterator, once and
    before anything else.  When the first iterator is exhausted the second
    is left as it is.  When the first yields an item and the second is
    exhausted, [Zip] returns exhaustion and the item pulled from the first
    is gone; so over an exhausted second iterator, each call still moves
    the first iterator on by one item. *)
Theorem C10_zip_pulls_first_and_discards
    {I1 I2 A B : Type} `{Iterator I1 A} `{Iterator I2 B} (z : Zip I1 I2) :
  (forall fuel v z', next fuel z = Some (v, z') ->
     exists va, next fuel (Zip_first z) = Some (va, Zip_first z')) /\
  (forall fuel, next fuel (Zip_first z) = None -> next fuel z = None) /\
  (forall first', returns (Zip_first z) None first' ->
     returns z None (mkZip first' (Zip_second z))) /\
  (forall a first' second',
     returns (Zip_first z) (Some a) first' ->
     returns (Zip_second z) None second' ->
     returns z None (mkZip first' second')) /\
  (forall l first',
     Exhausted (Zip_second z) -> yields (Zip_first z) l first' ->
     exists second',
       trace z (List.repeat None (List.length l)) (mkZip first' second') /\
       Exhausted second').
Proof.
  split; [|split; [|split; [|split]]].
  - intros fuel v z'. apply Zip_next_first.
  - intros fuel E. change (next fuel z) with (Zip_next fuel z).
    unfold Zip_next, bind. now rewrite E.
  - apply Zip_returns_first_exhausted.
  - apply Zip_returns_second_exhausted.
  - intros l first' Hex Hy. destruct z as [first second].
    now apply Zip_second_exhausted_trace.
Qed.

Lemma C10_zip_witness :
  let a := mkArray [1; 2; 3] in
  let b := mkArray (@nil Z) in
  exists second',
    trace (zip (Array_iter a) (Array_iter b)) [None; None; None]
          (mkZip (mkArrayIterator a 3) second') /\
    Exhausted second'.
Proof.
  intros a b.
  assert (Ha : len a < size_modulus) by (rewrite size_modulus_eq; reflexivity).
  destruct (C10_zip_pulls_first_and_discards (zip (Array_iter a) (Array_iter b)))
    as (_ & _ & _ & _ & Hall).
  apply (Hall [1; 2; 3] (mkArrayIterator a 3)).
  - apply (ArrayIterator_end_Exhausted b).
  - apply (ArrayIterator_yields_from a [1; 2; 3] []); auto.
Defined.

(** ** The loop of the terminal operations *)

Section LoopFacts.

Context {I Item : Type} `{Iterator I Item}.

Lemma iterate_None {A R : Type} (n fuel : nat) (body : A -> Item -> flow A R)
    (acc : A) (it : I) :
  iterate n fuel body acc None it = Done (inl acc).
Proof. now destruct n. Qed.

Lemma iterate_trace_at {A R : Type} (fuel : nat) (body : A -> Item -> flow A R)
    (l : list Item) :
  forall (n : nat) (acc : A) (y : Item) (it it' : I),
  (List.length l < n)%nat ->
  trace_at fuel it (List.map Some l ++ [None]) it' ->
  iterate n fuel body acc (Some y) it = flow_outcome (fold_flow body acc (y :: l)).
Proof.
  induction l as [|x l IH]; intros n acc y it it' Hn Ht;
    (destruct n as [|n]; [simpl in Hn; lia|]); simpl in *.
  - destruct (body acc y) as [acc'| |]; try reflexivity.
    destruct Ht as (it1 & Hnext & _). rewrite Hnext. apply iterate_None.
  - destruct (body acc y) as [acc'| |] eqn:Eb; try reflexivity.
    destruct Ht as (it1 & Hnext & Ht). rewrite Hnext.
    rewrite (IH n acc' x it1 it') by (assumption || lia).
    reflexivity.
Qed.

(** Over a finite iterator the range-[for] loop runs its body on the
    remaining items in order. *)
Lemma range_for_drains {A R : Type} (body : A -> Item -> flow A R) (acc : A)
    (it : I) (l : list Item) :
  drains it l ->
  exists f0, forall fuel, (f0 <= fuel)%nat ->
    range_for fuel body acc it = flow_outcome (fold_flow body acc l).
Proof.
  intros Hd. destruct (drains_trace_at Hd) as [f0 Hf].
  exists (Nat.max f0 (S (List.length l))). intros fuel Hle.
  destruct (Hf fuel) as [it' Ht]; [lia|].
  unfold range_for. destruct l as [|x l]; simpl in Ht.
  - destruct Ht as (it1 & Hnext & _). rewrite Hnext. apply iterate_None.
  - destruct Ht as (it1 & Hnext & Ht). rewrite Hnext.
    apply iterate_trace_at with (it' := it'); [simpl in Hle; lia | assumption].
Qed.

Lemma foreach_drains {A R : Type} (body : A -> Item -> flow A R) (acc : A)
    (it : I) (l : list Item) :
  drains it l ->
  exists f0, forall fuel, (f0 <= fuel)%nat ->
    foreach fuel body acc it = flow_outcome (fold_flow body acc l).
Proof. apply range_for_drains. Qed.

Lemma fold_flow_count (R : Type) (l : list Item) (c : Z) :
  wrap c = c ->
  fold_flow (R := R) (fun (count : Z) (_ : Item) => Continue (wrap (count + 1))) c l
  = Continue (wrap (c + Z.of_nat (List.length l))).
Proof.
  revert c. induction l as [|x l IH]; intros c Hc.
  - simpl. now rewrite Z.add_0_r, Hc.
  - cbn [fold_flow]. rewrite IH by apply wrap_idem. f_equal.
    unfold wrap. rewrite Zplus_mod_idemp_l. f_equal.
    cbn [List.length]. lia.
Qed.

(** [count()] of a finite iterator is the number of its remaining items,
    as a [size_t]. *)
Lemma count_drains (it : I) (l : list Item) :
  drains it l ->
  exists f0, forall fuel, (f0 <= fuel)%nat ->
    count fuel it = Done (wrap (Z.of_nat (List.length l))).
Proof.
  intros Hd.
  destruct (range_for_drains (R := Empty_set)
              (fun (count : Z) (_ : Item) => Continue (wrap (count + 1))) 0 Hd)
    as [f0 Hf].
  exists f0. intros fuel Hle. unfold count. rewrite (Hf fuel Hle).
  rewrite fold_flow_count by reflexivity. reflexivity.
Qed.

End LoopFacts.

(** ** InterleaveShortest *)


Section InterleaveShortestFacts.

Context {I1 I2 Item : Type} `{Iterator I1 Item} `{Iterator I2 Item}.

Lemma InterleaveShortest_next_first_due (fuel : nat) (it : InterleaveShortest I1 I2) :
  InterleaveShortest_yield_first it = true ->
  next fuel it =
  match next fuel (InterleaveShortest_first it) with
  | Some (Some x, first') =>
      Some (Some x, mkInterleaveShortest first' (InterleaveShortest_second it) false)
  | Some (None, first') =>
      Some (None, mkInterleaveShortest first' (InterleaveShortest_second it) true)
  | None => None
  end.
Proof.
  intros E. change (next fuel it) with (InterleaveShortest_next fuel it).
  unfold InterleaveShortest_next, bind. rewrite E.
  now destruct (next fuel (InterleaveShortest_first it)) as [[[x|] first']|].
Qed.

Lemma InterleaveShortest_next_second_due (fuel : nat) (it : InterleaveShortest I1 I2) :
  InterleaveShortest_yield_first it = false ->
  next fuel it =
  match next fuel (InterleaveShortest_second it) with
  | Some (Some x, second') =>
      Some (Some x, mkInterleaveShortest (InterleaveShortest_first it) second' true)
  | Some (None, second') =>
      Some (None, mkInterleaveShortest (InterleaveShortest_first it) second' false)
  | None => None
  end.
Proof.
  intros E. change (next fuel it) with (InterleaveShortest_next fuel it).
  unfold InterleaveShortest_next, bind. rewrite E.
  now destruct (next fuel (InterleaveShortest_second it)) as [[[x|] second']|].
Qed.

Lemma InterleaveShortest_returns_first (first first' : I1) (second : I2)
    (v : option Item) :
  returns first v first' ->
  returns (mkInterleaveShortest first second true) v
          (mkInterleaveShortest first' second (match v with Some _ => false | None => true end)).
Proof.
  intros [f0 Hf]. exists f0. intros fuel Hle.
  rewrite InterleaveShortest_next_first_due by reflexivity. simpl.
  rewrite (Hf fuel Hle). now destruct v.
Qed.

Lemma InterleaveShortest_returns_second (first : I1) (second second' : I2)
    (v : option Item) :
  returns second v second' ->
  returns (mkInterleaveShortest first second false) v
          (mkInterleaveShortest first second' (match v with Some _ => true | None => false end)).
Proof.
  intros [f0 Hf]. exists f0. intros fuel Hle.
  rewrite InterleaveShortest_next_second_due by reflexivity. simpl.
  rewrite (Hf fuel Hle). now destruct v.
Qed.

Lemma InterleaveShortest_first_Exhausted (first : I1) (second : I2) :
  Exhausted first -> Exhausted (mkInterleaveShortest first second true).
Proof.
  intros Hex.
  apply (Exhausted_invariant
           (fun t : InterleaveShortest I1 I2 =>
              InterleaveShortest_yield_first t = true /\
              Exhausted (InterleaveShortest_first t))); [|now split].
  intros [a b flag] [Hflag Ha]. simpl in *. subst flag.
  destruct (Exhausted_inv Ha) as (a' & Hr & Ha').
  exists (mkInterleaveShortest a' b true). split; [|now split].
  apply (InterleaveShortest_returns_first b Hr).
Qed.

Lemma InterleaveShortest_second_Exhausted (first : I1) (second : I2) :
  Exhausted second -> Exhausted (mkInterleaveShortest first second false).
Proof.
  intros Hex.
  apply (Exhausted_invariant
           (fun t : InterleaveShortest I1 I2 =>
              InterleaveShortest_yield_first t = false /\
              Exhausted (InterleaveShortest_second t))); [|now split].
  intros [a b flag] [Hflag Hb]. simpl in *. subst flag.
  destruct (Exhausted_inv Hb) as (b' & Hr & Hb').
  exists (mkInterleaveShortest a b' false). split; [|now split].
  apply (InterleaveShortest_returns_second a Hr).
Qed.

Lemma InterleaveShortest_drains (la : list Item) :
  forall (lb : list Item) (first : I1) (second : I2),
  drains first la -> drains second lb ->
  drains (mkInterleaveShortest first second true) (alternate la lb).
Proof.
  induction la as [|x la IH]; intros lb first second Ha Hb.
  - simpl. apply drains_nil_Exhausted, InterleaveShortest_first_Exhausted.
    now apply drains_nil_Exhausted.
  - apply drains_cons in Ha. destruct Ha as (first' & Hra & Ha).
    cbn [alternate]. apply drains_cons.
    exists (mkInterleaveShortest first' second false). split.
    { apply (InterleaveShortest_returns_first second Hra). }
    destruct lb as [|y lb].
    + apply drains_nil_Exhausted, InterleaveShortest_second_Exhausted.
      now apply drains_nil_Exhausted.
    + apply drains_cons in Hb. destruct Hb as (second' & Hrb & Hb).
      apply drains_cons. exists (mkInterleaveShortest first' second' true). split.
      { apply (InterleaveShortest_returns_second first' Hrb). }
      now apply IH.
Qed.

End InterleaveShortestFacts.



(** ** Terminal operations on an exhausted iterator *)

Section EmptyFacts.

Context {I Item : Type} `{Iterator I Item}.

Lemma range_for_Exhausted {A R : Type} (body : A -> Item -> flow A R) (acc : A)
    (it : I) :
  Exhausted it ->
  exists f0, forall fuel, (f0 <= fuel)%nat -> range_for fuel body acc it = Done (inl acc).
Proof.
  intros Hex. apply drains_nil_Exhausted in Hex.
  destruct (range_for_drains body acc Hex) as [f0 Hf].
  exists f0. intros fuel Hle. now rewrite (Hf fuel Hle).
Qed.

Lemma max_Exhausted `{Ordered Item} (it : I) :
  Exhausted it ->
  exists f0, forall fuel, (f0 <= fuel)%nat -> max fuel it = Done None.
Proof.
  intros Hex. destruct (Exhausted_inv Hex) as (it' & [f1 Hr] & Hex').
  destruct (range_for_Exhausted (R := Empty_set)
              (fun (max : option Item) v =>
                 match max with
                 | None => Fault
                 | Some m => if gt v m then Continue (Some v) else Continue max
                 end) None Hex') as [f2 Hf].
  exists (Nat.max f1 f2). intros fuel Hle. unfold max.
  rewrite (Hr fuel), (Hf fuel) by lia. reflexivity.
Qed.

Lemma min_Exhausted `{Ordered Item} (it : I) :
  Exhausted it ->
  exists f0, forall fuel, (f0 <= fuel)%nat -> min fuel it = Done None.
Proof.
  intros Hex. destruct (Exhausted_inv Hex) as (it' & [f1 Hr] & Hex').
  destruct (range_for_Exhausted (R := Empty_set)
              (fun (min : option Item) v =>
                 match min with
                 | None => Fault
                 | Some m => if lt v m then Continue (Some v) else Continue min
                 end) None Hex') as [f2 Hf].
  exists (Nat.max f1 f2). intros fuel Hle. unfold min.
  rewrite (Hr fuel), (Hf fuel) by lia. reflexivity.
Qed.

End EmptyFacts.

(** C7: on an exhausted iterator [all] is true, [any] is false and [none]
    is true for every predicate, and [find], [max] and [min] return the
    empty optional; each of them has a defined result. *)
Theorem C7_terminal_operations_on_empty
    {I Item : Type} `{Iterator I Item} `{Ordered Item} (it : I) (p : Item -> bool) :
  Exhausted it ->
  exists f0, forall fuel, (f0 <= fuel)%nat ->
    all fuel p it = Done true /\
    any fuel p it = Done false /\
    none fuel p it = Done true /\
    find fuel p it = Done None /\
    max fuel it = Done None /\
    min fuel it = Done None.
Proof.
  intros Hex.
  destruct (range_for_Exhausted (R := bool)
              (fun (_ : unit) v => if negb (p v) then Return false else Continue tt)
              tt Hex) as [f1 H1].
  destruct (range_for_Exhausted (R := bool)
              (fun (_ : unit) v => if p v then Return true else Continue tt)
              tt Hex) as [f2 H2].
  destruct (range_for_Exhausted (R := bool)
              (fun (_ : unit) v => if p v then Return false else Continue tt)
              tt Hex) as [f3 H3].
  destruct (range_for_Exhausted (R := Item)
              (fun (_ : unit) v => if p v then Return v else Continue tt)
              tt Hex) as [f4 H4].
  destruct (max_Exhausted Hex) as [f5 H5].
  destruct (min_Exhausted Hex) as [f6 H6].
  exists (f1 + f2 + f3 + f4 + f5 + f6)%nat. intros fuel Hle.
  unfold all, any, none, find.
  rewrite (H1 fuel), (H2 fuel), (H3 fuel), (H4 fuel), (H5 fuel), (H6 fuel) by lia.
  repeat split; reflexivity.
Qed.

Lemma C7_terminal_operations_witness :
  let it := Array_iter (mkArray (@nil Z)) in
  exists f0, forall fuel, (f0 <= fuel)%nat ->
    all fuel Z.even it = Done true /\
    any fuel Z.even it = Done false /\
    none fuel Z.even it = Done true /\
    find fuel Z.even it = Done None /\
    max fuel it = Done None /\
    min fuel it = Done None.
Proof.
  intros it.
  apply (C7_terminal_operations_on_empty (it := it) Z.even).
  apply (ArrayIterator_end_Exhausted (mkArray (@nil Z))).
Defined.

(** ** max and min *)

Section BestFacts.

Context {A : Type} (better : A -> A -> bool).

Hypothesis better_asym : forall a b, better a b = true -> better b a = false.
Hypothesis better_negtrans :
  forall a b c, better a b = false -> better b c = false -> better a c = false.

Lemma better_trans_l (a b c : A) :
  better a b = true -> better c b = false -> better a c = true.
Proof.
  intros Hab Hcb. destruct (better a c) eqn:E; [reflexivity|].
  now rewrite (better_negtrans E Hcb) in Hab.
Qed.

Lemma better_trans (a b c : A) :
  better a b = true -> better b c = true -> better a c = true.
Proof.
  intros Hab Hbc. apply better_trans_l with (b := b); [assumption|].
  now apply better_asym.
Qed.

(** The fold keeps the first of the best items: everything before the
    item it ends on is strictly worse, nothing after it is strictly
    better. *)
Lemma fold_best_first (l pre : list A) (m : A) (post : list A) :
  (forall y, In y pre -> better m y = true) ->
  (forall y, In y post -> better y m = false) ->
  exists pre' post',
    pre ++ m :: post ++ l = pre' ++ fold_left (keep_best better) l m :: post' /\
    (forall y, In y pre' -> better (fold_left (keep_best better) l m) y = true) /\
    (forall y, In y post' -> better y (fold_left (keep_best better) l m) = false).
Proof.
  revert pre m post. induction l as [|v l IH]; intros pre m post Hpre Hpost.
  - exists pre, post. rewrite app_nil_r. auto.
  - cbn [fold_left]. unfold keep_best at 2 4 6. destruct (better v m) eqn:E.
    + destruct (IH (pre ++ m :: post) v []) as (pre' & post' & Heq & H1 & H2).
      * intros y Hy. apply in_app_or in Hy. destruct Hy as [Hy|[<-|Hy]].
        -- apply better_trans with (b := m); auto.
        -- assumption.
        -- apply better_trans_l with (b := m); auto.
      * intros y [].
      * exists pre', post'. split; [|now split].
        rewrite <- Heq. rewrite <- !app_assoc. reflexivity.
    + destruct (IH pre m (post ++ [v])) as (pre' & post' & Heq & H1 & H2).
      * assumption.
      * intros y Hy. apply in_app_or in Hy. destruct Hy as [Hy|[<-|[]]]; auto.
      * exists pre', post'. split; [|now split].
        rewrite <- Heq. rewrite <- !app_assoc. reflexivity.
Qed.

End BestFacts.

Section MaxMinFacts.

Context {I Item : Type} `{Iterator I Item} `{Ordered Item}.

Lemma fold_flow_max (l : list Item) (m : Item) :
  fold_flow (R := Empty_set)
    (fun (max : option Item) v =>
       match max with
       | None => Fault
       | Some m => if gt v m then Continue (Some v) else Continue max
       end) (Some m) l
  = Continue (Some (fold_max m l)).
Proof.
  revert m. induction l as [|v l IH]; intros m; [reflexivity|].
  cbn [fold_flow]. unfold fold_max. cbn [fold_left]. unfold keep_best at 2.
  destruct (gt v m); apply IH.
Qed.

Lemma fold_flow_min (l : list Item) (m : Item) :
  fold_flow (R := Empty_set)
    (fun (min : option Item) v =>
       match min with
       | None => Fault
       | Some m => if lt v m then Continue (Some v) else Continue min
       end) (Some m) l
  = Continue (Some (fold_min m l)).
Proof.
  revert m. induction l as [|v l IH]; intros m; [reflexivity|].
  cbn [fold_flow]. unfold fold_min. cbn [fold_left]. unfold keep_best at 2.
  destruct (lt v m); apply IH.
Qed.

Lemma max_drains (it : I) (x : Item) (l : list Item) :
  drains it (x :: l) ->
  exists f0, forall fuel, (f0 <= fuel)%nat -> max fuel it = Done (Some (fold_max x l)).
Proof.
  intros Hd. apply drains_cons in Hd. destruct Hd as (it' & [f1 Hr] & Hd).
  destruct (range_for_drains (R := Empty_set)
              (fun (max : option Item) v =>
                 match max with
                 | None => Fault
                 | Some m => if gt v m then Continue (Some v) else Continue max
                 end) (Some x) Hd) as [f2 Hf].
  exists (Nat.max f1 f2). intros fuel Hle. unfold max.
  rewrite (Hr fuel), (Hf fuel) by lia. now rewrite fold_flow_max.
Qed.

Lemma min_drains (it : I) (x : Item) (l : list Item) :
  drains it (x :: l) ->
  exists f0, forall fuel, (f0 <= fuel)%nat -> min fuel it = Done (Some (fold_min x l)).
Proof.
  intros Hd. apply drains_cons in Hd. destruct Hd as (it' & [f1 Hr] & Hd).
  destruct (range_for_drains (R := Empty_set)
              (fun (min : option Item) v =>
                 match min with
                 | None => Fault
                 | Some m => if lt v m then Continue (Some v) else Continue min
                 end) (Some x) Hd) as [f2 Hf].
  exists (Nat.max f1 f2). intros fuel Hle. unfold min.
  rewrite (Hr fuel), (Hf fuel) by lia. now rewrite fold_flow_min.
Qed.

End MaxMinFacts.

(** C8: on a finite iterator with items [x :: l], [max] and [min] return
    the fold that replaces the best item so far only by a strictly greater
    (smaller) one.  When [>] ([<]) is a strict weak order the item returned
    is the first of the greatest (smallest) ones: every item before it is
    strictly smaller (greater) and no item after it is strictly greater
    (smaller).  [min] of ["aaa", "aa", "b"] is ["aa"]. *)
Theorem C8_max_min_keep_first_seen
    {I Item : Type} `{Iterator I Item} `{Ordered Item}
    (it : I) (x : Item) (l : list Item) :
  drains it (x :: l) ->
  (exists f0, forall fuel, (f0 <= fuel)%nat ->
     max fuel it = Done (Some (fold_max x l)) /\
     min fuel it = Done (Some (fold_min x l))) /\
  ((forall a b, gt a b = true -> gt b a = false) ->
   (forall a b c, gt a b = false -> gt b c = false -> gt a c = false) ->
   exists pre post,
     x :: l = pre ++ fold_max x l :: post /\
     (forall y, In y pre -> gt (fold_max x l) y = true) /\
     (forall y, In y post -> gt y (fold_max x l) = false)) /\
  ((forall a b, lt a b = true -> lt b a = false) ->
   (forall a b c, lt a b = false -> lt b c = false -> lt a c = false) ->
   exists pre post,
     x :: l = pre ++ fold_min x l :: post /\
     (forall y, In y pre -> lt (fold_min x l) y = true) /\
     (forall y, In y post -> lt y (fold_min x l) = false)) /\
  (exists f0, forall fuel, (f0 <= fuel)%nat ->
     min fuel (Array_iter (mkArray ["aaa"; "aa"; "b"]%string)) = Done (Some "aa"%string)).
Proof.
  intros Hd. split; [|split; [|split]].
  - destruct (max_drains Hd) as [f1 H1]. destruct (min_drains Hd) as [f2 H2].
    exists (Nat.max f1 f2). intros fuel Hle. split; [apply H1 | apply H2]; lia.
  - intros Hga Hgn.
    destruct (fold_best_first gt Hga Hgn l [] x []) as (pre & post & Heq & H1 & H2);
      try (intros y []).
    exists pre, post. split; [exact Heq | now split].
  - intros Hla Hln.
    destruct (fold_best_first lt Hla Hln l [] x []) as (pre & post & Heq & H1 & H2);
      try (intros y []).
    exists pre, post. split; [exact Heq | now split].
  - assert (Hs : drains (Array_iter (mkArray ["aaa"; "aa"; "b"]%string))
                   ["aaa"; "aa"; "b"]%string).
    { apply (Array_iter_drains (mkArray ["aaa"; "aa"; "b"]%string)).
      rewrite size_modulus_eq. reflexivity. }
    destruct (min_drains Hs) as [f0 Hf]. exists f0. intros fuel Hle.
    rewrite (Hf fuel Hle). reflexivity.
Qed.

Lemma C8_max_min_witness :
  let l := [3; 7; 1; 7; 1] in
  (exists f0, forall fuel, (f0 <= fuel)%nat ->
     max fuel (Array_iter (mkArray l)) = Done (Some 7) /\
     min fuel (Array_iter (mkArray l)) = Done (Some 1)) /\
  (exists pre post,
     l = pre ++ 7 :: post /\
     (forall y, In y pre -> (7 >? y) = true) /\
     (forall y, In y post -> (y >? 7) = false)).
Proof.
  intros l.
  assert (Hd : drains (Array_iter (mkArray l)) [3; 7; 1; 7; 1]).
  { apply (Array_iter_drains (mkArray l)). rewrite size_modulus_eq. reflexivity. }
  destruct (C8_max_min_keep_first_seen Hd) as (Hfold & Hmax & _).
  split; [exact Hfold|]. apply Hmax; simpl; intros.
  - rewrite Z.gtb_ltb in *. lia.
  - rewrite Z.gtb_ltb in *. lia.
Defined.

(** ** SkipWhile *)

Section SkipWhileFacts.

Context {I Item : Type} `{Iterator I Item}.

Lemma SkipWhile_next_skipped (fuel : nat) (inner : I) (p : Item -> bool) :
  next fuel (mkSkipWhile inner p true) =
  match next fuel inner with
  | Some (v, inner') => Some (v, mkSkipWhile inner' p true)
  | None => None
  end.
Proof.
  change (next fuel ?it) with (SkipWhile_next fuel it) at 1.
  unfold SkipWhile_next, bind. simpl.
  now destruct (next fuel inner) as [[v inner']|].
Qed.

Lemma SkipWhile_loop_trace_at (fuel : nat) (p : Item -> bool) (v : option Item)
    (post : I) (pre : list Item) :
  forall (n : nat) (inner : I),
  (List.length pre < n)%nat ->
  trace_at fuel inner (List.map Some pre ++ [v]) post ->
  (forall x, In x pre -> p x = true) ->
  match v with Some y => p y = false | None => True end ->
  SkipWhile_loop n fuel p inner = Some (v, post).
Proof.
  induction pre as [|x pre IH]; intros n inner Hn Ht Hpre Hv;
    (destruct n as [|n]; [simpl in Hn; lia|]); simpl in *.
  - destruct Ht as (it1 & Hnext & <-). rewrite Hnext. simpl.
    destruct v as [y|]; [now rewrite Hv | reflexivity].
  - destruct Ht as (it1 & Hnext & Ht). rewrite Hnext. simpl.
    rewrite (Hpre x) by now left.
    apply IH; auto. lia.
Qed.

Lemma SkipWhile_first_call (inner : I) (p : Item -> bool) (pre : list Item)
    (mid : I) (v : option Item) (post : I) :
  yields inner pre mid ->
  (forall x, In x pre -> p x = true) ->
  returns mid v post ->
  match v with Some y => p y = false | None => True end ->
  returns (skip_while inner p) v (mkSkipWhile post p true).
Proof.
  intros Hy Hpre Hr Hv.
  assert (Ht : trace inner (List.map Some pre ++ [v]) post).
  { eapply trace_app; [exact Hy|]. econstructor; [exact Hr | constructor]. }
  destruct (trace_uniform Ht) as [f0 Hf].
  exists (Nat.max f0 (S (List.length pre))). intros fuel Hle.
  change (next fuel ?it) with (SkipWhile_next fuel it).
  unfold SkipWhile_next, skip_while, bind. simpl.
  rewrite (@SkipWhile_loop_trace_at fuel p v post pre fuel inner); auto; try lia.
  apply Hf. lia.
Qed.

End SkipWhileFacts.

(** C6: the first call of [SkipWhile]'s [next()] pulls and drops items
    while the predicate holds and returns the first item on which it fails,
    or exhaustion when the source runs out first; it leaves [skipped] set.
    With [skipped] set, a call is the inner iterator's call and nothing
    else: its result does not depend on the predicate, [skipped] stays set,
    and an item on which the predicate holds is returned like any other. *)
Theorem C6_skip_while_skips_once
    {I Item : Type} `{Iterator I Item} (inner : I) (p : Item -> bool)
    (pre : list Item) (mid : I) (v : option Item) (post : I) :
  yields inner pre mid ->
  (forall x, In x pre -> p x = true) ->
  returns mid v post ->
  match v with Some y => p y = false | None => True end ->
  returns (skip_while inner p) v (mkSkipWhile post p true) /\
  (forall fuel (it : I) (q : Item -> bool),
     next fuel (mkSkipWhile it q true) =
     match next fuel it with
     | Some (w, it') => Some (w, mkSkipWhile it' q true)
     | None => None
     end) /\
  (forall (it it' : I) (y : Item),
     p y = true -> returns it (Some y) it' ->
     returns (mkSkipWhile it p true) (Some y) (mkSkipWhile it' p true)).
Proof.
  intros Hy Hpre Hr Hv. split; [|split].
  - now apply SkipWhile_first_call with (pre := pre) (mid := mid).
  - intros fuel it q. apply SkipWhile_next_skipped.
  - intros it it' y _ [f0 Hf]. exists f0. intros fuel Hle.
    rewrite SkipWhile_next_skipped. now rewrite (Hf fuel Hle).
Qed.

Lemma C6_skip_while_witness :
  let a := mkArray [2; 4; 7; 8] in
  returns (skip_while (Array_iter a) Z.even) (Some 7)
          (mkSkipWhile (mkArrayIterator a 3) Z.even true) /\
  returns (mkSkipWhile (mkArrayIterator a 3) Z.even true) (Some 8)
          (mkSkipWhile (mkArrayIterator a 4) Z.even true).
Proof.
  intros a.
  assert (Hlen : len a < size_modulus) by (rewrite size_modulus_eq; reflexivity).
  assert (Hy : yields (Array_iter a) [2; 4] (mkArrayIterator a 2)).
  { unfold yields. simpl.
    econstructor; [apply (ArrayIterator_next_item a [] 2 [4; 7; 8]); auto|].
    econstructor; [apply (ArrayIterator_next_item a [2] 4 [7; 8]); auto|].
    constructor. }
  assert (H7 : returns (mkArrayIterator a 2) (Some 7) (mkArrayIterator a 3))
    by (apply (ArrayIterator_next_item a [2; 4] 7 [8]); auto).
  assert (H8 : returns (mkArrayIterator a 3) (Some 8) (mkArrayIterator a 4))
    by (apply (ArrayIterator_next_item a [2; 4; 7] 8 []); auto).
  assert (Hpre : forall x, In x [2; 4] -> Z.even x = true).
  { intros x [<-|[<-|[]]]; reflexivity. }
  destruct (C6_skip_while_skips_once Z.even Hy Hpre H7 eq_refl) as (Hfirst & _ & Hlater).
  split; [exact Hfirst|]. now apply Hlater.
Defined.

(** ** Cycle under Take *)

Lemma cycled_nth_error {A : Type} (d : A) (l : list A) (k i : nat) :
  l <> [] -> (i < k)%nat ->
  nth_error (cycled d l k) i = nth_error l (i mod List.length l)%nat.
Proof.
  intros Hl Hi. unfold cycled.
  rewrite nth_error_map, nth_error_seq.
  destruct (Nat.ltb_spec i k) as [_|]; [|lia]. simpl.
  symmetry. apply nth_error_nth'. apply Nat.mod_upper_bound.
  destruct l; [contradiction | discriminate].
Qed.

Section CycleFacts.

Context {I Item : Type} `{Iterator I Item}.

Lemma Cycle_returns_inner (original inner inner' : I) (x : Item) :
  returns inner (Some x) inner' ->
  returns (mkCycle original inner) (Some x) (mkCycle original inner').
Proof.
  intros [f0 Hf]. exists f0. intros fuel Hle.
  change (next fuel ?it) with (Cycle_next fuel it).
  unfold Cycle_next, bind. simpl. now rewrite (Hf fuel Hle).
Qed.

Lemma Cycle_returns_restart (original inner inner' original' : I) (v : option Item) :
  returns inner None inner' ->
  returns original v original' ->
  returns (mkCycle original inner) v (mkCycle original original').
Proof.
  intros [f1 H1] [f2 H2]. exists (Nat.max f1 f2). intros fuel Hle.
  change (next fuel ?it) with (Cycle_next fuel it).
  unfold Cycle_next, bind. simpl. rewrite (H1 fuel), (H2 fuel) by lia. reflexivity.
Qed.

Lemma Cycle_empty_Exhausted (original inner : I) :
  Exhausted original -> Exhausted inner -> Exhausted (mkCycle original inner).
Proof.
  intros Ho Hi.
  apply (Exhausted_invariant
           (fun c : Cycle I => Cycle_original c = original /\ Exhausted (Cycle_inner c)));
    [|now split].
  intros [o i] [Eo Hex]. simpl in *. subst o.
  destruct (Exhausted_inv Hex) as (i' & Hr & _).
  destruct (Exhausted_inv Ho) as (o' & Hro & Ho').
  exists (mkCycle original o'). split; [|now split].
  exact (Cycle_returns_restart Hr Hro).
Qed.

Lemma skipn_cons_nth (d : Item) (l : list Item) (j : nat) (y : Item) (rest : list Item) :
  skipn j l = y :: rest ->
  (j < List.length l)%nat /\ nth j l d = y /\ skipn (S j) l = rest.
Proof.
  revert j. induction l as [|x l IH]; intros [|j] E; simpl in *; try discriminate.
  - inversion E; subst. repeat split. lia.
  - destruct (IH j E) as (Hlt & Hn & Hs). repeat split; auto. lia.
Qed.

Lemma Cycle_yields (d : Item) (original : I) (l : list Item) :
  l <> [] -> drains original l ->
  forall (k j : nat) (inner : I),
  (j <= List.length l)%nat ->
  drains inner (skipn j l) ->
  exists c', yields (mkCycle original inner)
               (List.map (fun i => nth ((j + i) mod List.length l)%nat l d) (seq 0 k)) c'.
Proof.
  intros Hl Ho. induction k as [|k IH]; intros j inner Hj Hi.
  - eexists. constructor.
  - rewrite <- cons_seq, <- seq_shift. cbn [List.map]. rewrite List.map_map.
    destruct (skipn j l) as [|y rest] eqn:Es.
    + assert (Ej : j = List.length l).
      { destruct (Nat.eq_dec j (List.length l)) as [|Hne]; [assumption|].
        assert (Hlen : List.length (skipn j l) = 0%nat) by now rewrite Es.
        rewrite length_skipn in Hlen. lia. }
      destruct l as [|x0 l0]; [contradiction|].
      apply drains_returns_None in Hi. destruct Hi as (inner' & Hr & _).
      pose proof Ho as Ho'. apply drains_cons in Ho'.
      destruct Ho' as (o' & Hro & Hdo).
      destruct (IH 1%nat o') as (c' & Hc); [simpl; lia | exact Hdo |].
      exists c'. unfold yields. cbn [List.map]. econstructor.
      * rewrite Ej, Nat.add_0_r, Nat.Div0.mod_same. cbn [nth].
        exact (Cycle_returns_restart Hr Hro).
      * rewrite (List.map_ext
                   (fun i => nth ((j + S i) mod List.length (x0 :: l0))%nat (x0 :: l0) d)
                   (fun i => nth ((1 + i) mod List.length (x0 :: l0))%nat (x0 :: l0) d));
          [exact Hc|].
        intros i. f_equal. subst j.
        replace (List.length (x0 :: l0) + S i)%nat
          with (1 + i + 1 * List.length (x0 :: l0))%nat by lia.
        now rewrite Nat.Div0.mod_add.
    + destruct (skipn_cons_nth d l j Es) as (Hlt & Hn & Hs).
      apply drains_cons in Hi. destruct Hi as (inner' & Hr & Hd).
      destruct (IH (S j) inner') as (c' & Hc); [lia | now rewrite Hs |].
      exists c'. unfold yields. cbn [List.map]. econstructor.
      * rewrite Nat.add_0_r, Nat.mod_small, Hn by assumption.
        exact (Cycle_returns_inner original Hr).
      * rewrite (List.map_ext
                   (fun i => nth ((j + S i) mod List.length l)%nat l d)
                   (fun i => nth ((S j + i) mod List.length l)%nat l d));
          [exact Hc|].
        intros i. do 2 f_equal. lia.
Qed.

Lemma Take_returns (inner inner' : I) (num : Z) (v : option Item) :
  0 < num < size_modulus ->
  returns inner v inner' ->
  returns (mkTake inner num) v (mkTake inner' (num - 1)).
Proof.
  intros Hn [f0 Hf]. exists f0. intros fuel Hle.
  rewrite Take_next_nonzero by (simpl; lia). simpl. now rewrite (Hf fuel Hle).
Qed.

Lemma Take_yields (l : list Item) :
  forall (inner inner' : I),
  Z.of_nat (List.length l) < size_modulus ->
  yields inner l inner' ->
  yields (mkTake inner (Z.of_nat (List.length l))) l (mkTake inner' 0).
Proof.
  induction l as [|x l IH]; intros inner inner' Hlen Hy.
  - inversion Hy; subst. constructor.
  - inversion Hy as [|? ? inner1 ? ? Hr Ht]; subst.
    unfold yields. cbn [List.map]. econstructor.
    + apply Take_returns; [|exact Hr]. cbn [List.length] in *. lia.
    + replace (Z.of_nat (List.length (x :: l)) - 1) with (Z.of_nat (List.length l))
        by (cbn [List.length]; lia).
      apply IH; [|exact Ht]. cbn [List.length] in Hlen. lia.
Qed.

End CycleFacts.

(** C4: over a finite source with items [l], [l] not empty, [cycle()]
    under [take(k)] is a finite iterator whose item at position [i < k] is
    the source item at position [i mod length l], and which has exactly [k]
    items; over a source without items, every call of [cycle()]'s [next()]
    returns exhaustion.  When its working iterator is exhausted, [Cycle]
    sets it back to the preserved copy and returns what one pull of that
    copy returns. *)
Theorem C4_cycle_take_positions
    {I Item : Type} `{Iterator I Item} (source : I) (l : list Item) (k : Z) (d : Item) :
  drains source l ->
  0 <= k < size_modulus ->
  (l <> [] ->
   drains (take (cycle source) k) (cycled d l (Z.to_nat k)) /\
   List.length (cycled d l (Z.to_nat k)) = Z.to_nat k /\
   forall i, (i < Z.to_nat k)%nat ->
     nth_error (cycled d l (Z.to_nat k)) i = nth_error l (i mod List.length l)%nat) /\
  (l = [] -> Exhausted (cycle source)) /\
  (forall (original inner inner' original' : I) (v : option Item),
     returns inner None inner' -> returns original v original' ->
     returns (mkCycle original inner) v (mkCycle original original')).
Proof.
  intros Hd Hk. split; [|split; [|intros; eapply Cycle_returns_restart; eassumption]].
  - intros Hl. split; [|split].
    + destruct (@Cycle_yields _ _ _ d source l Hl Hd (Z.to_nat k) 0%nat source) as (c' & Hc);
        [lia | exact Hd |].
      exists (mkTake c' 0). split; [|now apply Take_zero_Exhausted].
      unfold take, cycle, cycled.
      assert (Hlen : List.length
                (List.map (fun i => nth (i mod List.length l)%nat l d)
                   (seq 0 (Z.to_nat k))) = Z.to_nat k)
        by now rewrite length_map, length_seq.
      replace k with (Z.of_nat (List.length
                (List.map (fun i => nth (i mod List.length l)%nat l d)
                   (seq 0 (Z.to_nat k))))) at 1 by (rewrite Hlen; lia).
      apply Take_yields; [rewrite Hlen; lia | exact Hc].
    + unfold cycled. now rewrite length_map, length_seq.
    + intros i Hi. now apply cycled_nth_error.
  - intros ->. apply drains_nil_Exhausted in Hd.
    now apply Cycle_empty_Exhausted.
Qed.

Lemma C4_cycle_take_witness :
  let a := mkArray [1; 2; 3] in
  drains (take (cycle (Array_iter a)) 5) [1; 2; 3; 1; 2].
Proof.
  intros a.
  assert (Hd : drains (Array_iter a) [1; 2; 3]).
  { apply (Array_iter_drains a). rewrite size_modulus_eq. reflexivity. }
  assert (Hk : 0 <= 5 < size_modulus) by (rewrite size_modulus_eq; lia).
  destruct (C4_cycle_take_positions 0 Hd Hk) as (Hcycle & _ & _).
  apply Hcycle. discriminate.
Defined.

(** ** Counted loops *)

Section CountedLoops.

Context {S : Type} (body : S -> option (S + S)).

Lemma loop_nat_add (a b : nat) (s : S) :
  loop_nat (a + b) body s =
  match loop_nat a body s with
  | Some (inl s1) => loop_nat b body s1
  | r => r
  end.
Proof.
  revert s. induction a as [|a IH]; intros s; [reflexivity|].
  cbn [loop_nat Nat.add]. destruct (body s) as [[s1|s1]|]; auto.
Qed.

Lemma bounded_loop_nat (budget : positive) (s : S) :
  bounded_loop budget body s = loop_nat (Pos.to_nat budget) body s.
Proof.
  revert s. induction budget as [p IH|p IH|]; intros s.
  - rewrite Pos2Nat.inj_xI. cbn [bounded_loop loop_nat].
    destruct (body s) as [[s1|s1]|]; auto.
    replace (2 * Pos.to_nat p)%nat with (Pos.to_nat p + Pos.to_nat p)%nat by lia.
    rewrite loop_nat_add, <- IH.
    destruct (bounded_loop p body s1) as [[s2|s2]|]; auto.
  - rewrite Pos2Nat.inj_xO.
    replace (2 * Pos.to_nat p)%nat with (Pos.to_nat p + Pos.to_nat p)%nat by lia.
    cbn [bounded_loop]. rewrite loop_nat_add, <- IH.
    destruct (bounded_loop p body s) as [[s1|s1]|]; auto.
  - change (Pos.to_nat 1) with 1%nat. cbn [bounded_loop loop_nat].
    destruct (body s) as [[s1|s1]|]; auto.
Qed.

(** A property of the state kept by every run of the body holds when the
    loop is left. *)
Lemma loop_nat_invariant (P : S -> Prop) :
  (forall s r, P s -> body s = Some r -> P (loop_state r)) ->
  forall (n : nat) (s : S) (r : S + S),
  P s -> loop_nat n body s = Some r -> P (loop_state r).
Proof.
  intros Hbody. induction n as [|n IH]; intros s r HP E; cbn [loop_nat] in E.
  - inversion E; subst. exact HP.
  - destruct (body s) as [[s1|s1]|] eqn:Eb; try discriminate.
    + apply (IH s1); [|exact E]. exact (Hbody s (inl s1) HP Eb).
    + inversion E; subst. exact (Hbody s (inr s1) HP Eb).
Qed.

Lemma bounded_loop_invariant (P : S -> Prop) :
  (forall s r, P s -> body s = Some r -> P (loop_state r)) ->
  forall (budget : positive) (s : S) (r : S + S),
  P s -> bounded_loop budget body s = Some r -> P (loop_state r).
Proof.
  intros Hbody budget s r HP E. rewrite bounded_loop_nat in E.
  exact (loop_nat_invariant P Hbody _ s HP E).
Qed.

End CountedLoops.

Lemma loop_budget_nat : Z.of_nat (Pos.to_nat loop_budget) = size_modulus.
Proof. rewrite positive_nat_Z. reflexivity. Qed.

(** ** StepBy with step 0 *)

Section StepByFacts.

Context {I Item : Type} `{Iterator I Item}.

Lemma StepBy_next_exhausted (fuel : nat) (inner inner' : I) (step : Z) :
  next fuel inner = Some (None, inner') ->
  next fuel (mkStepBy inner step) = Some (None, mkStepBy inner' step).
Proof.
  intros E. change (next fuel ?it) with (StepBy_next fuel it) at 1.
  unfold StepBy_next, bind. cbn [StepBy_inner StepBy_step]. now rewrite E.
Qed.

Lemma StepBy_Exhausted (inner : I) (step : Z) :
  Exhausted inner -> Exhausted (mkStepBy inner step).
Proof.
  intros Hex.
  apply (Exhausted_invariant
           (fun t : StepBy I => StepBy_step t = step /\ Exhausted (StepBy_inner t)));
    [|now split].
  intros [i s] [Es Hi]. simpl in *. subst s.
  destruct (Exhausted_inv Hi) as (i' & [f0 Hf] & Hi').
  exists (mkStepBy i' step). split; [|now split].
  exists f0. intros fuel Hle. apply StepBy_next_exhausted. now apply Hf.
Qed.

(** The discarding loop with step 0, when the counter comes round to 0
    just as the last of the remaining items [l] has been pulled. *)
Lemma StepBy_zero_loop_wraps (fuel : nat) (mid : I) (l : list Item) :
  forall (n : nat) (i : Z) (inner : I),
  trace_at fuel inner (List.map Some l) mid ->
  1 <= i -> i + Z.of_nat (List.length l) = size_modulus ->
  (List.length l < n)%nat ->
  loop_nat n (StepBy_body fuel 0) (wrap i, inner) = Some (inr (0, mid)).
Proof.
  induction l as [|x l IH]; intros n i inner Ht Hi Hsum Hn;
    (destruct n as [|n]; [simpl in Hn; lia|]); cbn [loop_nat StepBy_body].
  - simpl in Ht, Hsum. subst mid.
    replace i with size_modulus by lia. rewrite wrap_modulus. reflexivity.
  - cbn [List.map trace_at List.length] in *. destruct Ht as (inner1 & Hnext & Ht).
    rewrite wrap_small by lia.
    destruct (Z.eqb_spec i 0) as [E|_]; [lia|].
    rewrite Hnext. cbn [bind]. apply IH; [assumption|lia|lia|lia].
Qed.

(** The same loop when the remaining items [l] run out first. *)
Lemma StepBy_zero_loop_breaks (fuel : nat) (mid it' : I) (l : list Item) :
  forall (n : nat) (i : Z) (inner : I),
  trace_at fuel inner (List.map Some l) mid ->
  next fuel mid = Some (None, it') ->
  1 <= i -> i + Z.of_nat (List.length l) < size_modulus ->
  (List.length l < n)%nat ->
  loop_nat n (StepBy_body fuel 0) (wrap i, inner)
  = Some (inr (i + Z.of_nat (List.length l), it')).
Proof.
  induction l as [|x l IH]; intros n i inner Ht Hnone Hi Hsum Hn;
    (destruct n as [|n]; [simpl in Hn; lia|]); cbn [loop_nat StepBy_body].
  - simpl in Ht. subst mid. rewrite wrap_small by (simpl in Hsum; lia).
    destruct (Z.eqb_spec i 0) as [E|_]; [lia|].
    rewrite Hnone. cbn [bind]. simpl. now rewrite Z.add_0_r.
  - cbn [List.map trace_at List.length] in *. destruct Ht as (inner1 & Hnext & Ht).
    rewrite wrap_small by lia.
    destruct (Z.eqb_spec i 0) as [E|_]; [lia|].
    rewrite Hnext. cbn [bind].
    rewrite (IH n (i + 1) inner1) by (assumption || lia).
    do 3 f_equal. lia.
Qed.

(** With step 0 the first call returns the first item and leaves the
    inner iterator exhausted, for a source of at most [size_modulus]
    items. *)
Lemma StepBy_zero_first (inner : I) (x : Item) (l : list Item) :
  drains inner (x :: l) ->
  Z.of_nat (List.length (x :: l)) <= size_modulus ->
  exists t', returns (step_by inner 0) (Some x) t' /\
             Exhausted (StepBy_inner t') /\ StepBy_step t' = 0.
Proof.
  intros Hd Hlen. cbn [List.length] in Hlen.
  apply drains_cons in Hd. destruct Hd as (inner1 & [f1 Hr] & mid & Hy & Hmid).
  destruct (Exhausted_inv Hmid) as (it' & [f3 Hnone] & Hex').
  destruct (trace_uniform Hy) as [f2 Hf].
  pose proof loop_budget_nat as Hb.
  destruct (Z.eq_dec (1 + Z.of_nat (List.length l)) size_modulus) as [E|E].
  - exists (mkStepBy mid 0). split; [|split; [exact Hmid | reflexivity]].
    exists (Nat.max f1 f2). intros fuel Hle.
    change (next fuel ?it) with (StepBy_next fuel it).
    unfold StepBy_next, step_by, bind. cbn [StepBy_inner StepBy_step].
    rewrite (Hr fuel) by lia. rewrite bounded_loop_nat.
    revert Hb. generalize (Pos.to_nat loop_budget). intros budget Hb.
    change (1, inner1) with (wrap 1, inner1).
    rewrite (@StepBy_zero_loop_wraps fuel mid l); try lia; [reflexivity|].
    apply Hf. lia.
  - exists (mkStepBy it' 0). split; [|split; [exact Hex' | reflexivity]].
    exists (Nat.max f1 (Nat.max f2 f3)). intros fuel Hle.
    change (next fuel ?it) with (StepBy_next fuel it).
    unfold StepBy_next, step_by, bind. cbn [StepBy_inner StepBy_step].
    rewrite (Hr fuel) by lia. rewrite bounded_loop_nat.
    revert Hb. generalize (Pos.to_nat loop_budget). intros budget Hb.
    change (1, inner1) with (wrap 1, inner1).
    rewrite (@StepBy_zero_loop_breaks fuel mid it' l); try lia; [reflexivity| |].
    + apply Hf. lia.
    + apply Hnone. lia.
Qed.

(** With step 0 a finite source of at most [size_modulus] items is cut
    down to its first item. *)
Lemma StepBy_zero_drains (inner : I) (l : list Item) :
  drains inner l ->
  Z.of_nat (List.length l) <= size_modulus ->
  drains (step_by inner 0) (firstn 1 l).
Proof.
  intros Hd Hlen. destruct l as [|x l].
  - apply drains_nil_Exhausted. apply StepBy_Exhausted.
    now apply drains_nil_Exhausted.
  - destruct (StepBy_zero_first Hd Hlen) as ([i s] & Hr & Hex & Es).
    simpl in *. subst s. apply drains_cons.
    exists (mkStepBy i 0). split; [exact Hr|].
    apply drains_nil_Exhausted. now apply StepBy_Exhausted.
Qed.

End StepByFacts.

(** ** The wide range *)

Lemma from_to_length (c : Z) (m : nat) : List.length (from_to c m) = m.
Proof. unfold from_to. now rewrite length_map, length_seq. Qed.

Lemma from_to_succ (c : Z) (m : nat) : from_to c (S m) = c :: from_to (c + 1) m.
Proof.
  unfold from_to. rewrite <- cons_seq, <- seq_shift. cbn [List.map].
  rewrite Z.add_0_r, List.map_map. f_equal.
  apply List.map_ext. intros i. lia.
Qed.

Lemma WideRange_next_item (fuel : nat) (r : Range Z) (c : Z) :
  c <= Range_end r ->
  next fuel (mkRangeIterator r c) = Some (Some c, mkRangeIterator r (c + 1)).
Proof.
  intros Hc. change (next fuel ?it) with (RangeIterator_next Z.leb Z.succ fuel it).
  unfold RangeIterator_next. cbn [RangeIterator_cursor RangeIterator_range].
  destruct (Z.leb_spec c (Range_end r)) as [_|]; [|lia].
  now rewrite <- Z.add_1_r.
Qed.

Lemma WideRange_next_end (fuel : nat) (r : Range Z) (c : Z) :
  Range_end r < c ->
  next fuel (mkRangeIterator r c) = Some (None, mkRangeIterator r c).
Proof.
  intros Hc. change (next fuel ?it) with (RangeIterator_next Z.leb Z.succ fuel it).
  unfold RangeIterator_next. cbn [RangeIterator_cursor RangeIterator_range].
  destruct (Z.leb_spec c (Range_end r)) as [|_]; [lia|]. reflexivity.
Qed.

Lemma WideRange_trace_at (fuel : nat) (r : Range Z) (m : nat) :
  forall c : Z,
  c + Z.of_nat m <= Range_end r + 1 ->
  trace_at fuel (mkRangeIterator r c) (List.map Some (from_to c m))
           (mkRangeIterator r (c + Z.of_nat m)).
Proof.
  induction m as [|m IH]; intros c Hc.
  - cbn [from_to seq List.map trace_at]. now rewrite Z.add_0_r.
  - rewrite from_to_succ. cbn [List.map trace_at].
    exists (mkRangeIterator r (c + 1)). split.
    + apply WideRange_next_item. lia.
    + replace (c + Z.of_nat (S m)) with (c + 1 + Z.of_nat m) by lia.
      apply IH. lia.
Qed.

Lemma WideRange_yields (r : Range Z) (m : nat) :
  forall c : Z,
  c + Z.of_nat m <= Range_end r + 1 ->
  yields (mkRangeIterator r c) (from_to c m) (mkRangeIterator r (c + Z.of_nat m)).
Proof.
  induction m as [|m IH]; intros c Hc.
  - cbn [from_to seq List.map]. rewrite Z.add_0_r. constructor.
  - rewrite from_to_succ. unfold yields. cbn [List.map].
    econstructor.
    + exists O. intros fuel _. apply WideRange_next_item. lia.
    + replace (c + Z.of_nat (S m)) with (c + 1 + Z.of_nat m) by lia.
      apply IH. lia.
Qed.

Lemma WideRange_end_Exhausted (r : Range Z) (c : Z) :
  Range_end r < c -> Exhausted (mkRangeIterator r c).
Proof.
  intros Hc.
  apply (Exhausted_invariant (fun it => it = mkRangeIterator r c)); [|reflexivity].
  intros it ->. eexists. split; [|reflexivity].
  exists O. intros fuel _. now apply WideRange_next_end.
Qed.

(** A wide range from [s] to [e] is a finite iterator with [e - s + 1]
    items. *)
Lemma WideRange_drains (s e : Z) :
  s <= e + 1 ->
  drains (Range_iter (mkRange s e)) (from_to s (Z.to_nat (e - s + 1))).
Proof.
  intros Hse. exists (mkRangeIterator (mkRange s e) (e + 1)). split.
  - pose proof (WideRange_yields (mkRange s e) (Z.to_nat (e - s + 1)) s) as Hy.
    replace (s + Z.of_nat (Z.to_nat (e - s + 1))) with (e + 1) in Hy by lia.
    apply Hy. cbn [Range_end]. lia.
  - apply WideRange_end_Exhausted. cbn [Range_end]. lia.
Qed.

Lemma long_range_first_call :
  returns (step_by long_range 0) (Some 0)
          (mkStepBy (mkRangeIterator (mkRange 0 size_modulus) size_modulus) 0).
Proof.
  pose proof loop_budget_nat as Hb. pose proof size_modulus_pos as Hpos.
  exists O. intros fuel _.
  change (next fuel ?it) with (StepBy_next fuel it).
  unfold StepBy_next, step_by, long_range, Range_iter, bind.
  cbn [StepBy_inner StepBy_step Range_start].
  rewrite WideRange_next_item by (cbn [Range_end]; lia).
  rewrite bounded_loop_nat.
  revert Hb. generalize (Pos.to_nat loop_budget). intros budget Hb.
  change (1, mkRangeIterator (mkRange 0 size_modulus) (0 + 1))
    with (wrap 1, mkRangeIterator (mkRange 0 size_modulus) 1).
  assert (Hm : exists m, Z.of_nat m = size_modulus - 1)
    by (exists (Z.to_nat (size_modulus - 1)); lia).
  destruct Hm as [m Hm].
  rewrite (@StepBy_zero_loop_wraps _ _ _ fuel
             (mkRangeIterator (mkRange 0 size_modulus) size_modulus)
             (from_to 1 m)); [reflexivity| | | |]; rewrite ?from_to_length; try lia.
  pose proof (WideRange_trace_at fuel (mkRange 0 size_modulus) m 1) as Ht.
  replace (1 + Z.of_nat m) with size_modulus in Ht by lia.
  apply Ht. cbn [Range_end]. lia.
Qed.

Lemma long_range_second_call :
  returns (mkStepBy (mkRangeIterator (mkRange 0 size_modulus) size_modulus) 0)
          (Some size_modulus)
          (mkStepBy (mkRangeIterator (mkRange 0 size_modulus) (size_modulus + 1)) 0).
Proof.
  pose proof loop_budget_nat as Hb. pose proof size_modulus_pos as Hpos.
  exists O. intros fuel _.
  change (next fuel ?it) with (StepBy_next fuel it).
  unfold StepBy_next, bind. cbn [StepBy_inner StepBy_step].
  rewrite WideRange_next_item by (cbn [Range_end]; lia).
  rewrite bounded_loop_nat.
  revert Hb. generalize (Pos.to_nat loop_budget). intros budget Hb.
  change (1, ?it) with (wrap 1, it).
  rewrite (@StepBy_zero_loop_breaks _ _ _ fuel
             (mkRangeIterator (mkRange 0 size_modulus) (size_modulus + 1))
             (mkRangeIterator (mkRange 0 size_modulus) (size_modulus + 1)) []);
    [reflexivity | reflexivity | | | |]; cbn [List.length];
    try (rewrite size_modulus_eq in *; lia).
  apply WideRange_next_end. cbn [Range_end]. lia.
Qed.

(** C9, as the code has it: with step 0 the discarding loop of the first
    call counts [i] up from 1 until it comes round to 0; on a finite source
    of at most [size_modulus] items it pulls all that remains, so the
    adapter yields the first item of the source and nothing else, and
    [count()] is 1 for a source with items and 0 for one without. *)
Theorem C9_step_by_zero_yields_first_only
    {I Item : Type} `{Iterator I Item} (inner : I) (l : list Item) :
  drains inner l ->
  Z.of_nat (List.length l) <= size_modulus ->
  drains (step_by inner 0) (firstn 1 l) /\
  (forall x l', l = x :: l' ->
     exists t', returns (step_by inner 0) (Some x) t' /\
                Exhausted (StepBy_inner t') /\ Exhausted t') /\
  exists f0, forall fuel, (f0 <= fuel)%nat ->
    count fuel (step_by inner 0) = Done (match l with [] => 0 | _ :: _ => 1 end).
Proof.
  intros Hd Hlen.
  assert (Hs : drains (step_by inner 0) (firstn 1 l)) by now apply StepBy_zero_drains.
  split; [exact Hs | split].
  - intros x l' ->. destruct (StepBy_zero_first Hd Hlen) as ([i s] & Hr & Hex & Es).
    simpl in *. subst s. exists (mkStepBy i 0).
    split; [exact Hr | split; [exact Hex | now apply StepBy_Exhausted]].
  - destruct (count_drains Hs) as [f0 Hf]. exists f0. intros fuel Hle.
    rewrite (Hf fuel Hle). now destruct l.
Qed.

Lemma C9_step_by_zero_witness :
  let a := mkArray [5; 6; 7] in
  drains (step_by (Array_iter a) 0) [5] /\
  exists f0, forall fuel, (f0 <= fuel)%nat ->
    count fuel (step_by (Array_iter a) 0) = Done 1.
Proof.
  intros a.
  assert (Hd : drains (Array_iter a) [5; 6; 7]).
  { apply (Array_iter_drains a). rewrite size_modulus_eq. reflexivity. }
  assert (Hlen : Z.of_nat (List.length [5; 6; 7]) <= size_modulus)
    by (rewrite size_modulus_eq; simpl; lia).
  destruct (C9_step_by_zero_yields_first_only Hd Hlen) as (Hs & _ & Hc).
  split; [exact Hs | exact Hc].
Defined.

(** C9 as stated fails on a finite source of more than [size_modulus]
    items: over the wide range [0 .. size_modulus] the loop of the first
    call stops when its counter comes round to 0, with one item left, and
    the second call yields that item. *)
Lemma C9_counterexample :
  exists l,
    drains long_range l /\
    Z.of_nat (List.length l) = size_modulus + 1 /\
    (exists t1 t2,
       returns (step_by long_range 0) (Some 0) t1 /\
       returns t1 (Some size_modulus) t2) /\
    ~ drains (step_by long_range 0) (firstn 1 l).
Proof.
  pose proof size_modulus_pos as Hpos.
  exists (from_to 0 (Z.to_nat (size_modulus - 0 + 1))).
  split; [apply WideRange_drains; lia|].
  assert (Hne : from_to 0 (Z.to_nat (size_modulus - 0 + 1)) =
                0 :: from_to (0 + 1) (Z.to_nat size_modulus)).
  { replace (Z.to_nat (size_modulus - 0 + 1)) with (S (Z.to_nat size_modulus)) by lia.
    apply from_to_succ. }
  split; [rewrite from_to_length; lia|]. rewrite Hne. split.
  - eexists. eexists. split; [apply long_range_first_call | apply long_range_second_call].
  - cbn [firstn]. intros Hd. apply drains_cons in Hd.
    destruct Hd as (t1 & Hr & Hex).
    destruct (returns_det Hr long_range_first_call) as [_ ->].
    apply drains_returns_None in Hex. destruct Hex as (t2 & Hnone & _).
    destruct (returns_det Hnone long_range_second_call) as [E _]. discriminate.
Qed.


(** ** Materialization *)

Section CollectFacts.

Context {I Item : Type} `{Iterator I Item}.

Lemma Enumerate_returns_item (inner inner' : I) (index : Z) (x : Item) :
  0 <= index < size_modulus ->
  returns inner (Some x) inner' ->
  returns (mkEnumerate inner index) (Some (index, x))
          (mkEnumerate inner' (wrap (index + 1))).
Proof.
  intros Hi [f0 Hf]. exists f0. intros fuel Hle.
  change (next fuel ?it) with (Enumerate_next fuel it).
  unfold Enumerate_next, bind. cbn [Enumerate_inner Enumerate_index].
  rewrite (Hf fuel Hle). now rewrite wrap_succ_pred.
Qed.

Lemma Enumerate_returns_end (inner inner' : I) (index : Z) :
  returns inner None inner' ->
  returns (mkEnumerate inner index) None (mkEnumerate inner' index).
Proof.
  intros [f0 Hf]. exists f0. intros fuel Hle.
  change (next fuel ?it) with (Enumerate_next fuel it).
  unfold Enumerate_next, bind. cbn [Enumerate_inner Enumerate_index].
  now rewrite (Hf fuel Hle).
Qed.

Lemma Enumerate_Exhausted (inner : I) (index : Z) :
  Exhausted inner -> Exhausted (mkEnumerate inner index).
Proof.
  intros Hex.
  apply (Exhausted_invariant
           (fun e : Enumerate I => Exhausted (Enumerate_inner e))); [|exact Hex].
  intros [i n] Hi. simpl in *.
  destruct (Exhausted_inv Hi) as (i' & Hr & Hi').
  exists (mkEnumerate i' n). split; [|exact Hi'].
  now apply Enumerate_returns_end.
Qed.

(** [Enumerate] pairs the items of a finite iterator with consecutive
    indices. *)
Lemma Enumerate_drains (l : list Item) :
  forall (inner : I) (index : Z),
  0 <= index < size_modulus ->
  drains inner l ->
  drains (mkEnumerate inner index) (indexed index l).
Proof.
  induction l as [|x l IH]; intros inner index Hi Hd.
  - apply drains_nil_Exhausted, Enumerate_Exhausted. now apply drains_nil_Exhausted.
  - apply drains_cons in Hd. destruct Hd as (inner' & Hr & Hd).
    cbn [indexed]. apply drains_cons.
    exists (mkEnumerate inner' (wrap (index + 1))). split.
    + now apply Enumerate_returns_item.
    + apply IH; [apply wrap_range | exact Hd].
Qed.

Lemma store_middle (pre : list Item) (r x : Item) (rest : list Item) :
  store (pre ++ r :: rest) (List.length pre) x = pre ++ x :: rest.
Proof. induction pre as [|y pre IH]; simpl; [reflexivity | now rewrite IH]. Qed.

(** The filling loop writes the items into their slots, one after the
    other. *)
Lemma fill_slots (l : list Item) :
  forall (pre rest : list Item),
  List.length rest = List.length l ->
  Z.of_nat (List.length pre) + Z.of_nat (List.length l) < size_modulus ->
  fold_flow fill_slot (mkArray (pre ++ rest)) (indexed (Z.of_nat (List.length pre)) l)
  = Continue (mkArray (pre ++ l)).
Proof.
  induction l as [|x l IH]; intros pre rest Hlen Hsum.
  - destruct rest; [reflexivity | discriminate].
  - destruct rest as [|r rest]; [discriminate|].
    cbn [indexed fold_flow fill_slot]. unfold Array_set, len.
    cbn [Array_data List.length] in *. rewrite length_app. cbn [List.length].
    destruct (Z.leb_spec 0 (Z.of_nat (List.length pre))) as [_|]; [|lia].
    destruct (Z.ltb_spec (Z.of_nat (List.length pre))
                (Z.of_nat (List.length pre + S (List.length rest)))) as [_|]; [|lia].
    cbn [andb]. rewrite Nat2Z.id, store_middle.
    rewrite wrap_small by lia.
    replace (Z.of_nat (List.length pre) + 1)
      with (Z.of_nat (List.length (pre ++ [x]))) by (rewrite length_app; simpl; lia).
    replace (pre ++ x :: rest) with ((pre ++ [x]) ++ rest) by now rewrite <- app_assoc.
    rewrite IH.
    + now rewrite <- app_assoc.
    + lia.
    + rewrite length_app. simpl. lia.
Qed.

(** Materializing a finite iterator of fewer than [size_modulus] items
    gives an array holding its items in order, when the free store gives an
    array for them; the exception of the allocation leaves [from_iterator]
    when it does not. *)
Lemma from_iterator_drains (can_allocate : Z -> bool) (fresh : Item) (it : I)
    (l : list Item) :
  drains it l ->
  Z.of_nat (List.length l) < size_modulus ->
  exists f0, forall fuel, (f0 <= fuel)%nat ->
    count fuel (clone it) = Done (Z.of_nat (List.length l)) /\
    from_iterator can_allocate fresh fuel it
    = if can_allocate (Z.of_nat (List.length l)) then Done (mkArray l) else Thrown.
Proof.
  intros Hd Hlen.
  destruct (count_drains Hd) as [f1 H1].
  assert (He : drains (enumerate it) (indexed 0 l)).
  { apply Enumerate_drains; [|exact Hd]. pose proof size_modulus_pos. lia. }
  destruct (foreach_drains (R := Empty_set) fill_slot
              (mkArray (List.repeat fresh (List.length l))) He) as [f2 H2].
  exists (Nat.max f1 f2). intros fuel Hle.
  assert (Hc : count fuel (clone it) = Done (Z.of_nat (List.length l))).
  { unfold clone. rewrite (H1 fuel) by lia. now rewrite wrap_small by lia. }
  split; [exact Hc|].
  unfold from_iterator. rewrite Hc. unfold Array_new.
  destruct (can_allocate (Z.of_nat (List.length l))); [|reflexivity].
  rewrite Nat2Z.id. rewrite (H2 fuel) by lia.
  pose proof (fill_slots l [] (List.repeat fresh (List.length l))
                (repeat_length fresh (List.length l))) as Hfill.
  cbn [List.app List.length Z.of_nat] in Hfill.
  rewrite Hfill by lia. reflexivity.
Qed.

End CollectFacts.

(** C3, as the code has it: [from_iterator] counts a clone of the iterator,
    allocates that many slots and walks the iterator under [Enumerate],
    writing each item into the slot of its index.  For a finite iterator
    of fewer than [size_modulus] remaining items the count is their number.
    When the free store gives an array of that size, [from_iterator]
    returns an array that holds the items in order, and so does [collect]
    on an iterator that yields values; iterating that array yields the same
    items in the same order.  When the allocation fails its exception
    leaves [from_iterator] and [collect]. *)
Theorem C3_collect_round_trip
    {I Item : Type} `{Iterator I Item} (can_allocate : Z -> bool) (fresh : Item)
    (it : I) (l : list Item) :
  drains it l ->
  Z.of_nat (List.length l) < size_modulus ->
  drains (enumerate it) (indexed 0 l) /\
  (exists f0, forall fuel, (f0 <= fuel)%nat ->
     count fuel (clone it) = Done (Z.of_nat (List.length l)) /\
     (can_allocate (Z.of_nat (List.length l)) = true ->
      from_iterator can_allocate fresh fuel it = Done (mkArray l) /\
      forall V : YieldsValues I,
        collect (V := V) can_allocate fresh fuel it = Done (mkArray l)) /\
     (can_allocate (Z.of_nat (List.length l)) = false ->
      from_iterator can_allocate fresh fuel it = Thrown /\
      forall V : YieldsValues I,
        collect (V := V) can_allocate fresh fuel it = Thrown)) /\
  len (mkArray l) = Z.of_nat (List.length l) /\
  drains (Array_iter (mkArray l)) l.
Proof.
  intros Hd Hlen. split; [|split; [|split]].
  - apply Enumerate_drains; [|exact Hd]. pose proof size_modulus_pos. lia.
  - destruct (from_iterator_drains can_allocate fresh Hd Hlen) as [f0 Hf].
    exists f0. intros fuel Hle. destruct (Hf fuel Hle) as [Hc Hfrom].
    split; [exact Hc|]. unfold collect.
    split; intros Ha; rewrite Ha in Hfrom; (split; [exact Hfrom | intros _; exact Hfrom]).
  - reflexivity.
  - apply (Array_iter_drains (mkArray l)). exact Hlen.
Qed.

Lemma C3_collect_witness :
  exists f0, forall fuel, (f0 <= fuel)%nat ->
    collect free_store 0 fuel (Range_iter (mkRange 1 4)) = Done (mkArray [1; 2; 3; 4]) /\
    collect (fun _ => false) 0 fuel (Range_iter (mkRange 1 4)) = Thrown.
Proof.
  assert (Hd : drains (Range_iter (mkRange 1 4)) [1; 2; 3; 4])
    by (apply (@WideRange_drains 1 4); lia).
  assert (Hlen : Z.of_nat (List.length [1; 2; 3; 4]) < size_modulus)
    by (rewrite size_modulus_eq; simpl; lia).
  destruct (C3_collect_round_trip free_store 0 Hd Hlen) as (_ & [f1 Hf1] & _).
  destruct (C3_collect_round_trip (fun _ => false) 0 Hd Hlen) as (_ & [f2 Hf2] & _).
  exists (Nat.max f1 f2). intros fuel Hle. split.
  - destruct (Hf1 fuel) as (_ & Hgiven & _); [lia|].
    destruct Hgiven as [_ Hcollect]; [reflexivity|]. apply Hcollect.
  - destruct (Hf2 fuel) as (_ & _ & Hfailed); [lia|].
    destruct Hfailed as [_ Hcollect]; [reflexivity|]. apply Hcollect.
Defined.

(** C3 as stated fails on a finite iterator of [size_modulus] items or
    more: over the wide range [0 .. size_modulus - 1] the count comes round
    to 0, an array of no slot is allocated, and the first write is past the
    end of the array. *)
Lemma C3_counterexample :
  exists l,
    drains full_range l /\
    Z.of_nat (List.length l) = size_modulus /\
    exists f0, forall fuel, (f0 <= fuel)%nat ->
      count fuel (clone full_range) = Done 0 /\
      from_iterator free_store 0 fuel full_range = Undefined /\
      collect free_store 0 fuel full_range = Undefined.
Proof.
  pose proof size_modulus_pos as Hpos.
  assert (Hm : exists m, Z.of_nat (S m) = size_modulus)
    by (exists (Z.to_nat (size_modulus - 1)); lia).
  destruct Hm as [m Hm].
  assert (Hd : drains full_range (from_to 0 (S m))).
  { pose proof (@WideRange_drains 0 (size_modulus - 1)) as Hw.
    replace (Z.to_nat (size_modulus - 1 - 0 + 1)) with (S m) in Hw by lia.
    apply Hw. lia. }
  exists (from_to 0 (S m)). split; [exact Hd|].
  split; [now rewrite from_to_length|].
  destruct (count_drains Hd) as [f1 H1].
  assert (He : drains (enumerate full_range) (indexed 0 (from_to 0 (S m)))).
  { apply Enumerate_drains; [lia | exact Hd]. }
  destruct (foreach_drains (R := Empty_set) fill_slot (mkArray (@nil Z)) He) as [f2 H2].
  exists (Nat.max f1 f2). intros fuel Hle.
  assert (Hc : count fuel (clone full_range) = Done 0).
  { unfold clone. rewrite (H1 fuel) by lia. rewrite from_to_length, Hm.
    now rewrite wrap_modulus. }
  split; [exact Hc|].
  assert (Hfrom : from_iterator free_store 0 fuel full_range = Undefined).
  { unfold from_iterator. rewrite Hc.
    change (Array_new free_store 0 0) with (Some (mkArray (@nil Z))).
    cbv beta iota. rewrite (H2 fuel) by lia. rewrite from_to_succ. reflexivity. }
  split; [exact Hfrom | exact Hfrom].
Qed.

(** ** No resurrection *)

Ltac split_next E :=
  repeat match type of E with
         | context [match next ?fuel ?it with _ => _ end] =>
             let Eq := fresh "Enext" in
             destruct (next fuel it) as [[[?|] ?]|] eqn:Eq; try discriminate E
         | context [if ?c then _ else _] =>
             let Eq := fresh "Econd" in
             destruct c eqn:Eq; try discriminate E
         end.

Ltac close_next E := inversion E; subst; clear E.

Section SinglePassFacts.

Context {T Item : Type} `{Iterator T Item}.

(** A property of the state that every call keeps, and under which a call
    that returns exhaustion leaves the iterator exhausted, makes the
    iterator single pass. *)
Lemma SinglePass_invariant (P : T -> Prop) :
  (forall fuel t v t', P t -> next fuel t = Some (v, t') -> P t') ->
  (forall fuel t t', P t -> next fuel t = Some (None, t') -> Exhausted t') ->
  forall t, P t -> SinglePass t.
Proof.
  intros Hkeep Hend t HP t' Hreach.
  assert (HP' : P t').
  { clear Hend. induction Hreach as [|a fuel v a1 b Hn _ IH]; [assumption|].
    apply IH. exact (Hkeep fuel a v a1 HP Hn). }
  intros fuel t'' Hn. exact (Hend fuel t' t'' HP' Hn).
Qed.

End SinglePassFacts.

Lemma ArrayIterator_SinglePass {T : Type} (a : Array T) (cursor : Z) :
  0 <= cursor -> len a < size_modulus -> SinglePass (mkArrayIterator a cursor).
Proof.
  intros Hc Hlen.
  apply (SinglePass_invariant
           (fun it : ArrayIterator T =>
              ArrayIterator_cont it = a /\ 0 <= ArrayIterator_cursor it));
    [| |now split].
  - intros fuel [a' c] v t' [Ea Hc'] E. simpl in *. subst a'.
    change (next fuel ?it) with (ArrayIterator_next fuel it) in E.
    unfold ArrayIterator_next in E. simpl in E.
    destruct (Z.ltb_spec c (len a)); close_next E; simpl.
    + split; [reflexivity|]. apply wrap_range.
    + now split.
  - intros fuel [a' c] t' [Ea Hc'] E. simpl in *. subst a'.
    change (next fuel ?it) with (ArrayIterator_next fuel it) in E.
    unfold ArrayIterator_next in E. simpl in E.
    destruct (Z.ltb_spec c (len a)) as [Hlt|Hge].
    + exfalso. inversion E as [[En Et]]. apply nth_error_None in En.
      rewrite wrap_succ_pred in En by lia. unfold len in Hlt. lia.
    + close_next E.
      apply (Exhausted_invariant
               (fun it : ArrayIterator T =>
                  ArrayIterator_cont it = a /\ len a <= ArrayIterator_cursor it));
        [|now split].
      intros [a' c'] [Ea' Hc'']. simpl in *. subst a'.
      exists (mkArrayIterator a c'). split; [|now split].
      exists O. intros fuel' _.
      change (next fuel' ?it) with (ArrayIterator_next fuel' it).
      unfold ArrayIterator_next. simpl.
      destruct (Z.ltb_spec c' (len a)); [lia | reflexivity].
Qed.

Section UnaryNoResurrection.

Context {I Item : Type} `{Iterator I Item}.

(** *** StepBy *)

Lemma StepBy_body_Reach (fuel : nat) (step : Z) (origin : I) (s : Z * I)
    (r : (Z * I) + (Z * I)) :
  Reach origin (snd s) -> StepBy_body fuel step s = Some r ->
  Reach origin (snd (loop_state r)).
Proof.
  destruct s as [i inner]. unfold StepBy_body, bind. intros Hr E. simpl in Hr.
  split_next E; close_next E; simpl; try assumption;
    (eapply Reach_trans; [exact Hr | eapply Reach_one; eassumption]).
Qed.

Lemma StepBy_next_inv (fuel : nat) (t : StepBy I) (v : option Item) (t' : StepBy I) :
  next fuel t = Some (v, t') ->
  Reach (StepBy_inner t) (StepBy_inner t') /\
  StepBy_step t' = StepBy_step t /\
  (v = None -> next fuel (StepBy_inner t) = Some (None, StepBy_inner t')).
Proof.
  change (next fuel t) with (StepBy_next fuel t). unfold StepBy_next, bind.
  intros E. destruct (next fuel (StepBy_inner t)) as [[[x|] inner1]|] eqn:E1;
    try discriminate E.
  - destruct (bounded_loop loop_budget (StepBy_body fuel (StepBy_step t)) (1, inner1))
      as [r|] eqn:El; try discriminate E.
    close_next E. simpl. split; [|split; [reflexivity | discriminate]].
    eapply Reach_trans; [eapply Reach_one; exact E1|].
    eapply (@bounded_loop_invariant _ (StepBy_body fuel (StepBy_step t))
              (fun s => Reach inner1 (snd s))); [| |exact El];
      [intros s r0; apply StepBy_body_Reach | constructor].
  - close_next E. simpl. split; [eapply Reach_one; exact E1|].
    split; [reflexivity|]. reflexivity.
Qed.

Lemma StepBy_SinglePass (t : StepBy I) :
  SinglePass (StepBy_inner t) -> SinglePass t.
Proof.
  apply (SinglePass_invariant (fun t : StepBy I => SinglePass (StepBy_inner t))).
  - intros fuel a v b Hsp E. apply StepBy_next_inv in E. destruct E as (Hr & _ & _).
    eapply SinglePass_Reach; eassumption.
  - intros fuel a b Hsp E. apply StepBy_next_inv in E. destruct E as (_ & _ & Hn).
    destruct b as [inner' step]. apply StepBy_Exhausted.
    eapply Exhausted_SinglePass_step; [exact Hsp | exact (Hn eq_refl)].
Qed.

(** *** Enumerate *)

Lemma Enumerate_next_inv (fuel : nat) (t : Enumerate I) (v : option (Z * Item))
    (t' : Enumerate I) :
  next fuel t = Some (v, t') ->
  Reach (Enumerate_inner t) (Enumerate_inner t') /\
  (v = None -> next fuel (Enumerate_inner t) = Some (None, Enumerate_inner t')).
Proof.
  change (next fuel t) with (Enumerate_next fuel t). unfold Enumerate_next, bind.
  intros E. split_next E; close_next E; simpl.
  - split; [eapply Reach_one; eassumption | discriminate].
  - split; [eapply Reach_one; eassumption | auto].
Qed.

Lemma Enumerate_SinglePass (t : Enumerate I) :
  SinglePass (Enumerate_inner t) -> SinglePass t.
Proof.
  apply (SinglePass_invariant (fun t : Enumerate I => SinglePass (Enumerate_inner t))).
  - intros fuel a v b Hsp E. apply Enumerate_next_inv in E. destruct E as (Hr & _).
    eapply SinglePass_Reach; eassumption.
  - intros fuel a b Hsp E. apply Enumerate_next_inv in E. destruct E as (_ & Hn).
    destruct b as [inner' index]. apply Enumerate_Exhausted.
    eapply Exhausted_SinglePass_step; [exact Hsp | exact (Hn eq_refl)].
Qed.

(** *** Take *)

Lemma Take_next_inv (fuel : nat) (t : Take I) (v : option Item) (t' : Take I) :
  next fuel t = Some (v, t') ->
  (Take_num t = 0 /\ v = None /\ t' = t) \/
  (Take_num t <> 0 /\ next fuel (Take_inner t) = Some (v, Take_inner t')).
Proof.
  change (next fuel t) with (Take_next fuel t). unfold Take_next, bind.
  intros E. destruct (Z.eqb_spec (Take_num t) 0) as [Ez|Ez]; simpl in E.
  - close_next E. now left.
  - right. split; [assumption|]. split_next E; close_next E; reflexivity.
Qed.

Lemma Take_Exhausted (inner : I) (num : Z) :
  Exhausted inner -> Exhausted (mkTake inner num).
Proof.
  intros Hex.
  apply (Exhausted_invariant (fun t : Take I => Exhausted (Take_inner t)));
    [|exact Hex].
  intros [i n] Hi. simpl in *.
  destruct (Z.eq_dec n 0) as [->|Hn].
  - exists (mkTake i 0). split; [|exact Hi].
    exists O. intros fuel _. now apply Take_next_zero.
  - destruct (Exhausted_inv Hi) as (i' & [f0 Hf] & Hi').
    exists (mkTake i' (wrap (n - 1))). split; [|exact Hi'].
    exists f0. intros fuel Hle.
    change (next fuel ?it) with (Take_next fuel it). unfold Take_next, bind.
    simpl. destruct (Z.eqb_spec n 0); [contradiction|]. simpl.
    now rewrite (Hf fuel Hle).
Qed.

Lemma Take_SinglePass (t : Take I) : SinglePass (Take_inner t) -> SinglePass t.
Proof.
  apply (SinglePass_invariant (fun t : Take I => SinglePass (Take_inner t))).
  - intros fuel a v b Hsp E. apply Take_next_inv in E. destruct E as [(_ & _ & ->)|(_ & Hn)].
    + exact Hsp.
    + eapply SinglePass_Reach; [exact Hsp | eapply Reach_one; exact Hn].
  - intros fuel a b Hsp E. apply Take_next_inv in E. destruct E as [(Hz & _ & ->)|(_ & Hn)].
    + now apply Take_zero_Exhausted.
    + destruct b as [inner' num]. apply Take_Exhausted.
      eapply Exhausted_SinglePass_step; [exact Hsp | exact Hn].
Qed.

(** *** TakeWhile *)

Lemma TakeWhile_stopped_Exhausted (t : TakeWhile I Item) :
  TakeWhile_stopped_taking t = true -> Exhausted t.
Proof.
  apply (Exhausted_invariant
           (fun t : TakeWhile I Item => TakeWhile_stopped_taking t = true)).
  intros a Ha. exists a. split; [|exact Ha].
  exists O. intros fuel _.
  change (next fuel a) with (TakeWhile_next fuel a). unfold TakeWhile_next.
  now rewrite Ha.
Qed.

Lemma TakeWhile_next_inv (fuel : nat) (t : TakeWhile I Item) (v : option Item)
    (t' : TakeWhile I Item) :
  next fuel t = Some (v, t') ->
  Reach (TakeWhile_inner t) (TakeWhile_inner t') /\
  (v = None -> TakeWhile_stopped_taking t' = true).
Proof.
  change (next fuel t) with (TakeWhile_next fuel t). unfold TakeWhile_next, bind.
  intros E. destruct (TakeWhile_stopped_taking t) eqn:Es; simpl in E.
  - close_next E. split; [constructor | auto].
  - split_next E; close_next E; simpl;
      (split; [eapply Reach_one; eassumption | auto; discriminate]).
Qed.

Lemma TakeWhile_SinglePass (t : TakeWhile I Item) :
  SinglePass (TakeWhile_inner t) -> SinglePass t.
Proof.
  apply (SinglePass_invariant
           (fun t : TakeWhile I Item => SinglePass (TakeWhile_inner t))).
  - intros fuel a v b Hsp E. apply TakeWhile_next_inv in E. destruct E as (Hr & _).
    eapply SinglePass_Reach; eassumption.
  - intros fuel a b Hsp E. apply TakeWhile_next_inv in E. destruct E as (_ & Hs).
    apply TakeWhile_stopped_Exhausted. now apply Hs.
Qed.

End UnaryNoResurrection.

Section LoopingNoResurrection.

Context {I Item : Type} `{Iterator I Item}.

(** *** Skip *)

Lemma Skip_body_Reach (fuel : nat) (skip : Z) (origin : I) (s : Z * I)
    (r : (Z * I) + (Z * I)) :
  Reach origin (snd s) -> Skip_body fuel skip s = Some r ->
  Reach origin (snd (loop_state r)).
Proof.
  destruct s as [i inner]. unfold Skip_body, bind. intros Hr E. simpl in Hr.
  destruct (i =? skip).
  - close_next E. exact Hr.
  - destruct (next fuel inner) as [[w inner']|] eqn:Enext; try discriminate E.
    close_next E. simpl.
    eapply Reach_trans; [exact Hr | eapply Reach_one; exact Enext].
Qed.

Lemma Skip_next_inv (fuel : nat) (t : Skip I) (v : option Item) (t' : Skip I) :
  next fuel t = Some (v, t') ->
  Reach (Skip_inner t) (Skip_inner t') /\
  Skip_skip t' = 0 /\
  (v = None ->
   exists s, Reach (Skip_inner t) s /\ next fuel s = Some (None, Skip_inner t')).
Proof.
  change (next fuel t) with (Skip_next fuel t). unfold Skip_next, bind.
  intros E. destruct (Z.eqb_spec (Skip_skip t) 0) as [Ez|Ez].
  - destruct (next fuel (Skip_inner t)) as [[w inner']|] eqn:Enext; try discriminate E.
    close_next E. simpl. split; [eapply Reach_one; exact Enext|].
    split; [exact Ez|]. intros ->. exists (Skip_inner t). split; [constructor | exact Enext].
  - destruct (bounded_loop loop_budget (Skip_body fuel (Skip_skip t)) (0, Skip_inner t))
      as [r|] eqn:El; try discriminate E.
    assert (Hr : Reach (Skip_inner t) (snd (loop_state r))).
    { eapply (@bounded_loop_invariant _ (Skip_body fuel (Skip_skip t))
                (fun s => Reach (Skip_inner t) (snd s))); [| |exact El];
        [intros s r0; apply Skip_body_Reach | constructor]. }
    destruct (next fuel (snd (loop_state r))) as [[w inner']|] eqn:Enext;
      try discriminate E.
    close_next E. simpl. split; [|split; [reflexivity|]].
    + eapply Reach_trans; [exact Hr | eapply Reach_one; exact Enext].
    + intros ->. exists (snd (loop_state r)). split; [exact Hr | exact Enext].
Qed.

Lemma Skip_Exhausted (inner : I) : Exhausted inner -> Exhausted (mkSkip inner 0).
Proof.
  intros Hex.
  apply (Exhausted_invariant
           (fun t : Skip I => Skip_skip t = 0 /\ Exhausted (Skip_inner t)));
    [|now split].
  intros [i n] [En Hi]. simpl in *. subst n.
  destruct (Exhausted_inv Hi) as (i' & [f0 Hf] & Hi').
  exists (mkSkip i' 0). split; [|now split].
  exists f0. intros fuel Hle.
  change (next fuel ?it) with (Skip_next fuel it). unfold Skip_next, bind.
  simpl. now rewrite (Hf fuel Hle).
Qed.

Lemma Skip_SinglePass (t : Skip I) : SinglePass (Skip_inner t) -> SinglePass t.
Proof.
  apply (SinglePass_invariant (fun t : Skip I => SinglePass (Skip_inner t))).
  - intros fuel a v b Hsp E. apply Skip_next_inv in E. destruct E as (Hr & _).
    eapply SinglePass_Reach; eassumption.
  - intros fuel a b Hsp E. apply Skip_next_inv in E. destruct E as (_ & Hz & Hn).
    destruct (Hn eq_refl) as (s & Hs & Hnone).
    destruct b as [inner' skip']. simpl in *. subst skip'.
    apply Skip_Exhausted. exact (Hsp s Hs fuel inner' Hnone).
Qed.

(** *** SkipWhile *)

Lemma SkipWhile_loop_inv (fuel : nat) (p : Item -> bool) (n : nat) :
  forall (inner : I) (v : option Item) (inner' : I),
  SkipWhile_loop n fuel p inner = Some (v, inner') ->
  Reach inner inner' /\
  (v = None -> exists s, Reach inner s /\ next fuel s = Some (None, inner')).
Proof.
  induction n as [|n IH]; intros inner v inner' E; [discriminate|].
  cbn [SkipWhile_loop] in E. unfold bind in E.
  destruct (next fuel inner) as [[[x|] i1]|] eqn:Enext; try discriminate E.
  - destruct (p x).
    + destruct (IH i1 v inner' E) as (Hr & Hn).
      split; [eapply Reach_trans; [eapply Reach_one; exact Enext | exact Hr]|].
      intros Hv. destruct (Hn Hv) as (s & Hs & Hnone). exists s.
      split; [eapply Reach_trans; [eapply Reach_one; exact Enext | exact Hs] | exact Hnone].
    + close_next E. split; [eapply Reach_one; exact Enext | discriminate].
  - close_next E. split; [eapply Reach_one; exact Enext|].
    intros _. exists inner. split; [constructor | exact Enext].
Qed.

Lemma SkipWhile_next_inv (fuel : nat) (t : SkipWhile I Item) (v : option Item)
    (t' : SkipWhile I Item) :
  next fuel t = Some (v, t') ->
  Reach (SkipWhile_inner t) (SkipWhile_inner t') /\
  SkipWhile_skipped t' = true /\
  (v = None ->
   exists s, Reach (SkipWhile_inner t) s /\
             next fuel s = Some (None, SkipWhile_inner t')).
Proof.
  change (next fuel t) with (SkipWhile_next fuel t). unfold SkipWhile_next, bind.
  intros E. destruct (SkipWhile_skipped t).
  - destruct (next fuel (SkipWhile_inner t)) as [[w inner']|] eqn:Enext;
      try discriminate E.
    close_next E. simpl. split; [eapply Reach_one; exact Enext|].
    split; [reflexivity|]. intros ->.
    exists (SkipWhile_inner t). split; [constructor | exact Enext].
  - destruct (SkipWhile_loop fuel fuel (SkipWhile_predicate t) (SkipWhile_inner t))
      as [[w inner']|] eqn:El; try discriminate E.
    close_next E. simpl. apply SkipWhile_loop_inv in El.
    destruct El as (Hr & Hn). split; [exact Hr | split; [reflexivity | exact Hn]].
Qed.

Lemma SkipWhile_Exhausted (inner : I) (p : Item -> bool) :
  Exhausted inner -> Exhausted (mkSkipWhile inner p true).
Proof.
  intros Hex.
  apply (Exhausted_invariant
           (fun t : SkipWhile I Item =>
              SkipWhile_skipped t = true /\ SkipWhile_predicate t = p /\
              Exhausted (SkipWhile_inner t))); [|now repeat split].
  intros [i q b] (Eb & Eq & Hi). simpl in *. subst b q.
  destruct (Exhausted_inv Hi) as (i' & [f0 Hf] & Hi').
  exists (mkSkipWhile i' p true). split; [|now repeat split].
  exists f0. intros fuel Hle. rewrite SkipWhile_next_skipped.
  now rewrite (Hf fuel Hle).
Qed.

Lemma SkipWhile_SinglePass (t : SkipWhile I Item) :
  SinglePass (SkipWhile_inner t) -> SinglePass t.
Proof.
  apply (SinglePass_invariant
           (fun t : SkipWhile I Item => SinglePass (SkipWhile_inner t))).
  - intros fuel a v b Hsp E. apply SkipWhile_next_inv in E. destruct E as (Hr & _).
    eapply SinglePass_Reach; eassumption.
  - intros fuel a b Hsp E. apply SkipWhile_next_inv in E.
    destruct E as (_ & Hs & Hn). destruct (Hn eq_refl) as (s & Hreach & Hnone).
    destruct b as [inner' q flag]. simpl in *. subst flag.
    apply SkipWhile_Exhausted. exact (Hsp s Hreach fuel inner' Hnone).
Qed.

(** *** Filter *)

Lemma Filter_loop_inv (fuel : nat) (p : Item -> bool) (n : nat) :
  forall (inner : I) (v : option Item) (inner' : I),
  Filter_loop n fuel p inner = Some (v, inner') ->
  Reach inner inner' /\
  (v = None -> exists s, Reach inner s /\ next fuel s = Some (None, inner')).
Proof.
  induction n as [|n IH]; intros inner v inner' E; [discriminate|].
  cbn [Filter_loop] in E. unfold bind in E.
  destruct (next fuel inner) as [[[x|] i1]|] eqn:Enext; try discriminate E.
  - destruct (negb (p x)).
    + destruct (IH i1 v inner' E) as (Hr & Hn).
      split; [eapply Reach_trans; [eapply Reach_one; exact Enext | exact Hr]|].
      intros Hv. destruct (Hn Hv) as (s & Hs & Hnone). exists s.
      split; [eapply Reach_trans; [eapply Reach_one; exact Enext | exact Hs] | exact Hnone].
    + close_next E. split; [eapply Reach_one; exact Enext | discriminate].
  - close_next E. split; [eapply Reach_one; exact Enext|].
    intros _. exists inner. split; [constructor | exact Enext].
Qed.

Lemma Filter_next_inv (fuel : nat) (t : Filter I Item) (v : option Item)
    (t' : Filter I Item) :
  next fuel t = Some (v, t') ->
  Reach (Filter_inner t) (Filter_inner t') /\
  (v = None ->
   exists s, Reach (Filter_inner t) s /\ next fuel s = Some (None, Filter_inner t')).
Proof.
  change (next fuel t) with (Filter_next fuel t). unfold Filter_next, bind.
  intros E.
  destruct (Filter_loop fuel fuel (Filter_predicate t) (Filter_inner t))
    as [[w inner']|] eqn:El; try discriminate E.
  close_next E. simpl. now apply Filter_loop_inv in El.
Qed.

Lemma Filter_Exhausted (inner : I) (p : Item -> bool) :
  Exhausted inner -> Exhausted (mkFilter inner p).
Proof.
  intros Hex.
  apply (Exhausted_invariant
           (fun t : Filter I Item =>
              Filter_predicate t = p /\ Exhausted (Filter_inner t))); [|now split].
  intros [i q] (Eq & Hi). simpl in *. subst q.
  destruct (Exhausted_inv Hi) as (i' & [f0 Hf] & Hi').
  exists (mkFilter i' p). split; [|now split].
  exists (S f0). intros fuel Hle.
  change (next fuel ?it) with (Filter_next fuel it). unfold Filter_next, bind.
  simpl. destruct fuel as [|fuel]; [lia|]. cbn [Filter_loop]. unfold bind.
  rewrite (Hf (S fuel)) by lia. reflexivity.
Qed.

Lemma Filter_SinglePass (t : Filter I Item) :
  SinglePass (Filter_inner t) -> SinglePass t.
Proof.
  apply (SinglePass_invariant (fun t : Filter I Item => SinglePass (Filter_inner t))).
  - intros fuel a v b Hsp E. apply Filter_next_inv in E. destruct E as (Hr & _).
    eapply SinglePass_Reach; eassumption.
  - intros fuel a b Hsp E. apply Filter_next_inv in E.
    destruct E as (_ & Hn). destruct (Hn eq_refl) as (s & Hreach & Hnone).
    destruct b as [inner' q]. simpl in *.
    apply Filter_Exhausted. exact (Hsp s Hreach fuel inner' Hnone).
Qed.

End LoopingNoResurrection.

Section UniqueNoResurrection.

Context {I Item : Type} `{Iterator I Item}.

(** *** Unique *)

Lemma Unique_loop_inv `{Hashable Item} (fuel : nat) (seen : set Item) (n : nat) :
  forall (inner : I) (v : option Item) (inner' : I),
  Unique_loop n fuel seen inner = Some (v, inner') ->
  Reach inner inner' /\
  (v = None -> exists s, Reach inner s /\ next fuel s = Some (None, inner')).
Proof.
  induction n as [|n IH]; intros inner v inner' E; [discriminate|].
  cbn [Unique_loop] in E. unfold bind in E.
  destruct (next fuel inner) as [[[x|] i1]|] eqn:Enext; try discriminate E.
  - destruct (set_mem equal_to x seen).
    + destruct (IH i1 v inner' E) as (Hr & Hn).
      split; [eapply Reach_trans; [eapply Reach_one; exact Enext | exact Hr]|].
      intros Hv. destruct (Hn Hv) as (s & Hs & Hnone). exists s.
      split; [eapply Reach_trans; [eapply Reach_one; exact Enext | exact Hs] | exact Hnone].
    + close_next E. split; [eapply Reach_one; exact Enext | discriminate].
  - close_next E. split; [eapply Reach_one; exact Enext|].
    intros _. exists inner. split; [constructor | exact Enext].
Qed.

Lemma Unique_next_inv `{Hashable Item} (fuel : nat) (t : Unique I Item)
    (v : option Item) (t' : Unique I Item) :
  next fuel t = Some (v, t') ->
  Reach (Unique_inner t) (Unique_inner t') /\
  (v = None ->
   exists s, Reach (Unique_inner t) s /\ next fuel s = Some (None, Unique_inner t')).
Proof.
  change (next fuel t) with (Unique_next fuel t). unfold Unique_next, bind.
  intros E.
  destruct (Unique_loop fuel fuel (Unique_set t) (Unique_inner t))
    as [[[x|] inner']|] eqn:El; try discriminate E; close_next E; simpl;
    apply Unique_loop_inv in El; destruct El as (Hr & Hn); split; auto; discriminate.
Qed.

Lemma Unique_Exhausted `{Hashable Item} (inner : I) (seen : set Item) :
  Exhausted inner -> Exhausted (mkUnique inner seen).
Proof.
  intros Hex.
  apply (Exhausted_invariant
           (fun t : Unique I Item => Unique_set t = seen /\ Exhausted (Unique_inner t)));
    [|now split].
  intros [i q] (Eq & Hi). simpl in *. subst q.
  destruct (Exhausted_inv Hi) as (i' & [f0 Hf] & Hi').
  exists (mkUnique i' seen). split; [|now split].
  exists (S f0). intros fuel Hle.
  change (next fuel ?it) with (Unique_next fuel it). unfold Unique_next, bind.
  simpl. destruct fuel as [|fuel]; [lia|]. cbn [Unique_loop]. unfold bind.
  rewrite (Hf (S fuel)) by lia. reflexivity.
Qed.

Lemma Unique_SinglePass `{Hashable Item} (t : Unique I Item) :
  SinglePass (Unique_inner t) -> SinglePass t.
Proof.
  apply (SinglePass_invariant (fun t : Unique I Item => SinglePass (Unique_inner t))).
  - intros fuel a v b Hsp E. apply Unique_next_inv in E. destruct E as (Hr & _).
    eapply SinglePass_Reach; eassumption.
  - intros fuel a b Hsp E. apply Unique_next_inv in E.
    destruct E as (_ & Hn). destruct (Hn eq_refl) as (s & Hreach & Hnone).
    destruct b as [inner' q]. simpl in *.
    apply Unique_Exhausted. exact (Hsp s Hreach fuel inner' Hnone).
Qed.

(** *** UniqueBy *)

Lemma UniqueBy_loop_inv {Key : Type} `{Hashable Key} (fuel : nat)
    (func : Item -> Key) (seen : set Key) (n : nat) :
  forall (inner : I) (v : option Item) (inner' : I),
  UniqueBy_loop n fuel func seen inner = Some (v, inner') ->
  Reach inner inner' /\
  (v = None -> exists s, Reach inner s /\ next fuel s = Some (None, inner')).
Proof.
  induction n as [|n IH]; intros inner v inner' E; [discriminate|].
  cbn [UniqueBy_loop] in E. unfold bind in E.
  destruct (next fuel inner) as [[[x|] i1]|] eqn:Enext; try discriminate E.
  - destruct (set_mem equal_to (func x) seen).
    + destruct (IH i1 v inner' E) as (Hr & Hn).
      split; [eapply Reach_trans; [eapply Reach_one; exact Enext | exact Hr]|].
      intros Hv. destruct (Hn Hv) as (s & Hs & Hnone). exists s.
      split; [eapply Reach_trans; [eapply Reach_one; exact Enext | exact Hs] | exact Hnone].
    + close_next E. split; [eapply Reach_one; exact Enext | discriminate].
  - close_next E. split; [eapply Reach_one; exact Enext|].
    intros _. exists inner. split; [constructor | exact Enext].
Qed.

Lemma UniqueBy_next_inv {Key : Type} `{Hashable Key} (fuel : nat)
    (t : UniqueBy I Item Key) (v : option Item) (t' : UniqueBy I Item Key) :
  next fuel t = Some (v, t') ->
  Reach (UniqueBy_inner t) (UniqueBy_inner t') /\
  (v = None ->
   exists s, Reach (UniqueBy_inner t) s /\
             next fuel s = Some (None, UniqueBy_inner t')).
Proof.
  change (next fuel t) with (UniqueBy_next fuel t). unfold UniqueBy_next, bind.
  intros E.
  destruct (UniqueBy_loop fuel fuel (UniqueBy_func t) (UniqueBy_set t) (UniqueBy_inner t))
    as [[[x|] inner']|] eqn:El; try discriminate E; close_next E; simpl;
    apply UniqueBy_loop_inv in El; destruct El as (Hr & Hn); split; auto; discriminate.
Qed.

Lemma UniqueBy_Exhausted {Key : Type} `{Hashable Key} (inner : I) (seen : set Key)
    (func : Item -> Key) :
  Exhausted inner -> Exhausted (mkUniqueBy inner seen func).
Proof.
  intros Hex.
  apply (Exhausted_invariant
           (fun t : UniqueBy I Item Key =>
              UniqueBy_set t = seen /\ UniqueBy_func t = func /\
              Exhausted (UniqueBy_inner t))); [|now repeat split].
  intros [i q g] (Eq & Eg & Hi). simpl in *. subst q g.
  destruct (Exhausted_inv Hi) as (i' & [f0 Hf] & Hi').
  exists (mkUniqueBy i' seen func). split; [|now repeat split].
  exists (S f0). intros fuel Hle.
  change (next fuel ?it) with (UniqueBy_next fuel it). unfold UniqueBy_next, bind.
  simpl. destruct fuel as [|fuel]; [lia|]. cbn [UniqueBy_loop]. unfold bind.
  rewrite (Hf (S fuel)) by lia. reflexivity.
Qed.

Lemma UniqueBy_SinglePass {Key : Type} `{Hashable Key} (t : UniqueBy I Item Key) :
  SinglePass (UniqueBy_inner t) -> SinglePass t.
Proof.
  apply (SinglePass_invariant
           (fun t : UniqueBy I Item Key => SinglePass (UniqueBy_inner t))).
  - intros fuel a v b Hsp E. apply UniqueBy_next_inv in E. destruct E as (Hr & _).
    eapply SinglePass_Reach; eassumption.
  - intros fuel a b Hsp E. apply UniqueBy_next_inv in E.
    destruct E as (_ & Hn). destruct (Hn eq_refl) as (s & Hreach & Hnone).
    destruct b as [inner' q g]. simpl in *.
    apply UniqueBy_Exhausted. exact (Hsp s Hreach fuel inner' Hnone).
Qed.

End UniqueNoResurrection.

Section MapNoResurrection.

Context {I A B : Type} `{Iterator I A}.

Lemma Map_next_inv (fuel : nat) (t : Map I A B) (v : option B) (t' : Map I A B) :
  next fuel t = Some (v, t') ->
  Reach (Map_inner t) (Map_inner t') /\
  (v = None -> next fuel (Map_inner t) = Some (None, Map_inner t')).
Proof.
  change (next fuel t) with (Map_next fuel t). unfold Map_next, bind.
  intros E. split_next E; close_next E; simpl.
  - split; [eapply Reach_one; eassumption | discriminate].
  - split; [eapply Reach_one; eassumption | auto].
Qed.

Lemma Map_Exhausted (inner : I) (mapper : A -> B) :
  Exhausted inner -> Exhausted (mkMap inner mapper).
Proof.
  intros Hex.
  apply (Exhausted_invariant
           (fun t : Map I A B => Map_mapper t = mapper /\ Exhausted (Map_inner t)));
    [|now split].
  intros [i g] (Eg & Hi). simpl in *. subst g.
  destruct (Exhausted_inv Hi) as (i' & [f0 Hf] & Hi').
  exists (mkMap i' mapper). split; [|now split].
  exists f0. intros fuel Hle.
  change (next fuel ?it) with (Map_next fuel it). unfold Map_next, bind.
  simpl. now rewrite (Hf fuel Hle).
Qed.

Lemma Map_SinglePass (t : Map I A B) : SinglePass (Map_inner t) -> SinglePass t.
Proof.
  apply (SinglePass_invariant (fun t : Map I A B => SinglePass (Map_inner t))).
  - intros fuel a v b Hsp E. apply Map_next_inv in E. destruct E as (Hr & _).
    eapply SinglePass_Reach; eassumption.
  - intros fuel a b Hsp E. apply Map_next_inv in E. destruct E as (_ & Hn).
    destruct b as [inner' g]. apply Map_Exhausted.
    eapply Exhausted_SinglePass_step; [exact Hsp | exact (Hn eq_refl)].
Qed.

End MapNoResurrection.

Section BinaryNoResurrection.

Context {I1 I2 Item : Type} `{Iterator I1 Item} `{Iterator I2 Item}.

(** *** Chain *)

Lemma Chain_next_inv (fuel : nat) (t : Chain I1 I2) (v : option Item) (t' : Chain I1 I2) :
  next fuel t = Some (v, t') ->
  Reach (Chain_first t) (Chain_first t') /\
  Reach (Chain_second t) (Chain_second t') /\
  (v = None ->
   next fuel (Chain_first t) = Some (None, Chain_first t') /\
   next fuel (Chain_second t) = Some (None, Chain_second t')).
Proof.
  change (next fuel t) with (Chain_next fuel t). unfold Chain_next, bind.
  intros E.
  destruct (next fuel (Chain_first t)) as [[[x|] first']|] eqn:E1; try discriminate E.
  - close_next E. simpl.
    split; [eapply Reach_one; exact E1 | split; [constructor | discriminate]].
  - destruct (next fuel (Chain_second t)) as [[w second']|] eqn:E2; try discriminate E.
    close_next E. simpl.
    split; [eapply Reach_one; exact E1|].
    split; [eapply Reach_one; exact E2|]. intros ->. now split.
Qed.

Lemma Chain_Exhausted (first : I1) (second : I2) :
  Exhausted first -> Exhausted second -> Exhausted (mkChain first second).
Proof.
  intros H1 H2.
  apply (Exhausted_invariant
           (fun t : Chain I1 I2 =>
              Exhausted (Chain_first t) /\ Exhausted (Chain_second t))); [|now split].
  intros [a b] [Ha Hb]. simpl in *.
  destruct (Exhausted_inv Ha) as (a' & [f1 Hf1] & Ha').
  destruct (Exhausted_inv Hb) as (b' & [f2 Hf2] & Hb').
  exists (mkChain a' b'). split; [|now split].
  exists (Nat.max f1 f2). intros fuel Hle.
  change (next fuel ?it) with (Chain_next fuel it). unfold Chain_next, bind.
  simpl. rewrite (Hf1 fuel), (Hf2 fuel) by lia. reflexivity.
Qed.

Lemma Chain_SinglePass (t : Chain I1 I2) :
  SinglePass (Chain_first t) -> SinglePass (Chain_second t) -> SinglePass t.
Proof.
  intros Hs1 Hs2.
  apply (SinglePass_invariant
           (fun t : Chain I1 I2 =>
              SinglePass (Chain_first t) /\ SinglePass (Chain_second t)));
    [| |now split].
  - intros fuel a v b [Ha Hb] E. apply Chain_next_inv in E.
    destruct E as (Hr1 & Hr2 & _).
    split; eapply SinglePass_Reach; eassumption.
  - intros fuel a b [Ha Hb] E. apply Chain_next_inv in E.
    destruct E as (_ & _ & Hn). destruct (Hn eq_refl) as [Hn1 Hn2].
    destruct b as [first' second']. simpl in *. apply Chain_Exhausted.
    + eapply Exhausted_SinglePass_step; [exact Ha | exact Hn1].
    + eapply Exhausted_SinglePass_step; [exact Hb | exact Hn2].
Qed.

(** *** Interleave *)

Lemma Interleave_next_inv (fuel : nat) (t : Interleave I1 I2) (v : option Item)
    (t' : Interleave I1 I2) :
  next fuel t = Some (v, t') ->
  Reach (Interleave_first t) (Interleave_first t') /\
  Reach (Interleave_second t) (Interleave_second t') /\
  (v = None ->
   next fuel (Interleave_first t) = Some (None, Interleave_first t') /\
   next fuel (Interleave_second t) = Some (None, Interleave_second t')).
Proof.
  change (next fuel t) with (Interleave_next fuel t). unfold Interleave_next, bind.
  intros E. cbv zeta in E. destruct (Interleave_yield_first t).
  - destruct (next fuel (Interleave_first t)) as [[[x|] first']|] eqn:E1;
      try discriminate E.
    + close_next E. simpl.
      split; [eapply Reach_one; exact E1 | split; [constructor | discriminate]].
    + destruct (next fuel (Interleave_second t)) as [[w second']|] eqn:E2;
        try discriminate E.
      close_next E. simpl.
      split; [eapply Reach_one; exact E1|].
      split; [eapply Reach_one; exact E2|]. intros ->. now split.
  - destruct (next fuel (Interleave_second t)) as [[[x|] second']|] eqn:E2;
      try discriminate E.
    + close_next E. simpl.
      split; [constructor | split; [eapply Reach_one; exact E2 | discriminate]].
    + destruct (next fuel (Interleave_first t)) as [[w first']|] eqn:E1;
        try discriminate E.
      close_next E. simpl.
      split; [eapply Reach_one; exact E1|].
      split; [eapply Reach_one; exact E2|]. intros ->. now split.
Qed.

Lemma Interleave_Exhausted (first : I1) (second : I2) (yield_first : bool) :
  Exhausted first -> Exhausted second ->
  Exhausted (mkInterleave first second yield_first).
Proof.
  intros H1 H2.
  apply (Exhausted_invariant
           (fun t : Interleave I1 I2 =>
              Exhausted (Interleave_first t) /\ Exhausted (Interleave_second t)));
    [|now split].
  intros [a b flag] [Ha Hb]. simpl in *.
  destruct (Exhausted_inv Ha) as (a' & [f1 Hf1] & Ha').
  destruct (Exhausted_inv Hb) as (b' & [f2 Hf2] & Hb').
  exists (mkInterleave a' b' (negb flag)). split; [|now split].
  exists (Nat.max f1 f2). intros fuel Hle.
  change (next fuel ?it) with (Interleave_next fuel it).
  unfold Interleave_next, bind. simpl.
  destruct flag; rewrite (Hf1 fuel), (Hf2 fuel) by lia; reflexivity.
Qed.

Lemma Interleave_SinglePass (t : Interleave I1 I2) :
  SinglePass (Interleave_first t) -> SinglePass (Interleave_second t) -> SinglePass t.
Proof.
  intros Hs1 Hs2.
  apply (SinglePass_invariant
           (fun t : Interleave I1 I2 =>
              SinglePass (Interleave_first t) /\ SinglePass (Interleave_second t)));
    [| |now split].
  - intros fuel a v b [Ha Hb] E. apply Interleave_next_inv in E.
    destruct E as (Hr1 & Hr2 & _).
    split; eapply SinglePass_Reach; eassumption.
  - intros fuel a b [Ha Hb] E. apply Interleave_next_inv in E.
    destruct E as (_ & _ & Hn). destruct (Hn eq_refl) as [Hn1 Hn2].
    destruct b as [first' second' flag]. simpl in *. apply Interleave_Exhausted.
    + eapply Exhausted_SinglePass_step; [exact Ha | exact Hn1].
    + eapply Exhausted_SinglePass_step; [exact Hb | exact Hn2].
Qed.

(** *** InterleaveShortest *)

Lemma InterleaveShortest_next_inv (fuel : nat) (t : InterleaveShortest I1 I2)
    (v : option Item) (t' : InterleaveShortest I1 I2) :
  next fuel t = Some (v, t') ->
  Reach (InterleaveShortest_first t) (InterleaveShortest_first t') /\
  Reach (InterleaveShortest_second t) (InterleaveShortest_second t') /\
  (v = None ->
   (InterleaveShortest_yield_first t' = true /\
    next fuel (InterleaveShortest_first t) = Some (None, InterleaveShortest_first t')) \/
   (InterleaveShortest_yield_first t' = false /\
    next fuel (InterleaveShortest_second t) =
    Some (None, InterleaveShortest_second t'))).
Proof.
  intros E. destruct (InterleaveShortest_yield_first t) eqn:Ef.
  - rewrite InterleaveShortest_next_first_due in E by assumption.
    destruct (next fuel (InterleaveShortest_first t)) as [[[x|] first']|] eqn:E1;
      try discriminate E; close_next E; simpl.
    + split; [eapply Reach_one; exact E1 | split; [constructor | discriminate]].
    + split; [eapply Reach_one; exact E1 | split; [constructor | now left]].
  - rewrite InterleaveShortest_next_second_due in E by assumption.
    destruct (next fuel (InterleaveShortest_second t)) as [[[x|] second']|] eqn:E2;
      try discriminate E; close_next E; simpl.
    + split; [constructor | split; [eapply Reach_one; exact E2 | discriminate]].
    + split; [constructor | split; [eapply Reach_one; exact E2 | now right]].
Qed.

Lemma InterleaveShortest_SinglePass (t : InterleaveShortest I1 I2) :
  SinglePass (InterleaveShortest_first t) ->
  SinglePass (InterleaveShortest_second t) -> SinglePass t.
Proof.
  intros Hs1 Hs2.
  apply (SinglePass_invariant
           (fun t : InterleaveShortest I1 I2 =>
              SinglePass (InterleaveShortest_first t) /\
              SinglePass (InterleaveShortest_second t))); [| |now split].
  - intros fuel a v b [Ha Hb] E. apply InterleaveShortest_next_inv in E.
    destruct E as (Hr1 & Hr2 & _).
    split; eapply SinglePass_Reach; eassumption.
  - intros fuel a b [Ha Hb] E. apply InterleaveShortest_next_inv in E.
    destruct E as (_ & _ & Hn).
    destruct b as [first' second' flag]. simpl in *.
    destruct (Hn eq_refl) as [[-> Hn1]|[-> Hn2]].
    + apply InterleaveShortest_first_Exhausted.
      eapply Exhausted_SinglePass_step; [exact Ha | exact Hn1].
    + apply InterleaveShortest_second_Exhausted.
      eapply Exhausted_SinglePass_step; [exact Hb | exact Hn2].
Qed.

End BinaryNoResurrection.

Section ZipNoResurrection.

Context {I1 I2 A B : Type} `{Iterator I1 A} `{Iterator I2 B}.

Lemma Zip_next_inv (fuel : nat) (t : Zip I1 I2) (v : option (A * B)) (t' : Zip I1 I2) :
  next fuel t = Some (v, t') ->
  Reach (Zip_first t) (Zip_first t') /\
  Reach (Zip_second t) (Zip_second t') /\
  (v = None ->
   next fuel (Zip_first t) = Some (None, Zip_first t') \/
   next fuel (Zip_second t) = Some (None, Zip_second t')).
Proof.
  change (next fuel t) with (Zip_next fuel t). unfold Zip_next, bind.
  intros E.
  destruct (next fuel (Zip_first t)) as [[[a|] first']|] eqn:E1; try discriminate E.
  - destruct (next fuel (Zip_second t)) as [[[b|] second']|] eqn:E2;
      try discriminate E; close_next E; simpl.
    + split; [eapply Reach_one; exact E1|].
      split; [eapply Reach_one; exact E2 | discriminate].
    + split; [eapply Reach_one; exact E1|].
      split; [eapply Reach_one; exact E2 | now right].
  - close_next E. simpl.
    split; [eapply Reach_one; exact E1 | split; [constructor | now left]].
Qed.

(** Over an exhausted first iterator, or over an exhausted second iterator
    and a first iterator whose calls return, [Zip] is exhausted. *)
Lemma Zip_Exhausted (first : I1) (second : I2) :
  Exhausted first \/ (Productive first /\ Exhausted second) ->
  Exhausted (mkZip first second).
Proof.
  intros Hq.
  apply (Exhausted_invariant
           (fun t : Zip I1 I2 =>
              Exhausted (Zip_first t) \/
              (Productive (Zip_first t) /\ Exhausted (Zip_second t))));
    [|exact Hq].
  intros [a b] [Ha|[Hp Hb]]; simpl in *.
  - destruct (Exhausted_inv Ha) as (a' & Hr & Ha').
    exists (mkZip a' b). split; [|now left].
    exact (Zip_returns_first_exhausted (mkZip a b) Hr).
  - destruct (Hp a (Reach_refl a)) as (v & a' & Hr).
    assert (Hp' : Productive a').
    { eapply Productive_Reach; [exact Hp | eapply returns_Reach; exact Hr]. }
    destruct v as [x|].
    + destruct (Exhausted_inv Hb) as (b' & Hrb & Hb').
      exists (mkZip a' b'). split; [|right; now split].
      exact (Zip_returns_second_exhausted (mkZip a b) Hr Hrb).
    + exists (mkZip a' b). split; [|right; now split].
      exact (Zip_returns_first_exhausted (mkZip a b) Hr).
Qed.

Lemma Zip_SinglePass (t : Zip I1 I2) :
  SinglePass (Zip_first t) -> SinglePass (Zip_second t) ->
  Productive (Zip_first t) -> SinglePass t.
Proof.
  intros Hs1 Hs2 Hp.
  apply (SinglePass_invariant
           (fun t : Zip I1 I2 =>
              SinglePass (Zip_first t) /\ SinglePass (Zip_second t) /\
              Productive (Zip_first t))); [| |now repeat split].
  - intros fuel a v b (Ha & Hb & Hpa) E. apply Zip_next_inv in E.
    destruct E as (Hr1 & Hr2 & _).
    split; [eapply SinglePass_Reach; eassumption|].
    split; [eapply SinglePass_Reach; eassumption|].
    eapply Productive_Reach; eassumption.
  - intros fuel a b (Ha & Hb & Hpa) E. apply Zip_next_inv in E.
    destruct E as (Hr1 & _ & Hn).
    destruct b as [first' second']. simpl in *. apply Zip_Exhausted.
    destruct (Hn eq_refl) as [Hn1|Hn2].
    + left. eapply Exhausted_SinglePass_step; [exact Ha | exact Hn1].
    + right. split; [eapply Productive_Reach; eassumption|].
      eapply Exhausted_SinglePass_step; [exact Hb | exact Hn2].
Qed.

End ZipNoResurrection.

Lemma ArrayIterator_Productive {T : Type} (it : ArrayIterator T) : Productive it.
Proof.
  intros it' _. 
  destruct (ArrayIterator_next 0 it') as [[v it'']|] eqn:E.
  - exists v, it''. exists O. intros fuel _. exact E.
  - unfold ArrayIterator_next in E.
    destruct (ArrayIterator_cursor it' <? len (ArrayIterator_cont it')); discriminate.
Qed.

Lemma stalled_never_returns (n fuel : nat) (c : Z) :
  c = 0 \/ c = 1 ->
  Filter_loop n fuel (fun x => x =? 1)
    (mkChain (mkArrayIterator (mkArray [1]) 1)
             (mkCycle (Array_iter (mkArray [2])) (mkArrayIterator (mkArray [2]) c)))
  = None.
Proof.
  revert c. induction n as [|n IH]; intros c Hc; [reflexivity|].
  cbn [Filter_loop]. destruct Hc as [->| ->].
  - change (next fuel (mkChain (mkArrayIterator (mkArray [1]) 1)
              (mkCycle (Array_iter (mkArray [2])) (mkArrayIterator (mkArray [2]) 0))))
      with (Some (Some 2, mkChain (mkArrayIterator (mkArray [1]) 1)
              (mkCycle (Array_iter (mkArray [2])) (mkArrayIterator (mkArray [2]) 1)))).
    cbn [bind]. simpl negb. cbv iota. apply IH. now right.
  - change (next fuel (mkChain (mkArrayIterator (mkArray [1]) 1)
              (mkCycle (Array_iter (mkArray [2])) (mkArrayIterator (mkArray [2]) 1))))
      with (Some (Some 2, mkChain (mkArrayIterator (mkArray [1]) 1)
              (mkCycle (Array_iter (mkArray [2])) (mkArrayIterator (mkArray [2]) 1)))).
    cbn [bind]. simpl negb. cbv iota. apply IH. now right.
Qed.

Lemma stalled_next (fuel : nat) (c : Z) : c = 0 \/ c = 1 -> next fuel (stalled c) = None.
Proof.
  intros Hc. change (next fuel (stalled c)) with (Filter_next fuel (stalled c)).
  unfold Filter_next, stalled. cbn [Filter_inner Filter_predicate].
  now rewrite stalled_never_returns.
Qed.

Lemma stalling_next (fuel : nat) :
  next fuel stalling = match fuel with O => None | S _ => Some (Some 1, stalled 0) end.
Proof. destruct fuel; reflexivity. Qed.

Lemma stalling_SinglePass : SinglePass stalling.
Proof.
  apply (SinglePass_invariant (fun t => t = stalling \/ t = stalled 0));
    [| |now left].
  - intros fuel t v t' [->| ->] E.
    + rewrite stalling_next in E. destruct fuel; [discriminate|]. close_next E. now right.
    + rewrite stalled_next in E by now left. discriminate.
  - intros fuel t t' [->| ->] E.
    + rewrite stalling_next in E. destruct fuel; discriminate.
    + rewrite stalled_next in E by now left. discriminate.
Qed.

(** C5, as the code has it: every adapter other than [Cycle], over single
    pass inner iterators, is single pass: once a call of its [next()] has
    returned exhaustion, every later call returns exhaustion.  For [Zip]
    this holds when, in addition, the calls of its first iterator return:
    [Zip] pulls the first iterator on every call, also after the second one
    is exhausted. *)
Theorem C5_adapters_are_single_pass :
  (forall (I Item : Type) (H : Iterator I Item) (t : StepBy I),
     SinglePass (StepBy_inner t) -> SinglePass t) /\
  (forall (I A B : Type) (H : Iterator I A) (t : Map I A B),
     SinglePass (Map_inner t) -> SinglePass t) /\
  (forall (I Item : Type) (H : Iterator I Item) (t : Skip I),
     SinglePass (Skip_inner t) -> SinglePass t) /\
  (forall (I Item : Type) (H : Iterator I Item) (t : SkipWhile I Item),
     SinglePass (SkipWhile_inner t) -> SinglePass t) /\
  (forall (I Item : Type) (H : Iterator I Item) (t : Enumerate I),
     SinglePass (Enumerate_inner t) -> SinglePass t) /\
  (forall (I Item : Type) (H : Iterator I Item) (t : Filter I Item),
     SinglePass (Filter_inner t) -> SinglePass t) /\
  (forall (I1 I2 Item : Type) (H1 : Iterator I1 Item) (H2 : Iterator I2 Item)
          (t : Chain I1 I2),
     SinglePass (Chain_first t) -> SinglePass (Chain_second t) -> SinglePass t) /\
  (forall (I1 I2 A B : Type) (H1 : Iterator I1 A) (H2 : Iterator I2 B)
          (t : Zip I1 I2),
     SinglePass (Zip_first t) -> SinglePass (Zip_second t) ->
     Productive (Zip_first t) -> SinglePass t) /\
  (forall (I Item : Type) (H : Iterator I Item) (t : Take I),
     SinglePass (Take_inner t) -> SinglePass t) /\
  (forall (I Item : Type) (H : Iterator I Item) (t : TakeWhile I Item),
     SinglePass (TakeWhile_inner t) -> SinglePass t) /\
  (forall (I1 I2 Item : Type) (H1 : Iterator I1 Item) (H2 : Iterator I2 Item)
          (t : Interleave I1 I2),
     SinglePass (Interleave_first t) -> SinglePass (Interleave_second t) ->
     SinglePass t) /\
  (forall (I1 I2 Item : Type) (H1 : Iterator I1 Item) (H2 : Iterator I2 Item)
          (t : InterleaveShortest I1 I2),
     SinglePass (InterleaveShortest_first t) ->
     SinglePass (InterleaveShortest_second t) -> SinglePass t) /\
  (forall (I Item : Type) (H : Iterator I Item) (E : Hashable Item) (t : Unique I Item),
     SinglePass (Unique_inner t) -> SinglePass t) /\
  (forall (I Item Key : Type) (H : Iterator I Item) (E : Hashable Key)
          (t : UniqueBy I Item Key),
     SinglePass (UniqueBy_inner t) -> SinglePass t).
Proof.
  repeat split; intros.
  - now apply StepBy_SinglePass.
  - now apply Map_SinglePass.
  - now apply Skip_SinglePass.
  - now apply SkipWhile_SinglePass.
  - now apply Enumerate_SinglePass.
  - now apply Filter_SinglePass.
  - now apply Chain_SinglePass.
  - now apply Zip_SinglePass.
  - now apply Take_SinglePass.
  - now apply TakeWhile_SinglePass.
  - now apply Interleave_SinglePass.
  - now apply InterleaveShortest_SinglePass.
  - now apply Unique_SinglePass.
  - now apply UniqueBy_SinglePass.
Qed.

Lemma C5_adapters_witness :
  let a := Array_iter (mkArray [1; 2; 3]) in
  let b := Array_iter (mkArray [4]) in
  SinglePass (zip a b) /\ SinglePass (filter a Z.even) /\ SinglePass (interleave a b).
Proof.
  intros a b.
  assert (Ha : SinglePass a).
  { apply ArrayIterator_SinglePass; [lia | rewrite size_modulus_eq; reflexivity]. }
  assert (Hb : SinglePass b).
  { apply ArrayIterator_SinglePass; [lia | rewrite size_modulus_eq; reflexivity]. }
  destruct C5_adapters_are_single_pass
    as (_ & _ & _ & _ & _ & Hfilter & _ & Hzip & _ & _ & Hinter & _).
  split; [|split].
  - apply Hzip; [exact Ha | exact Hb | apply ArrayIterator_Productive].
  - apply Hfilter. exact Ha.
  - apply Hinter; [exact Ha | exact Hb].
Defined.

(** C5 as stated fails for [Zip]: over [stalling], which yields one item
    and whose next call never returns, and an empty array, both single
    pass, the first call of [Zip]'s [next()] returns exhaustion and the
    second call never returns. *)
Lemma C5_counterexample :
  let b := Array_iter (mkArray (@nil Z)) in
  SinglePass stalling /\ SinglePass b /\
  returns (zip stalling b) None (mkZip (stalled 0) b) /\
  (forall fuel, next fuel (mkZip (stalled 0) b) = None) /\
  ~ SinglePass (zip stalling b).
Proof.
  intros b.
  assert (Hfirst : forall fuel, (1 <= fuel)%nat ->
            next fuel (zip stalling b) = Some (None, mkZip (stalled 0) b)).
  { intros [|fuel] Hle; [lia | reflexivity]. }
  assert (Hnever : forall fuel, next fuel (mkZip (stalled 0) b) = None).
  { intros fuel. change (next fuel ?z) with (Zip_next fuel z).
    unfold Zip_next. cbn [Zip_first]. rewrite stalled_next by now left. reflexivity. }
  split; [exact stalling_SinglePass|].
  split; [apply ArrayIterator_SinglePass; [lia | rewrite size_modulus_eq; reflexivity]|].
  split; [exists 1%nat; exact Hfirst|].
  split; [exact Hnever|].
  intros Hsp.
  assert (Hex : Exhausted (mkZip (stalled 0) b)).
  { eapply Exhausted_SinglePass_step; [exact Hsp | exact (Hfirst 1%nat (le_n 1))]. }
  destruct (Exhausted_inv Hex) as (z & [f0 Hf] & _).
  specialize (Hf f0 (le_n f0)). rewrite Hnever in Hf. discriminate.
Qed.

(** ** The counted loops always stop within their budget

    Started from a counter [wrap i], the discarding loop of [StepBy] and
    the skipping loop of [Skip] compare the counter with the bound on every
    run; [size_modulus] runs see every [size_t] value, the bound among
    them, so [loop_budget] never cuts these loops short. *)

Section BudgetFacts.

Context {I Item : Type} `{Iterator I Item}.

Lemma StepBy_loop_running (fuel : nat) (step : Z) (n : nat) :
  forall (i : Z) (inner : I) (s : Z * I),
  loop_nat n (StepBy_body fuel step) (wrap i, inner) = Some (inl s) ->
  forall k : nat, (k < n)%nat -> wrap (i + Z.of_nat k) <> step.
Proof.
  induction n as [|n IH]; intros i inner s E k Hk; [lia|].
  cbn [loop_nat StepBy_body] in E. unfold bind in E.
  destruct (Z.eqb_spec (wrap i) step) as [Eq|Hne]; [discriminate|].
  destruct (next fuel inner) as [[[x|] inner']|]; try discriminate.
  assert (Ew : wrap (wrap i + 1) = wrap (i + 1))
    by (unfold wrap; now rewrite Zplus_mod_idemp_l).
  rewrite Ew in E. destruct k as [|k].
  - now rewrite Z.add_0_r.
  - replace (i + Z.of_nat (S k)) with (i + 1 + Z.of_nat k) by lia.
    apply (IH (i + 1) inner' s E). lia.
Qed.

Lemma Skip_loop_running (fuel : nat) (skip : Z) (n : nat) :
  forall (i : Z) (inner : I) (s : Z * I),
  loop_nat n (Skip_body fuel skip) (wrap i, inner) = Some (inl s) ->
  forall k : nat, (k < n)%nat -> wrap (i + Z.of_nat k) <> skip.
Proof.
  induction n as [|n IH]; intros i inner s E k Hk; [lia|].
  cbn [loop_nat Skip_body] in E. unfold bind in E.
  destruct (Z.eqb_spec (wrap i) skip) as [Eq|Hne]; [discriminate|].
  destruct (next fuel inner) as [[w inner']|]; try discriminate.
  assert (Ew : wrap (wrap i + 1) = wrap (i + 1))
    by (unfold wrap; now rewrite Zplus_mod_idemp_l).
  rewrite Ew in E. destruct k as [|k].
  - now rewrite Z.add_0_r.
  - replace (i + Z.of_nat (S k)) with (i + 1 + Z.of_nat k) by lia.
    apply (IH (i + 1) inner' s E). lia.
Qed.

Lemma wrap_reaches (i bound : Z) :
  0 <= bound < size_modulus ->
  exists k : nat, Z.of_nat k < size_modulus /\ wrap (i + Z.of_nat k) = bound.
Proof.
  intros Hb. pose proof size_modulus_pos as Hpos.
  exists (Z.to_nat ((bound - i) mod size_modulus)).
  pose proof (Z.mod_pos_bound (bound - i) size_modulus Hpos) as Hm.
  rewrite Z2Nat.id by lia. split; [lia|].
  unfold wrap. rewrite Zplus_mod_idemp_r.
  replace (i + (bound - i)) with bound by lia. now apply Z.mod_small.
Qed.

Lemma StepBy_loop_stops (fuel : nat) (step : Z) (inner : I) (r : (Z * I) + (Z * I)) :
  0 <= step < size_modulus ->
  bounded_loop loop_budget (StepBy_body fuel step) (1, inner) = Some r ->
  exists s, r = inr s.
Proof.
  intros Hs E. destruct r as [s|s]; [exfalso | now exists s].
  rewrite bounded_loop_nat in E. change (1, inner) with (wrap 1, inner) in E.
  destruct (wrap_reaches 1 Hs) as (k & Hk & Ek).
  apply (@StepBy_loop_running fuel step (Pos.to_nat loop_budget) 1 inner s E k);
    [|exact Ek].
  pose proof loop_budget_nat. lia.
Qed.

Lemma Skip_loop_stops (fuel : nat) (skip : Z) (inner : I) (r : (Z * I) + (Z * I)) :
  0 <= skip < size_modulus ->
  bounded_loop loop_budget (Skip_body fuel skip) (0, inner) = Some r ->
  exists s, r = inr s.
Proof.
  intros Hs E. destruct r as [s|s]; [exfalso | now exists s].
  rewrite bounded_loop_nat in E. change (0, inner) with (wrap 0, inner) in E.
  destruct (wrap_reaches 0 Hs) as (k & Hk & Ek).
  apply (@Skip_loop_running fuel skip (Pos.to_nat loop_budget) 0 inner s E k);
    [|exact Ek].
  pose proof loop_budget_nat. lia.
Qed.

End BudgetFacts.

(** ** The unit tests of [tests/iterator_test.cpp], run on the model *)

Module UnitTests.

Example step_by_works :
  from_iterator free_store 0 50 (step_by (ints one_to_ten) 2) = Done (mkArray [1; 3; 5; 7; 9]).
Proof. vm_compute. reflexivity. Qed.

Example map_works :
  from_iterator free_store 0 50 (map (ints [1; 2; 3]) (fun v => v * v)) = Done (mkArray [1; 4; 9]).
Proof. vm_compute. reflexivity. Qed.

Example skip_works :
  from_iterator free_store 0 50 (skip (ints one_to_ten) 7) = Done (mkArray [8; 9; 10]).
Proof. vm_compute. reflexivity. Qed.

Example skip_while_works :
  from_iterator free_store 0 50 (skip_while (ints [2; 4; 6; 7; 8]) Z.even) = Done (mkArray [7; 8]).
Proof. vm_compute. reflexivity. Qed.

Example enumerate_works :
  from_iterator free_store (0, EmptyString) 50 (enumerate (strings ["s0"; "s1"; "s2"]%string))
  = Done (mkArray [(0, "s0"); (1, "s1"); (2, "s2")]%string).
Proof. vm_compute. reflexivity. Qed.

Example filter_works :
  from_iterator free_store 0 50 (filter (ints one_to_ten) Z.even) = Done (mkArray [2; 4; 6; 8; 10]).
Proof. vm_compute. reflexivity. Qed.

Example chain_works :
  from_iterator free_store 0 50 (chain (chain (ints [0; 1; 2; 3; 4]) (ints [3; 2; 1]))
                            (ints [0; 1; 2; 3; 4]))
  = Done (mkArray [0; 1; 2; 3; 4; 3; 2; 1; 0; 1; 2; 3; 4]).
Proof. vm_compute. reflexivity. Qed.

Example zip_works :
  from_iterator free_store (0, EmptyString) 50
    (zip (ints [0; 1; 2]) (strings ["String_0"; "String_1"; "String_2"]%string))
  = Done (mkArray [(0, "String_0"); (1, "String_1"); (2, "String_2")]%string).
Proof. vm_compute. reflexivity. Qed.

Example take_works :
  from_iterator free_store 0 50 (take (ints [1; 2; 3; 4; 5]) 2) = Done (mkArray [1; 2]).
Proof. vm_compute. reflexivity. Qed.

Example take_while_works :
  from_iterator free_store 0 50 (take_while (ints [2; 4; 6; 7; 8]) Z.even) = Done (mkArray [2; 4; 6]).
Proof. vm_compute. reflexivity. Qed.

Example cycle_works :
  from_iterator free_store 0 50 (take (cycle (ints [1; 2; 3])) 5) = Done (mkArray [1; 2; 3; 1; 2]).
Proof. vm_compute. reflexivity. Qed.

Example interleave_works :
  from_iterator free_store 0 50 (interleave (ints [1; 2; 3; 4]) (ints [-1; -2]))
  = Done (mkArray [1; -1; 2; -2; 3; 4]).
Proof. vm_compute. reflexivity. Qed.

Example interleave_shortest_works :
  from_iterator free_store 0 50 (interleave_shortest (ints [1; 2; 3; 4]) (ints [-1; -2]))
  = Done (mkArray [1; -1; 2; -2; 3]).
Proof. vm_compute. reflexivity. Qed.

Example unique_works :
  from_iterator free_store 0 50 (unique (ints [1; 1; 1; 2; -3; 1])) = Done (mkArray [1; 2; -3]).
Proof. vm_compute. reflexivity. Qed.

Example unique_by_works :
  from_iterator free_store EmptyString 50
    (unique_by (strings ["aa"; "bb"; "a"; "ccc"]%string) String.length)
  = Done (mkArray ["aa"; "a"; "ccc"]%string).
Proof. vm_compute. reflexivity. Qed.

Example all_works : all 50 Z.even (ints [2; 4; 6; 8; 10]) = Done true.
Proof. vm_compute. reflexivity. Qed.

Example any_works : any 50 Z.even (ints [1; 3; 5; 2; 7]) = Done true.
Proof. vm_compute. reflexivity. Qed.

Example none_works : none 50 Z.even (ints [1; 3; 5; 7; 9]) = Done true.
Proof. vm_compute. reflexivity. Qed.

Example find_works :
  find 50 (fun v => v =? 5) (ints one_to_ten) = Done (Some 5) /\
  find 50 (fun v => v =? 11) (ints one_to_ten) = Done None.
Proof. split; vm_compute; reflexivity. Qed.

Example max_works : max 50 (strings ["aaa"; "aa"; "b"]%string) = Done (Some "b"%string).
Proof. vm_compute. reflexivity. Qed.

Example min_works : min 50 (strings ["aaa"; "aa"; "b"]%string) = Done (Some "aa"%string).
Proof. vm_compute. reflexivity. Qed.

Example count_works :
  match next 50 (ints [0; 1; 2; 3; 4]) with
  | Some (_, it1) =>
      match next 50 it1 with
      | Some (_, it2) => count 50 it2 = Done 3
      | None => False
      end
  | None => False
  end.
Proof. vm_compute. reflexivity. Qed.

Example collect_works :
  collect free_store 0 50
    (filter (map (filter (ints one_to_ten) Z.even) (fun v => v + 1)) (fun v => v <=? 7))
  = Done (mkArray [3; 5; 7]).
Proof. vm_compute. reflexivity. Qed.

(** The function asserts [i == v] and increments [i]; the state is [i]
    and whether every assertion held. *)
Example for_each_works :
  for_each 50 (fun v (w : Z * bool) => (fst w + 1, snd w && (fst w =? v))) (0, true)
    (ints [0; 1; 2; 3; 4; 5; 6; 7; 8; 9])
  = Done (10, true).
Proof. vm_compute. reflexivity. Qed.

Example sum_works : sum 50 (ints [2; 5; 10]) = Done 17.
Proof. vm_compute. reflexivity. Qed.

Example fold_works : fold 50 1 Z.mul (ints [1; 3; 10]) = Done 30.
Proof. vm_compute. reflexivity. Qed.

Example join_works :
  join int_to_string 50 (view_of ", ") (ints [1; 2; 3; 4; 5])
  = Done "1, 2, 3, 4, 5"%string.
Proof. vm_compute. reflexivity. Qed.

(** [tests/range_test.cpp] *)
Example range_collect_works :
  collect free_store 0 50 (Range_iter (mkRange 1 10)) = Done (mkArray one_to_ten).
Proof. vm_compute. reflexivity. Qed.

Example range_map_works :
  collect free_store 0 50 (map (Range_iter (mkRange 1 4)) (fun v => v * v))
  = Done (mkArray [1; 4; 9; 16]).
Proof. vm_compute. reflexivity. Qed.

End UnitTests.

(** * Finite sources through the adapters *)

Section DrainFacts.

Context {I Item : Type} `{Iterator I Item}.

Lemma drains_yields_app (it mid : I) (pre l : list Item) :
  yields it pre mid -> drains mid l -> drains it (pre ++ l).
Proof.
  intros Hy (it' & Hl & Hex). exists it'. split; [|assumption].
  unfold yields. rewrite List.map_app. eapply trace_app; eassumption.
Qed.

Lemma drains_app_inv (pre l : list Item) (it : I) :
  drains it (pre ++ l) -> exists mid, yields it pre mid /\ drains mid l.
Proof.
  intros (it' & Hy & Hex). unfold yields in Hy. rewrite List.map_app in Hy.
  destruct (trace_app_inv _ _ Hy) as (mid & H1 & H2).
  exists mid. split; [assumption|]. exists it'. now split.
Qed.

(** The first [m] calls on a finite iterator of at least [m] items. *)
Lemma drains_split (it : I) (l : list Item) (m : nat) :
  drains it l -> exists mid, yields it (firstn m l) mid /\ drains mid (skipn m l).
Proof.
  intros Hd. apply drains_app_inv. now rewrite firstn_skipn.
Qed.

(** Any number of calls on a finite iterator: they return, and leave the
    items not yet pulled. *)
Lemma drains_calls (k : nat) :
  forall (it : I) (l : list Item),
  drains it l ->
  exists vs mid, List.length vs = k /\ trace it vs mid /\ drains mid (skipn k l).
Proof.
  induction k as [|k IH]; intros it l Hd.
  - exists [], it. repeat split; [constructor | assumption].
  - destruct l as [|x l].
    + destruct (drains_returns_None Hd) as (it1 & Hr & Hd1).
      destruct (IH it1 [] Hd1) as (vs & mid & Hlen & Ht & Hm).
      exists (None :: vs), mid. repeat split.
      * simpl. now rewrite Hlen.
      * econstructor; eassumption.
      * now rewrite skipn_nil in *.
    + apply drains_cons in Hd. destruct Hd as (it1 & Hr & Hd1).
      destruct (IH it1 l Hd1) as (vs & mid & Hlen & Ht & Hm).
      exists (Some x :: vs), mid. repeat split.
      * simpl. now rewrite Hlen.
      * econstructor; eassumption.
      * exact Hm.
Qed.

Lemma ints_drains (l : list Z) :
  Z.of_nat (List.length l) < size_modulus -> drains (ints l) l.
Proof. intros Hl. now apply (Array_iter_drains (mkArray l)). Qed.

End DrainFacts.

(** ** Map *)

Section MapDrains.

Context {I A B : Type} `{Iterator I A}.

Lemma Map_returns (inner inner' : I) (mapper : A -> B) (v : option A) :
  returns inner v inner' ->
  returns (mkMap inner mapper) (option_map mapper v) (mkMap inner' mapper).
Proof.
  intros [f0 Hf]. exists f0. intros fuel Hle.
  change (next fuel ?it) with (Map_next fuel it).
  unfold Map_next, bind. cbn [Map_inner Map_mapper].
  rewrite (Hf fuel Hle). now destruct v.
Qed.

Lemma Map_drains (mapper : A -> B) (l : list A) :
  forall inner : I, drains inner l -> drains (mkMap inner mapper) (List.map mapper l).
Proof.
  induction l as [|x l IH]; intros inner Hd.
  - apply drains_nil_Exhausted, Map_Exhausted. now apply drains_nil_Exhausted.
  - apply drains_cons in Hd. destruct Hd as (inner1 & Hr & Hd1).
    cbn [List.map]. apply drains_cons. exists (mkMap inner1 mapper).
    split; [exact (Map_returns mapper Hr) | now apply IH].
Qed.

End MapDrains.

(** X1: [map] over a finite iterator yields the images of its items, in
    the same order and as many; the mapped iterator is finite too. *)
Theorem X1_map_yields_images
    {I A B : Type} `{Iterator I A} (inner : I) (mapper : A -> B) (l : list A) :
  drains inner l ->
  drains (map inner mapper) (List.map mapper l) /\
  exists f0, forall fuel, (f0 <= fuel)%nat ->
    count fuel (map inner mapper) = Done (wrap (Z.of_nat (List.length l))).
Proof.
  intros Hd. pose proof (Map_drains mapper Hd) as Hm. split; [exact Hm|].
  destruct (count_drains Hm) as [f0 Hf]. exists f0. intros fuel Hle.
  unfold map. rewrite (Hf fuel Hle). now rewrite length_map.
Qed.

Lemma X1_map_witness :
  drains (ints [1; 2; 3]) [1; 2; 3] /\
  drains (map (ints [1; 2; 3]) (fun v => v * v)) [1; 4; 9].
Proof.
  assert (Hd : drains (ints [1; 2; 3]) [1; 2; 3])
    by (apply ints_drains; rewrite size_modulus_eq; simpl; lia).
  split; [exact Hd|].
  exact (proj1 (X1_map_yields_images (fun v => v * v) Hd)).
Defined.

(** ** Chain *)

Section ChainDrains.

Context {I1 I2 Item : Type} `{Iterator I1 Item} `{Iterator I2 Item}.

Lemma Chain_returns_first (first first' : I1) (second : I2) (x : Item) :
  returns first (Some x) first' ->
  returns (mkChain first second) (Some x) (mkChain first' second).
Proof.
  intros [f0 Hf]. exists f0. intros fuel Hle.
  change (next fuel ?it) with (Chain_next fuel it).
  unfold Chain_next, bind. cbn [Chain_first Chain_second].
  now rewrite (Hf fuel Hle).
Qed.

Lemma Chain_returns_second (first first' : I1) (second second' : I2)
    (v : option Item) :
  returns first None first' -> returns second v second' ->
  returns (mkChain first second) v (mkChain first' second').
Proof.
  intros [f1 H1] [f2 H2]. exists (Nat.max f1 f2). intros fuel Hle.
  change (next fuel ?it) with (Chain_next fuel it).
  unfold Chain_next, bind. cbn [Chain_first Chain_second].
  rewrite (H1 fuel), (H2 fuel) by lia. reflexivity.
Qed.

Lemma Chain_drains_second (lb : list Item) :
  forall (first : I1) (second : I2),
  Exhausted first -> drains second lb -> drains (mkChain first second) lb.
Proof.
  induction lb as [|y lb IH]; intros first second Hex Hd.
  - apply drains_nil_Exhausted, Chain_Exhausted; [assumption|].
    now apply drains_nil_Exhausted.
  - destruct (Exhausted_inv Hex) as (first1 & Hr1 & Hex1).
    apply drains_cons in Hd. destruct Hd as (second1 & Hr2 & Hd2).
    apply drains_cons. exists (mkChain first1 second1).
    split; [exact (Chain_returns_second Hr1 Hr2) | now apply IH].
Qed.

Lemma Chain_drains (la lb : list Item) :
  forall (first : I1) (second : I2),
  drains first la -> drains second lb -> drains (mkChain first second) (la ++ lb).
Proof.
  induction la as [|x la IH]; intros first second Ha Hb.
  - apply Chain_drains_second; [|assumption]. now apply drains_nil_Exhausted.
  - apply drains_cons in Ha. destruct Ha as (first1 & Hr & Ha1).
    cbn [app]. apply drains_cons. exists (mkChain first1 second).
    split; [exact (Chain_returns_first second Hr) | now apply IH].
Qed.

End ChainDrains.

(** X2: [chain] over two finite iterators yields the items of the first
    and then the items of the second; chaining is associative in what it
    yields. *)
Theorem X2_chain_appends
    {I1 I2 I3 Item : Type} `{Iterator I1 Item} `{Iterator I2 Item} `{Iterator I3 Item}
    (a : I1) (b : I2) (c : I3) (la lb lc : list Item) :
  drains a la -> drains b lb -> drains c lc ->
  drains (chain a b) (la ++ lb) /\
  drains (chain (chain a b) c) (la ++ lb ++ lc) /\
  drains (chain a (chain b c)) (la ++ lb ++ lc).
Proof.
  intros Ha Hb Hc. split; [|split].
  - now apply Chain_drains.
  - rewrite app_assoc. apply Chain_drains; [|assumption]. now apply Chain_drains.
  - apply Chain_drains; [assumption|]. now apply Chain_drains.
Qed.

Lemma X2_chain_witness :
  drains (chain (ints [1; 2]) (ints [3])) [1; 2; 3].
Proof.
  assert (Ha : drains (ints [1; 2]) [1; 2])
    by (apply ints_drains; rewrite size_modulus_eq; simpl; lia).
  assert (Hb : drains (ints [3]) [3])
    by (apply ints_drains; rewrite size_modulus_eq; simpl; lia).
  exact (proj1 (X2_chain_appends Ha Hb Hb)).
Defined.

(** ** Zip *)

Section ZipDrains.

Context {I1 I2 A B : Type} `{Iterator I1 A} `{Iterator I2 B}.

(** Over an exhausted second iterator [Zip] is exhausted, however many
    items the first has left. *)
Lemma Zip_drains_second_exhausted (l : list A) :
  forall (first : I1) (second : I2),
  drains first l -> Exhausted second -> Exhausted (mkZip first second).
Proof.
  induction l as [|x l IH]; intros first second Hd Hex.
  - apply Zip_Exhausted. left. now apply drains_nil_Exhausted.
  - apply drains_cons in Hd. destruct Hd as (first1 & Hr & Hd1).
    destruct (Exhausted_inv Hex) as (second1 & Hs & Hex1).
    apply (@Exhausted_intro _ _ _ _ (mkZip first1 second1)).
    + exact (Zip_returns_second_exhausted (mkZip first second) Hr Hs).
    + now apply IH.
Qed.

Lemma Zip_drains (la : list A) :
  forall (lb : list B) (first : I1) (second : I2),
  drains first la -> drains second lb ->
  drains (mkZip first second) (combine la lb).
Proof.
  induction la as [|x la IH]; intros lb first second Ha Hb.
  - cbn [combine]. apply drains_nil_Exhausted, Zip_Exhausted. left.
    now apply drains_nil_Exhausted.
  - destruct lb as [|y lb]; cbn [combine].
    + apply drains_nil_Exhausted.
      eapply Zip_drains_second_exhausted; [exact Ha|].
      now apply drains_nil_Exhausted.
    + apply drains_cons in Ha. destruct Ha as (first1 & Hr1 & Ha1).
      apply drains_cons in Hb. destruct Hb as (second1 & Hr2 & Hb1).
      apply drains_cons. exists (mkZip first1 second1). split.
      * exact (Zip_returns_pair (mkZip first second) Hr1 Hr2).
      * now apply IH.
Qed.

End ZipDrains.

(** X3: [zip] over two finite iterators pairs their items position by
    position and stops with the shorter one; it counts the minimum of the
    two lengths. *)
Theorem X3_zip_pairs_up_to_shorter
    {I1 I2 A B : Type} `{Iterator I1 A} `{Iterator I2 B}
    (first : I1) (second : I2) (la : list A) (lb : list B) :
  drains first la -> drains second lb ->
  drains (zip first second) (combine la lb) /\
  exists f0, forall fuel, (f0 <= fuel)%nat ->
    count fuel (zip first second)
    = Done (wrap (Z.min (Z.of_nat (List.length la)) (Z.of_nat (List.length lb)))).
Proof.
  intros Ha Hb. pose proof (Zip_drains Ha Hb) as Hz. split; [exact Hz|].
  destruct (count_drains Hz) as [f0 Hf]. exists f0. intros fuel Hle.
  unfold zip. rewrite (Hf fuel Hle), length_combine. do 2 f_equal. lia.
Qed.

Lemma X3_zip_witness :
  drains (zip (ints [1; 2; 3]) (ints [7; 8])) [(1, 7); (2, 8)].
Proof.
  assert (Ha : drains (ints [1; 2; 3]) [1; 2; 3])
    by (apply ints_drains; rewrite size_modulus_eq; simpl; lia).
  assert (Hb : drains (ints [7; 8]) [7; 8])
    by (apply ints_drains; rewrite size_modulus_eq; simpl; lia).
  exact (proj1 (X3_zip_pairs_up_to_shorter Ha Hb)).
Defined.

(** ** Take *)

Section TakeDrains.

Context {I Item : Type} `{Iterator I Item}.

Lemma Take_drains (l : list Item) :
  forall (k : Z) (inner : I),
  0 <= k < size_modulus -> drains inner l ->
  drains (mkTake inner k) (firstn (Z.to_nat k) l).
Proof.
  induction l as [|x l IH]; intros k inner Hk Hd.
  - rewrite firstn_nil. apply drains_nil_Exhausted, Take_Exhausted.
    now apply drains_nil_Exhausted.
  - destruct (Z.eq_dec k 0) as [->|Hnz].
    + cbn [Z.to_nat firstn]. apply drains_nil_Exhausted.
      now apply Take_zero_Exhausted.
    + replace (Z.to_nat k) with (S (Z.to_nat (k - 1))) by lia. cbn [firstn].
      apply drains_cons in Hd. destruct Hd as (inner1 & Hr & Hd1).
      apply drains_cons. exists (mkTake inner1 (k - 1)). split.
      * apply Take_returns; [lia | assumption].
      * apply IH; [lia | assumption].
Qed.

End TakeDrains.

(** X4: [take(num)] over a finite iterator yields its first [num] items,
    all of them when it has fewer, and is exhausted after that. *)
Theorem X4_take_yields_prefix
    {I Item : Type} `{Iterator I Item} (inner : I) (num : Z) (l : list Item) :
  0 <= num < size_modulus -> drains inner l ->
  drains (take inner num) (firstn (Z.to_nat num) l).
Proof. intros Hk Hd. now apply Take_drains. Qed.

Lemma X4_take_witness :
  drains (take (ints [1; 2; 3]) 2) [1; 2] /\ drains (take (ints [1; 2; 3]) 5) [1; 2; 3].
Proof.
  assert (Hd : drains (ints [1; 2; 3]) [1; 2; 3])
    by (apply ints_drains; rewrite size_modulus_eq; simpl; lia).
  split.
  - apply (@X4_take_yields_prefix _ _ _ (ints [1; 2; 3]) 2 [1; 2; 3]);
      [rewrite size_modulus_eq; lia | exact Hd].
  - apply (@X4_take_yields_prefix _ _ _ (ints [1; 2; 3]) 5 [1; 2; 3]);
      [rewrite size_modulus_eq; lia | exact Hd].
Defined.

(** ** Interleave *)

Lemma interleaved_upto_length {A : Type} (m : nat) :
  forall a b : list A,
  (List.length a + List.length b <= m)%nat ->
  List.length (interleaved_upto m a b) = (List.length a + List.length b)%nat.
Proof.
  induction m as [|m IH]; intros a b Hm.
  - destruct a, b; simpl in *; lia.
  - destruct a as [|x a]; cbn [interleaved_upto List.length] in *; [reflexivity|].
    rewrite IH by lia. lia.
Qed.

Lemma interleaved_length {A : Type} (a b : list A) :
  List.length (interleaved a b) = (List.length a + List.length b)%nat.
Proof. unfold interleaved. now apply interleaved_upto_length. Qed.

Section InterleaveDrains.

Context {I1 I2 Item : Type} `{Iterator I1 Item} `{Iterator I2 Item}.

Lemma Interleave_returns_first (first first' : I1) (second : I2) (x : Item) :
  returns first (Some x) first' ->
  returns (mkInterleave first second true) (Some x)
          (mkInterleave first' second false).
Proof.
  intros [f0 Hf]. exists f0. intros fuel Hle.
  change (next fuel ?it) with (Interleave_next fuel it).
  unfold Interleave_next, bind.
  cbn [Interleave_first Interleave_second Interleave_yield_first].
  now rewrite (Hf fuel Hle).
Qed.

Lemma Interleave_returns_second (first : I1) (second second' : I2) (y : Item) :
  returns second (Some y) second' ->
  returns (mkInterleave first second false) (Some y)
          (mkInterleave first second' true).
Proof.
  intros [f0 Hf]. exists f0. intros fuel Hle.
  change (next fuel ?it) with (Interleave_next fuel it).
  unfold Interleave_next, bind.
  cbn [Interleave_first Interleave_second Interleave_yield_first].
  now rewrite (Hf fuel Hle).
Qed.

Lemma Interleave_returns_first_empty (first first' : I1) (second second' : I2)
    (v : option Item) :
  returns first None first' -> returns second v second' ->
  returns (mkInterleave first second true) v (mkInterleave first' second' false).
Proof.
  intros [f1 H1] [f2 H2]. exists (Nat.max f1 f2). intros fuel Hle.
  change (next fuel ?it) with (Interleave_next fuel it).
  unfold Interleave_next, bind.
  cbn [Interleave_first Interleave_second Interleave_yield_first].
  rewrite (H1 fuel), (H2 fuel) by lia. reflexivity.
Qed.

Lemma Interleave_returns_second_empty (first first' : I1) (second second' : I2)
    (v : option Item) :
  returns second None second' -> returns first v first' ->
  returns (mkInterleave first second false) v (mkInterleave first' second' true).
Proof.
  intros [f1 H1] [f2 H2]. exists (Nat.max f1 f2). intros fuel Hle.
  change (next fuel ?it) with (Interleave_next fuel it).
  unfold Interleave_next, bind.
  cbn [Interleave_first Interleave_second Interleave_yield_first].
  rewrite (H1 fuel), (H2 fuel) by lia. reflexivity.
Qed.

(** Once the first iterator is exhausted, the rest of the second follows,
    whoever's turn it is. *)
Lemma Interleave_drains_second (lb : list Item) :
  forall (first : I1) (second : I2) (yield_first : bool),
  Exhausted first -> drains second lb ->
  drains (mkInterleave first second yield_first) lb.
Proof.
  induction lb as [|y lb IH]; intros first second yield_first Hex Hd.
  - apply drains_nil_Exhausted, Interleave_Exhausted; [assumption|].
    now apply drains_nil_Exhausted.
  - apply drains_cons in Hd. destruct Hd as (second1 & Hr2 & Hd2).
    apply drains_cons. destruct yield_first.
    + destruct (Exhausted_inv Hex) as (first1 & Hr1 & Hex1).
      exists (mkInterleave first1 second1 false).
      split; [exact (Interleave_returns_first_empty Hr1 Hr2) | now apply IH].
    + exists (mkInterleave first second1 true).
      split; [exact (Interleave_returns_second first Hr2) | now apply IH].
Qed.

Lemma Interleave_drains_first (la : list Item) :
  forall (first : I1) (second : I2) (yield_first : bool),
  Exhausted second -> drains first la ->
  drains (mkInterleave first second yield_first) la.
Proof.
  induction la as [|x la IH]; intros first second yield_first Hex Hd.
  - apply drains_nil_Exhausted, Interleave_Exhausted; [|assumption].
    now apply drains_nil_Exhausted.
  - apply drains_cons in Hd. destruct Hd as (first1 & Hr1 & Hd1).
    apply drains_cons. destruct yield_first.
    + exists (mkInterleave first1 second false).
      split; [exact (Interleave_returns_first second Hr1) | now apply IH].
    + destruct (Exhausted_inv Hex) as (second1 & Hr2 & Hex2).
      exists (mkInterleave first1 second1 true).
      split; [exact (Interleave_returns_second_empty Hr2 Hr1) | now apply IH].
Qed.

Lemma Interleave_drains_upto (m : nat) :
  forall (la lb : list Item) (first : I1) (second : I2),
  (List.length la + List.length lb <= m)%nat ->
  drains first la -> drains second lb ->
  drains (mkInterleave first second true) (interleaved_upto m la lb) /\
  drains (mkInterleave first second false) (interleaved_upto m lb la).
Proof.
  induction m as [|m IH]; intros la lb first second Hm Ha Hb.
  - destruct la, lb; simpl in Hm; try lia. cbn [interleaved_upto].
    split; apply drains_nil_Exhausted, Interleave_Exhausted;
      now apply drains_nil_Exhausted.
  - cbn [interleaved_upto]. split.
    + destruct la as [|x la].
      * apply Interleave_drains_second; [|assumption].
        now apply drains_nil_Exhausted.
      * apply drains_cons in Ha. destruct Ha as (first1 & Hr & Ha1).
        apply drains_cons. exists (mkInterleave first1 second false).
        split; [exact (Interleave_returns_first second Hr)|].
        apply IH; [simpl in Hm; lia | assumption | assumption].
    + destruct lb as [|y lb].
      * apply Interleave_drains_first; [|assumption].
        now apply drains_nil_Exhausted.
      * apply drains_cons in Hb. destruct Hb as (second1 & Hr & Hb1).
        apply drains_cons. exists (mkInterleave first second1 true).
        split; [exact (Interleave_returns_second first Hr)|].
        apply IH; [simpl in Hm; lia | assumption | assumption].
Qed.

End InterleaveDrains.

(** X5: [interleave] over two finite iterators alternates between them,
    starting with the first, and when one side runs out goes on with the
    rest of the other: no item is lost, and it counts the two lengths
    together. *)
Theorem X5_interleave_keeps_every_item
    {I1 I2 Item : Type} `{Iterator I1 Item} `{Iterator I2 Item}
    (first : I1) (second : I2) (la lb : list Item) :
  drains first la -> drains second lb ->
  drains (interleave first second) (interleaved la lb) /\
  exists f0, forall fuel, (f0 <= fuel)%nat ->
    count fuel (interleave first second)
    = Done (wrap (Z.of_nat (List.length la) + Z.of_nat (List.length lb))).
Proof.
  intros Ha Hb.
  assert (Hi : drains (interleave first second) (interleaved la lb)).
  { unfold interleave, interleaved.
    now apply (Interleave_drains_upto (Nat.le_refl _) Ha Hb). }
  split; [exact Hi|].
  destruct (count_drains Hi) as [f0 Hf]. exists f0. intros fuel Hle.
  rewrite (Hf fuel Hle), interleaved_length. do 2 f_equal. lia.
Qed.

Lemma X5_interleave_witness :
  drains (interleave (ints [1; 2; 3; 4]) (ints [9])) [1; 9; 2; 3; 4] /\
  drains (interleave (ints [1]) (ints [9; 8; 7])) [1; 9; 8; 7].
Proof.
  assert (Ha : drains (ints [1; 2; 3; 4]) [1; 2; 3; 4])
    by (apply ints_drains; rewrite size_modulus_eq; simpl; lia).
  assert (Hb : drains (ints [9]) [9])
    by (apply ints_drains; rewrite size_modulus_eq; simpl; lia).
  assert (Hc : drains (ints [1]) [1])
    by (apply ints_drains; rewrite size_modulus_eq; simpl; lia).
  assert (Hd : drains (ints [9; 8; 7]) [9; 8; 7])
    by (apply ints_drains; rewrite size_modulus_eq; simpl; lia).
  split.
  - exact (proj1 (X5_interleave_keeps_every_item Ha Hb)).
  - exact (proj1 (X5_interleave_keeps_every_item Hc Hd)).
Defined.

(** ** Filter *)

Section FilterDrains.

Context {I Item : Type} `{Iterator I Item}.

Lemma Filter_loop_trace_at (fuel : nat) (p : Item -> bool) (v : option Item)
    (post : I) (pre : list Item) :
  forall (n : nat) (inner : I),
  (List.length pre < n)%nat ->
  trace_at fuel inner (List.map Some pre ++ [v]) post ->
  (forall x, In x pre -> p x = false) ->
  match v with Some y => p y = true | None => True end ->
  Filter_loop n fuel p inner = Some (v, post).
Proof.
  induction pre as [|x pre IH]; intros n inner Hn Ht Hpre Hv;
    (destruct n as [|n]; [simpl in Hn; lia|]); simpl in *.
  - destruct Ht as (it1 & Hnext & <-). rewrite Hnext. simpl.
    destruct v as [y|]; [now rewrite Hv | reflexivity].
  - destruct Ht as (it1 & Hnext & Ht). rewrite Hnext. simpl.
    rewrite (Hpre x) by now left. simpl.
    apply IH; auto. lia.
Qed.

(** A call of [Filter]'s [next()] pulls past the rejected items [pre] and
    returns what comes after them. *)
Lemma Filter_first_call (inner : I) (p : Item -> bool) (pre : list Item)
    (mid : I) (v : option Item) (post : I) :
  yields inner pre mid ->
  (forall x, In x pre -> p x = false) ->
  returns mid v post ->
  match v with Some y => p y = true | None => True end ->
  returns (mkFilter inner p) v (mkFilter post p).
Proof.
  intros Hy Hpre Hr Hv.
  assert (Ht : trace inner (List.map Some pre ++ [v]) post).
  { eapply trace_app; [exact Hy|]. econstructor; [exact Hr | constructor]. }
  destruct (trace_uniform Ht) as [f0 Hf].
  exists (Nat.max f0 (S (List.length pre))). intros fuel Hle.
  change (next fuel ?it) with (Filter_next fuel it).
  unfold Filter_next, bind. cbn [Filter_inner Filter_predicate].
  rewrite (@Filter_loop_trace_at fuel p v post pre fuel inner); auto; try lia.
  apply Hf. lia.
Qed.

Lemma Filter_drains_from (p : Item -> bool) (l : list Item) :
  forall (pre : list Item) (inner0 inner : I),
  yields inner0 pre inner ->
  (forall x, In x pre -> p x = false) ->
  drains inner l ->
  drains (mkFilter inner0 p) (List.filter p l).
Proof.
  induction l as [|x l IH]; intros pre inner0 inner Hy Hpre Hd.
  - destruct (drains_returns_None Hd) as (inner1 & Hr & Hd1).
    cbn [List.filter]. apply drains_nil_Exhausted.
    apply (@Exhausted_intro _ _ _ _ (mkFilter inner1 p)).
    + eapply Filter_first_call; [exact Hy | exact Hpre | exact Hr | exact Logic.I].
    + apply Filter_Exhausted. now apply drains_nil_Exhausted.
  - apply drains_cons in Hd. destruct Hd as (inner1 & Hr & Hd1).
    cbn [List.filter]. destruct (p x) eqn:Epx.
    + apply drains_cons. exists (mkFilter inner1 p). split.
      * eapply Filter_first_call; [exact Hy | exact Hpre | exact Hr | exact Epx].
      * apply (IH [] inner1 inner1); [constructor | intros y [] | assumption].
    + apply (IH (pre ++ [x]) inner0 inner1); [| |assumption].
      * unfold yields. rewrite List.map_app.
        eapply trace_app; [exact Hy|]. econstructor; [exact Hr | constructor].
      * intros y Hin. apply in_app_or in Hin. destruct Hin as [Hin|[<-|[]]]; auto.
Qed.

Lemma Filter_drains (p : Item -> bool) (l : list Item) (inner : I) :
  drains inner l -> drains (mkFilter inner p) (List.filter p l).
Proof.
  intros Hd. apply (@Filter_drains_from p l [] inner inner);
    [constructor | intros y [] | assumption].
Qed.

End FilterDrains.

(** X6: [filter] over a finite iterator yields exactly the items that
    satisfy the predicate, in their order; what it yields satisfies the
    predicate, and filtering by a predicate and by its negation counts
    every item of the source once. *)
Theorem X6_filter_keeps_the_satisfying_items
    {I Item : Type} `{Iterator I Item} (inner : I) (p : Item -> bool) (l : list Item) :
  drains inner l ->
  drains (filter inner p) (List.filter p l) /\
  (forall x, In x (List.filter p l) -> p x = true) /\
  (List.length (List.filter p l) + List.length (List.filter (fun x => negb (p x)) l)
   = List.length l)%nat.
Proof.
  intros Hd. split; [now apply Filter_drains|]. split.
  - intros x Hin. now apply filter_In in Hin.
  - clear Hd. induction l as [|x l IH]; [reflexivity|].
    cbn [List.filter]. destruct (p x); cbn [negb List.length]; lia.
Qed.

Lemma X6_filter_witness :
  drains (filter (ints [1; 2; 3; 4; 5; 6]) Z.even) [2; 4; 6].
Proof.
  assert (Hd : drains (ints [1; 2; 3; 4; 5; 6]) [1; 2; 3; 4; 5; 6])
    by (apply ints_drains; rewrite size_modulus_eq; simpl; lia).
  exact (proj1 (X6_filter_keeps_the_satisfying_items Z.even Hd)).
Defined.

(** ** TakeWhile and SkipWhile *)

Lemma take_drop_prefix {A : Type} (p : A -> bool) (l : list A) :
  take_prefix p l ++ drop_prefix p l = l.
Proof.
  induction l as [|x l IH]; [reflexivity|]. cbn [take_prefix drop_prefix].
  destruct (p x); [cbn [app]; now rewrite IH | reflexivity].
Qed.

Lemma take_prefix_all {A : Type} (p : A -> bool) (l : list A) (x : A) :
  In x (take_prefix p l) -> p x = true.
Proof.
  induction l as [|y l IH]; [intros []|]. cbn [take_prefix].
  destruct (p y) eqn:E; [|intros []]. intros [<-|Hin]; auto.
Qed.

Lemma drop_prefix_head {A : Type} (p : A -> bool) (l : list A) :
  match drop_prefix p l with
  | [] => True
  | y :: _ => p y = false
  end.
Proof.
  induction l as [|x l IH]; [exact I|]. cbn [drop_prefix].
  destruct (p x) eqn:E; [exact IH | exact E].
Qed.

Section WhileDrains.

Context {I Item : Type} `{Iterator I Item}.

Lemma TakeWhile_returns_item (inner inner' : I) (p : Item -> bool) (x : Item) :
  returns inner (Some x) inner' -> p x = true ->
  returns (mkTakeWhile inner p false) (Some x) (mkTakeWhile inner' p false).
Proof.
  intros [f0 Hf] Hp. exists f0. intros fuel Hle.
  change (next fuel ?it) with (TakeWhile_next fuel it).
  unfold TakeWhile_next, bind.
  cbn [TakeWhile_inner TakeWhile_predicate TakeWhile_stopped_taking negb].
  now rewrite (Hf fuel Hle), Hp.
Qed.

Lemma TakeWhile_returns_stop (inner inner' : I) (p : Item -> bool) (v : option Item) :
  returns inner v inner' ->
  match v with Some x => p x = false | None => True end ->
  returns (mkTakeWhile inner p false) None (mkTakeWhile inner' p true).
Proof.
  intros [f0 Hf] Hp. exists f0. intros fuel Hle.
  change (next fuel ?it) with (TakeWhile_next fuel it).
  unfold TakeWhile_next, bind.
  cbn [TakeWhile_inner TakeWhile_predicate TakeWhile_stopped_taking negb].
  rewrite (Hf fuel Hle). destruct v as [x|]; [now rewrite Hp | reflexivity].
Qed.

Lemma TakeWhile_drains (p : Item -> bool) (l : list Item) :
  forall inner : I,
  drains inner l -> drains (mkTakeWhile inner p false) (take_prefix p l).
Proof.
  induction l as [|x l IH]; intros inner Hd.
  - destruct (drains_returns_None Hd) as (inner1 & Hr & _).
    apply drains_nil_Exhausted.
    apply (@Exhausted_intro _ _ _ _ (mkTakeWhile inner1 p true)).
    + eapply TakeWhile_returns_stop; [exact Hr | exact Logic.I].
    + now apply TakeWhile_stopped_Exhausted.
  - apply drains_cons in Hd. destruct Hd as (inner1 & Hr & Hd1).
    cbn [take_prefix]. destruct (p x) eqn:Epx.
    + apply drains_cons. exists (mkTakeWhile inner1 p false).
      split; [now apply TakeWhile_returns_item | now apply IH].
    + apply drains_nil_Exhausted.
      apply (@Exhausted_intro _ _ _ _ (mkTakeWhile inner1 p true)).
      * eapply TakeWhile_returns_stop; [exact Hr | exact Epx].
      * now apply TakeWhile_stopped_Exhausted.
Qed.

(** After its first call [SkipWhile] hands every call to the inner
    iterator. *)
Lemma SkipWhile_skipped_drains (p : Item -> bool) (l : list Item) :
  forall inner : I,
  drains inner l -> drains (mkSkipWhile inner p true) l.
Proof.
  induction l as [|x l IH]; intros inner Hd.
  - apply drains_nil_Exhausted, SkipWhile_Exhausted. now apply drains_nil_Exhausted.
  - apply drains_cons in Hd. destruct Hd as (inner1 & [f0 Hf] & Hd1).
    apply drains_cons. exists (mkSkipWhile inner1 p true). split; [|now apply IH].
    exists f0. intros fuel Hle. now rewrite SkipWhile_next_skipped, (Hf fuel Hle).
Qed.

Lemma SkipWhile_drains (p : Item -> bool) (l : list Item) (inner : I) :
  drains inner l -> drains (skip_while inner p) (drop_prefix p l).
Proof.
  intros Hd. rewrite <- (take_drop_prefix p l) in Hd.
  destruct (drains_app_inv _ _ Hd) as (mid & Hy & Hm).
  pose proof (drop_prefix_head p l) as Hhead.
  destruct (drop_prefix p l) as [|y rest].
  - destruct (drains_returns_None Hm) as (post & Hr & Hpost).
    apply drains_nil_Exhausted.
    apply (@Exhausted_intro _ _ _ _ (mkSkipWhile post p true)).
    + eapply SkipWhile_first_call;
        [exact Hy | apply take_prefix_all | exact Hr | exact Logic.I].
    + apply SkipWhile_Exhausted. now apply drains_nil_Exhausted.
  - apply drains_cons in Hm. destruct Hm as (post & Hr & Hpost).
    apply drains_cons. exists (mkSkipWhile post p true). split.
    + eapply SkipWhile_first_call;
        [exact Hy | apply take_prefix_all | exact Hr | exact Hhead].
    + now apply SkipWhile_skipped_drains.
Qed.

End WhileDrains.

(** X7: over a finite iterator, [take_while] yields the longest prefix of
    items that satisfy the predicate and [skip_while] yields everything
    after that prefix, later items that satisfy the predicate included;
    the two together give the source back. *)
Theorem X7_take_while_and_skip_while_split
    {I Item : Type} `{Iterator I Item} (inner : I) (p : Item -> bool) (l : list Item) :
  drains inner l ->
  drains (take_while inner p) (take_prefix p l) /\
  drains (skip_while inner p) (drop_prefix p l) /\
  take_prefix p l ++ drop_prefix p l = l /\
  (forall x, In x (take_prefix p l) -> p x = true) /\
  match drop_prefix p l with [] => True | y :: _ => p y = false end.
Proof.
  intros Hd. split; [now apply TakeWhile_drains|].
  split; [now apply SkipWhile_drains|].
  split; [apply take_drop_prefix|].
  split; [apply take_prefix_all | apply drop_prefix_head].
Qed.

Lemma X7_take_while_skip_while_witness :
  drains (take_while (ints [2; 4; 5; 6]) Z.even) [2; 4] /\
  drains (skip_while (ints [2; 4; 5; 6]) Z.even) [5; 6].
Proof.
  assert (Hd : drains (ints [2; 4; 5; 6]) [2; 4; 5; 6])
    by (apply ints_drains; rewrite size_modulus_eq; simpl; lia).
  destruct (X7_take_while_and_skip_while_split Z.even Hd) as (Ht & Hs & _).
  split; [exact Ht | exact Hs].
Defined.

(** ** Unique and UniqueBy *)

Section DedupFacts.

Context {A K : Type} `{Hashable K} (key : A -> K).

Lemma dedup_by_In (l : list A) :
  forall (seen : set K) (y : A),
  In y (dedup_by key seen l) -> In y l /\ ~ set_In (key y) seen.
Proof.
  induction l as [|x l IH]; intros seen y; cbn [dedup_by]; [intros []|].
  destruct (set_mem equal_to (key x) seen) eqn:E.
  - intros Hin. destruct (IH _ _ Hin) as [Hl Hs]. split; [now right | assumption].
  - intros [<-|Hin].
    + split; [now left|]. now apply set_mem_complete1 in E.
    + destruct (IH _ _ Hin) as [Hl Hs]. split; [now right|].
      intros Hy. apply Hs. now apply set_add_intro1.
Qed.

Lemma dedup_by_NoDup (l : list A) :
  forall seen : set K, NoDup (List.map key (dedup_by key seen l)).
Proof.
  induction l as [|x l IH]; intros seen; cbn [dedup_by]; [constructor|].
  destruct (set_mem equal_to (key x) seen); [apply IH|].
  cbn [List.map]. constructor; [|apply IH].
  intros Hin. apply in_map_iff in Hin. destruct Hin as (y & Ey & Hy).
  apply dedup_by_In in Hy. destruct Hy as [_ Hs]. apply Hs.
  rewrite Ey. now apply set_add_intro2.
Qed.

(** The first item with a given key is kept. *)
Lemma dedup_by_first (pre : list A) (x : A) (post : list A) :
  forall seen : set K,
  (forall y, In y pre -> key y <> key x) ->
  ~ set_In (key x) seen ->
  In x (dedup_by key seen (pre ++ x :: post)).
Proof.
  induction pre as [|y pre IH]; intros seen Hpre Hs; cbn [app dedup_by].
  - destruct (set_mem equal_to (key x) seen) eqn:E.
    + apply set_mem_correct1 in E. contradiction.
    + now left.
  - assert (Hrest : forall z, In z pre -> key z <> key x)
      by (intros z Hz; apply Hpre; now right).
    destruct (set_mem equal_to (key y) seen).
    + now apply IH.
    + right. apply IH; [assumption|].
      intros Hin. apply set_add_elim in Hin. destruct Hin as [E|Hin]; [|contradiction].
      apply (Hpre y); [now left | congruence].
Qed.

(** Every key of [l] that is not in [seen] is the key of a kept item. *)
Lemma dedup_by_complete (l : list A) :
  forall (seen : set K) (x : A),
  In x l -> ~ set_In (key x) seen ->
  In (key x) (List.map key (dedup_by key seen l)).
Proof.
  induction l as [|z l IH]; intros seen x Hin Hs; [destruct Hin|].
  cbn [dedup_by]. destruct (set_mem equal_to (key z) seen) eqn:E.
  - apply set_mem_correct1 in E. destruct Hin as [->|Hin]; [contradiction|].
    now apply IH.
  - cbn [List.map]. destruct (equal_to (key z) (key x)) as [Ek|Ek]; [now left|].
    right. destruct Hin as [->|Hin]; [contradiction|]. apply IH; [assumption|].
    intros Hadd. apply set_add_elim in Hadd. destruct Hadd as [Ex|Hx]; auto.
Qed.

End DedupFacts.

Section UniqueDrains.

Context {I Item : Type} `{Iterator I Item}.

Lemma UniqueBy_loop_trace_at {Key : Type} `{Hashable Key} (fuel : nat)
    (func : Item -> Key) (seen : set Key) (v : option Item) (post : I)
    (pre : list Item) :
  forall (n : nat) (inner : I),
  (List.length pre < n)%nat ->
  trace_at fuel inner (List.map Some pre ++ [v]) post ->
  (forall x, In x pre -> set_mem equal_to (func x) seen = true) ->
  match v with Some y => set_mem equal_to (func y) seen = false | None => True end ->
  UniqueBy_loop n fuel func seen inner = Some (v, post).
Proof.
  induction pre as [|x pre IH]; intros n inner Hn Ht Hpre Hv;
    (destruct n as [|n]; [simpl in Hn; lia|]); simpl in *.
  - destruct Ht as (it1 & Hnext & <-). rewrite Hnext. simpl.
    destruct v as [y|]; [now rewrite Hv | reflexivity].
  - destruct Ht as (it1 & Hnext & Ht). rewrite Hnext. simpl.
    rewrite (Hpre x) by now left.
    apply IH; auto. lia.
Qed.

Lemma UniqueBy_first_call {Key : Type} `{Hashable Key} (inner : I)
    (func : Item -> Key) (seen : set Key) (pre : list Item) (mid : I)
    (v : option Item) (post : I) :
  yields inner pre mid ->
  (forall x, In x pre -> set_mem equal_to (func x) seen = true) ->
  returns mid v post ->
  match v with Some y => set_mem equal_to (func y) seen = false | None => True end ->
  returns (mkUniqueBy inner seen func) v
    (mkUniqueBy post
       match v with Some y => set_add equal_to (func y) seen | None => seen end
       func).
Proof.
  intros Hy Hpre Hr Hv.
  assert (Ht : trace inner (List.map Some pre ++ [v]) post).
  { eapply trace_app; [exact Hy|]. econstructor; [exact Hr | constructor]. }
  destruct (trace_uniform Ht) as [f0 Hf].
  exists (Nat.max f0 (S (List.length pre))). intros fuel Hle.
  change (next fuel ?it) with (UniqueBy_next fuel it).
  unfold UniqueBy_next, bind. cbn [UniqueBy_inner UniqueBy_set UniqueBy_func].
  rewrite (@UniqueBy_loop_trace_at Key _ fuel func seen v post pre fuel inner);
    auto; try lia.
  - now destruct v.
  - apply Hf. lia.
Qed.

Lemma UniqueBy_drains_from {Key : Type} `{Hashable Key} (func : Item -> Key)
    (l : list Item) :
  forall (seen : set Key) (pre : list Item) (inner0 inner : I),
  yields inner0 pre inner ->
  (forall x, In x pre -> set_mem equal_to (func x) seen = true) ->
  drains inner l ->
  drains (mkUniqueBy inner0 seen func) (dedup_by func seen l).
Proof.
  induction l as [|x l IH]; intros seen pre inner0 inner Hy Hpre Hd.
  - destruct (drains_returns_None Hd) as (inner1 & Hr & Hd1).
    cbn [dedup_by]. apply drains_nil_Exhausted.
    apply (@Exhausted_intro _ _ _ _ (mkUniqueBy inner1 seen func)).
    + eapply UniqueBy_first_call with (v := None);
        [exact Hy | exact Hpre | exact Hr | exact Logic.I].
    + apply UniqueBy_Exhausted. now apply drains_nil_Exhausted.
  - apply drains_cons in Hd. destruct Hd as (inner1 & Hr & Hd1).
    cbn [dedup_by]. destruct (set_mem equal_to (func x) seen) eqn:Ex.
    + apply (IH seen (pre ++ [x]) inner0 inner1); [| |assumption].
      * unfold yields. rewrite List.map_app.
        eapply trace_app; [exact Hy|]. econstructor; [exact Hr | constructor].
      * intros y Hin. apply in_app_or in Hin. destruct Hin as [Hin|[<-|[]]]; auto.
    + apply drains_cons.
      exists (mkUniqueBy inner1 (set_add equal_to (func x) seen) func). split.
      * eapply UniqueBy_first_call with (v := Some x);
          [exact Hy | exact Hpre | exact Hr | exact Ex].
      * apply (IH _ [] inner1 inner1); [constructor | intros y [] | assumption].
Qed.

Lemma Unique_loop_trace_at `{Hashable Item} (fuel : nat) (seen : set Item)
    (v : option Item) (post : I) (pre : list Item) :
  forall (n : nat) (inner : I),
  (List.length pre < n)%nat ->
  trace_at fuel inner (List.map Some pre ++ [v]) post ->
  (forall x, In x pre -> set_mem equal_to x seen = true) ->
  match v with Some y => set_mem equal_to y seen = false | None => True end ->
  Unique_loop n fuel seen inner = Some (v, post).
Proof.
  induction pre as [|x pre IH]; intros n inner Hn Ht Hpre Hv;
    (destruct n as [|n]; [simpl in Hn; lia|]); simpl in *.
  - destruct Ht as (it1 & Hnext & <-). rewrite Hnext. simpl.
    destruct v as [y|]; [now rewrite Hv | reflexivity].
  - destruct Ht as (it1 & Hnext & Ht). rewrite Hnext. simpl.
    rewrite (Hpre x) by now left.
    apply IH; auto. lia.
Qed.

Lemma Unique_first_call `{Hashable Item} (inner : I) (seen : set Item)
    (pre : list Item) (mid : I) (v : option Item) (post : I) :
  yields inner pre mid ->
  (forall x, In x pre -> set_mem equal_to x seen = true) ->
  returns mid v post ->
  match v with Some y => set_mem equal_to y seen = false | None => True end ->
  returns (mkUnique inner seen) v
    (mkUnique post
       match v with Some y => set_add equal_to y seen | None => seen end).
Proof.
  intros Hy Hpre Hr Hv.
  assert (Ht : trace inner (List.map Some pre ++ [v]) post).
  { eapply trace_app; [exact Hy|]. econstructor; [exact Hr | constructor]. }
  destruct (trace_uniform Ht) as [f0 Hf].
  exists (Nat.max f0 (S (List.length pre))). intros fuel Hle.
  change (next fuel ?it) with (Unique_next fuel it).
  unfold Unique_next, bind. cbn [Unique_inner Unique_set].
  rewrite (@Unique_loop_trace_at _ fuel seen v post pre fuel inner);
    auto; try lia.
  - now destruct v.
  - apply Hf. lia.
Qed.

Lemma Unique_drains_from `{Hashable Item} (l : list Item) :
  forall (seen : set Item) (pre : list Item) (inner0 inner : I),
  yields inner0 pre inner ->
  (forall x, In x pre -> set_mem equal_to x seen = true) ->
  drains inner l ->
  drains (mkUnique inner0 seen) (dedup_by (fun x => x) seen l).
Proof.
  induction l as [|x l IH]; intros seen pre inner0 inner Hy Hpre Hd.
  - destruct (drains_returns_None Hd) as (inner1 & Hr & Hd1).
    cbn [dedup_by]. apply drains_nil_Exhausted.
    apply (@Exhausted_intro _ _ _ _ (mkUnique inner1 seen)).
    + eapply Unique_first_call with (v := None);
        [exact Hy | exact Hpre | exact Hr | exact Logic.I].
    + apply Unique_Exhausted. now apply drains_nil_Exhausted.
  - apply drains_cons in Hd. destruct Hd as (inner1 & Hr & Hd1).
    cbn [dedup_by]. destruct (set_mem equal_to x seen) eqn:Ex.
    + apply (IH seen (pre ++ [x]) inner0 inner1); [| |assumption].
      * unfold yields. rewrite List.map_app.
        eapply trace_app; [exact Hy|]. econstructor; [exact Hr | constructor].
      * intros y Hin. apply in_app_or in Hin. destruct Hin as [Hin|[<-|[]]]; auto.
    + apply drains_cons.
      exists (mkUnique inner1 (set_add equal_to x seen)). split.
      * eapply Unique_first_call with (v := Some x);
          [exact Hy | exact Hpre | exact Hr | exact Ex].
      * apply (IH _ [] inner1 inner1); [constructor | intros y [] | assumption].
Qed.

End UniqueDrains.

(** X8: [unique] over a finite iterator yields each distinct item once, at
    the place of its first occurrence: what it yields has no duplicates
    and has the same members as the source. *)
Theorem X8_unique_yields_each_item_once
    {I Item : Type} `{Iterator I Item} `{Hashable Item} (inner : I) (l : list Item) :
  drains inner l ->
  let u := dedup_by (fun x => x) (empty_set Item) l in
  drains (unique inner) u /\ NoDup u /\ (forall x, In x u <-> In x l) /\
  (forall pre x post, l = pre ++ x :: post -> ~ In x pre ->
     exists pre' post', u = pre' ++ x :: post' /\ forall y, In y pre' -> In y pre).
Proof.
  intros Hd u. split; [|split; [|split]].
  - apply (@Unique_drains_from _ _ _ _ l (empty_set Item) [] inner inner);
      [constructor | intros y [] | assumption].
  - pose proof (dedup_by_NoDup (fun x : Item => x) l (empty_set Item)) as Hn.
    now rewrite List.map_id in Hn.
  - intros x. split.
    + intros Hin. now apply dedup_by_In in Hin.
    + intros Hin.
      pose proof (@dedup_by_complete _ _ _ (fun x : Item => x) l (empty_set Item) x
                    Hin (fun F => F)) as Hc.
      now rewrite List.map_id in Hc.
  - intros pre x post -> Hpre. subst u.
    assert (Hgen : forall (pre : list Item) (seen : set Item),
               ~ In x pre -> ~ set_In x seen ->
               exists pre' post',
                 dedup_by (fun x => x) seen (pre ++ x :: post) = pre' ++ x :: post' /\
                 forall y, In y pre' -> In y pre).
    { clear. intros pre. induction pre as [|z pre IH]; intros seen Hpre Hs.
      - cbn [app dedup_by]. destruct (set_mem equal_to x seen) eqn:E.
        + apply set_mem_correct1 in E. contradiction.
        + exists [], (dedup_by (fun x => x) (set_add equal_to x seen) post).
          split; [reflexivity | intros y []].
      - cbn [app dedup_by].
        assert (Hrest : ~ In x pre) by (intros F; apply Hpre; now right).
        destruct (set_mem equal_to z seen).
        + destruct (IH seen Hrest Hs) as (pre' & post' & E & Hsub).
          exists pre', post'. split; [exact E|]. intros y Hy. right. now apply Hsub.
        + assert (Hs' : ~ set_In x (set_add equal_to z seen)).
          { intros Hadd. apply set_add_elim in Hadd.
            destruct Hadd as [->|Hin]; [apply Hpre; now left | contradiction]. }
          destruct (IH _ Hrest Hs') as (pre' & post' & E & Hsub).
          exists (z :: pre'), post'. split; [cbn [app]; now rewrite E|].
          intros y [<-|Hy]; [now left | right; now apply Hsub]. }
    apply Hgen; [assumption | intros []].
Qed.

Lemma X8_unique_witness :
  drains (unique (ints [1; 2; 1; 3; 2])) [1; 2; 3].
Proof.
  assert (Hd : drains (ints [1; 2; 1; 3; 2]) [1; 2; 1; 3; 2])
    by (apply ints_drains; rewrite size_modulus_eq; simpl; lia).
  exact (proj1 (X8_unique_yields_each_item_once Hd)).
Defined.

(** X9: [unique_by] over a finite iterator keeps, for every key, the first
    item that has it and drops the later ones: the keys of what it yields
    are distinct, every key of the source is among them, and an item that
    no earlier item shares its key with is yielded. *)
Theorem X9_unique_by_keeps_first_of_each_key
    {I Item Key : Type} `{Iterator I Item} `{Hashable Key}
    (inner : I) (func : Item -> Key) (l : list Item) :
  drains inner l ->
  let u := dedup_by func (empty_set Key) l in
  drains (unique_by inner func) u /\
  NoDup (List.map func u) /\
  (forall x, In x u -> In x l) /\
  (forall x, In x l -> In (func x) (List.map func u)) /\
  (forall pre x post, l = pre ++ x :: post ->
     (forall y, In y pre -> func y <> func x) -> In x u).
Proof.
  intros Hd u. split; [|split; [|split; [|split]]].
  - apply (@UniqueBy_drains_from _ _ _ _ _ func l (empty_set Key) [] inner inner);
      [constructor | intros y [] | assumption].
  - apply dedup_by_NoDup.
  - intros x Hin. now apply dedup_by_In in Hin.
  - intros x Hin. apply dedup_by_complete; [assumption | intros []].
  - intros pre x post -> Hpre. apply dedup_by_first; [assumption | intros []].
Qed.

Lemma X9_unique_by_witness :
  drains (unique_by (ints [1; 2; 11; 3; 12]) (fun v => v mod 10)) [1; 2; 3].
Proof.
  assert (Hd : drains (ints [1; 2; 11; 3; 12]) [1; 2; 11; 3; 12])
    by (apply ints_drains; rewrite size_modulus_eq; simpl; lia).
  exact (proj1 (X9_unique_by_keeps_first_of_each_key (fun v => v mod 10) Hd)).
Defined.

(** ** Skip *)

Section SkipDrains.

Context {I Item : Type} `{Iterator I Item}.

(** The discarding loop of [Skip]: [skip] calls, whatever they return. *)
Lemma Skip_loop_trace_at (fuel : nat) (skip : Z) (mid : I) (vs : list (option Item)) :
  forall (n : nat) (i : Z) (inner : I),
  trace_at fuel inner vs mid ->
  0 <= i -> i + Z.of_nat (List.length vs) = skip -> skip < size_modulus ->
  (List.length vs < n)%nat ->
  loop_nat n (Skip_body fuel skip) (i, inner) = Some (inr (skip, mid)).
Proof.
  induction vs as [|v vs IH]; intros n i inner Ht Hi Hsum Hlt Hn;
    (destruct n as [|n]; [simpl in Hn; lia|]); cbn [loop_nat Skip_body].
  - simpl in Ht, Hsum. subst mid.
    destruct (Z.eqb_spec i skip) as [->|E]; [reflexivity | lia].
  - cbn [trace_at List.length] in *. destruct Ht as (inner1 & Hnext & Ht).
    destruct (Z.eqb_spec i skip) as [E|_]; [lia|].
    rewrite Hnext. cbn [bind]. rewrite wrap_small by lia.
    apply IH; [assumption|lia|lia|lia|lia].
Qed.

Lemma Skip_first_call (inner mid post : I) (skip : Z) (vs : list (option Item))
    (v : option Item) :
  0 < skip < size_modulus ->
  Z.of_nat (List.length vs) = skip ->
  trace inner vs mid -> returns mid v post ->
  returns (mkSkip inner skip) v (mkSkip post 0).
Proof.
  intros Hs Hlen Ht [f2 Hr]. destruct (trace_uniform Ht) as [f1 Hf].
  pose proof loop_budget_nat as Hb.
  exists (Nat.max f1 f2). intros fuel Hle.
  change (next fuel ?it) with (Skip_next fuel it).
  unfold Skip_next, bind. cbn [Skip_inner Skip_skip].
  destruct (Z.eqb_spec skip 0) as [E|_]; [lia|].
  rewrite bounded_loop_nat.
  revert Hb. generalize (Pos.to_nat loop_budget). intros budget Hb.
  rewrite (@Skip_loop_trace_at fuel skip mid vs budget 0 inner); try lia.
  - cbn [loop_state snd]. rewrite (Hr fuel) by lia. reflexivity.
  - apply Hf. lia.
Qed.

Lemma Skip_zero_drains (l : list Item) :
  forall inner : I, drains inner l -> drains (mkSkip inner 0) l.
Proof.
  induction l as [|x l IH]; intros inner Hd.
  - apply drains_nil_Exhausted, Skip_Exhausted. now apply drains_nil_Exhausted.
  - apply drains_cons in Hd. destruct Hd as (inner1 & [f0 Hf] & Hd1).
    apply drains_cons. exists (mkSkip inner1 0). split; [|now apply IH].
    exists f0. intros fuel Hle.
    change (next fuel ?it) with (Skip_next fuel it). unfold Skip_next, bind.
    cbn [Skip_inner Skip_skip Z.eqb]. now rewrite (Hf fuel Hle).
Qed.

Lemma Skip_drains (inner : I) (skip : Z) (l : list Item) :
  0 <= skip < size_modulus -> drains inner l ->
  drains (mkSkip inner skip) (skipn (Z.to_nat skip) l).
Proof.
  intros Hs Hd. destruct (Z.eq_dec skip 0) as [->|Hnz].
  - cbn [Z.to_nat skipn]. now apply Skip_zero_drains.
  - destruct (drains_calls (Z.to_nat skip) Hd) as (vs & mid & Hlen & Ht & Hm).
    destruct (skipn (Z.to_nat skip) l) as [|y rest].
    + destruct (drains_returns_None Hm) as (post & Hr & Hpost).
      apply drains_nil_Exhausted.
      apply (@Exhausted_intro _ _ _ _ (mkSkip post 0)).
      * eapply Skip_first_call; [lia | | exact Ht | exact Hr]. lia.
      * apply Skip_Exhausted. now apply drains_nil_Exhausted.
    + apply drains_cons in Hm. destruct Hm as (post & Hr & Hpost).
      apply drains_cons. exists (mkSkip post 0). split.
      * eapply Skip_first_call; [lia | | exact Ht | exact Hr]. lia.
      * now apply Skip_zero_drains.
Qed.

End SkipDrains.

(** X10: [skip(num)] over a finite iterator yields what follows its first
    [num] items, and nothing when it has no more than [num] items. *)
Theorem X10_skip_drops_prefix
    {I Item : Type} `{Iterator I Item} (inner : I) (num : Z) (l : list Item) :
  0 <= num < size_modulus -> drains inner l ->
  drains (skip inner num) (skipn (Z.to_nat num) l) /\
  (Z.of_nat (List.length l) <= num -> Exhausted (skip inner num)).
Proof.
  intros Hs Hd. pose proof (Skip_drains Hs Hd) as Hk. split; [exact Hk|].
  intros Hlen. apply drains_nil_Exhausted.
  rewrite skipn_all2 in Hk by lia. exact Hk.
Qed.

Lemma X10_skip_witness :
  drains (skip (ints [1; 2; 3; 4]) 2) [3; 4] /\ Exhausted (skip (ints [1; 2; 3; 4]) 9).
Proof.
  assert (Hd : drains (ints [1; 2; 3; 4]) [1; 2; 3; 4])
    by (apply ints_drains; rewrite size_modulus_eq; simpl; lia).
  split.
  - apply (@X10_skip_drops_prefix _ _ _ (ints [1; 2; 3; 4]) 2 [1; 2; 3; 4]);
      [rewrite size_modulus_eq; lia | exact Hd].
  - apply (@X10_skip_drops_prefix _ _ _ (ints [1; 2; 3; 4]) 9 [1; 2; 3; 4]);
      [rewrite size_modulus_eq; lia | exact Hd | simpl; lia].
Defined.

(** ** StepBy with a step of at least one *)

Lemma every_nth_upto_nth_error {A : Type} (n : nat) (m : nat) :
  forall (l : list A) (j : nat),
  (1 <= n)%nat -> (List.length l <= m)%nat ->
  nth_error (every_nth_upto m n l) j = nth_error l (j * n).
Proof.
  induction m as [|m IH]; intros l j Hn Hm.
  - destruct l; [|simpl in Hm; lia]. cbn [every_nth_upto]. now rewrite !nth_error_nil.
  - destruct l as [|x l]; cbn [every_nth_upto]; [now rewrite !nth_error_nil|].
    destruct j as [|j]; [reflexivity|].
    cbn [nth_error]. rewrite IH; [|assumption|].
    + rewrite nth_error_skipn.
      replace (S j * n)%nat with (S (n - 1 + j * n)) by lia. reflexivity.
    + rewrite length_skipn. simpl in Hm. lia.
Qed.

Lemma every_nth_upto_one {A : Type} (m : nat) :
  forall l : list A, (List.length l <= m)%nat -> every_nth_upto m 1 l = l.
Proof.
  induction m as [|m IH]; intros l Hm.
  - destruct l; [reflexivity | simpl in Hm; lia].
  - destruct l as [|x l]; [reflexivity|]. cbn [every_nth_upto Nat.sub skipn].
    rewrite IH; [reflexivity | simpl in Hm; lia].
Qed.

Section StepByDrains.

Context {I Item : Type} `{Iterator I Item}.

(** The discarding loop of [StepBy] when the source has the [step - 1]
    items to discard. *)
Lemma StepBy_loop_full (fuel : nat) (step : Z) (mid : I) (l : list Item) :
  forall (n : nat) (i : Z) (inner : I),
  trace_at fuel inner (List.map Some l) mid ->
  1 <= i -> i + Z.of_nat (List.length l) = step -> step < size_modulus ->
  (List.length l < n)%nat ->
  loop_nat n (StepBy_body fuel step) (i, inner) = Some (inr (step, mid)).
Proof.
  induction l as [|x l IH]; intros n i inner Ht Hi Hsum Hlt Hn;
    (destruct n as [|n]; [simpl in Hn; lia|]); cbn [loop_nat StepBy_body].
  - simpl in Ht, Hsum. subst mid.
    destruct (Z.eqb_spec i step) as [->|E]; [reflexivity | lia].
  - cbn [List.map trace_at List.length] in *. destruct Ht as (inner1 & Hnext & Ht).
    destruct (Z.eqb_spec i step) as [E|_]; [lia|].
    rewrite Hnext. cbn [bind]. rewrite wrap_small by lia.
    apply IH; [assumption|lia|lia|lia|lia].
Qed.

(** The same loop when the source runs out first. *)
Lemma StepBy_loop_short (fuel : nat) (step : Z) (mid it' : I) (l : list Item) :
  forall (n : nat) (i : Z) (inner : I),
  trace_at fuel inner (List.map Some l) mid ->
  next fuel mid = Some (None, it') ->
  1 <= i -> i + Z.of_nat (List.length l) < step -> step < size_modulus ->
  (List.length l < n)%nat ->
  loop_nat n (StepBy_body fuel step) (i, inner)
  = Some (inr (i + Z.of_nat (List.length l), it')).
Proof.
  induction l as [|x l IH]; intros n i inner Ht Hnone Hi Hsum Hlt Hn;
    (destruct n as [|n]; [simpl in Hn; lia|]); cbn [loop_nat StepBy_body].
  - simpl in Ht, Hsum. subst mid.
    destruct (Z.eqb_spec i step) as [E|_]; [lia|].
    rewrite Hnone. cbn [bind]. simpl. now rewrite Z.add_0_r.
  - cbn [List.map trace_at List.length] in *. destruct Ht as (inner1 & Hnext & Ht).
    destruct (Z.eqb_spec i step) as [E|_]; [lia|].
    rewrite Hnext. cbn [bind]. rewrite wrap_small by lia.
    rewrite (IH n (i + 1) inner1) by (assumption || lia).
    do 3 f_equal. lia.
Qed.

(** One call: the first remaining item is yielded and the [step - 1] that
    follow it are pulled and dropped. *)
Lemma StepBy_call (inner : I) (step : Z) (x : Item) (l : list Item) :
  1 <= step < size_modulus ->
  drains inner (x :: l) ->
  exists inner', returns (mkStepBy inner step) (Some x) (mkStepBy inner' step) /\
                 drains inner' (skipn (Z.to_nat step - 1) l).
Proof.
  intros Hs Hd. apply drains_cons in Hd. destruct Hd as (inner1 & [f1 Hr] & Hd1).
  pose proof loop_budget_nat as Hb.
  destruct (Nat.le_gt_cases (Z.to_nat step - 1) (List.length l)) as [Hle|Hgt].
  - destruct (drains_split (Z.to_nat step - 1) Hd1) as (mid & Hy & Hm).
    destruct (trace_uniform Hy) as [f2 Hf].
    exists mid. split; [|exact Hm].
    exists (Nat.max f1 f2). intros fuel Hfuel.
    change (next fuel ?it) with (StepBy_next fuel it).
    unfold StepBy_next, bind. cbn [StepBy_inner StepBy_step].
    rewrite (Hr fuel) by lia. rewrite bounded_loop_nat.
    revert Hb. generalize (Pos.to_nat loop_budget). intros budget Hb.
    assert (Hlen : List.length (firstn (Z.to_nat step - 1) l) = (Z.to_nat step - 1)%nat)
      by (rewrite length_firstn; lia).
    rewrite (@StepBy_loop_full fuel step mid (firstn (Z.to_nat step - 1) l)
               budget 1 inner1); try lia; [reflexivity|].
    apply Hf. lia.
  - rewrite skipn_all2 by lia.
    destruct Hd1 as (mid & Hy & Hmid).
    destruct (Exhausted_inv Hmid) as (it' & [f3 Hnone] & Hex').
    destruct (trace_uniform Hy) as [f2 Hf].
    exists it'. split; [|now apply drains_nil_Exhausted].
    exists (Nat.max f1 (Nat.max f2 f3)). intros fuel Hfuel.
    change (next fuel ?it) with (StepBy_next fuel it).
    unfold StepBy_next, bind. cbn [StepBy_inner StepBy_step].
    rewrite (Hr fuel) by lia. rewrite bounded_loop_nat.
    revert Hb. generalize (Pos.to_nat loop_budget). intros budget Hb.
    rewrite (@StepBy_loop_short fuel step mid it' l budget 1 inner1);
      try lia; [reflexivity| |].
    + apply Hf. lia.
    + apply Hnone. lia.
Qed.

Lemma StepBy_drains_upto (step : Z) (m : nat) :
  forall (l : list Item) (inner : I),
  1 <= step < size_modulus ->
  (List.length l <= m)%nat ->
  drains inner l ->
  drains (mkStepBy inner step) (every_nth_upto m (Z.to_nat step) l).
Proof.
  induction m as [|m IH]; intros l inner Hs Hm Hd.
  - destruct l; [|simpl in Hm; lia]. cbn [every_nth_upto].
    apply drains_nil_Exhausted, StepBy_Exhausted. now apply drains_nil_Exhausted.
  - destruct l as [|x l]; cbn [every_nth_upto].
    + apply drains_nil_Exhausted, StepBy_Exhausted. now apply drains_nil_Exhausted.
    + destruct (StepBy_call Hs Hd) as (inner' & Hr & Hd').
      apply drains_cons. exists (mkStepBy inner' step). split; [exact Hr|].
      apply IH; [assumption | | assumption].
      rewrite length_skipn. simpl in Hm. lia.
Qed.

End StepByDrains.

(** X11: [step_by(step)] with a step of at least one, over a finite
    iterator, yields the items at positions 0, [step], [2 step], ... and
    drops the ones between; with step one it yields every item. *)
Theorem X11_step_by_yields_every_nth
    {I Item : Type} `{Iterator I Item} (inner : I) (step : Z) (l : list Item) :
  1 <= step < size_modulus -> drains inner l ->
  drains (step_by inner step) (every_nth (Z.to_nat step) l) /\
  (forall j, nth_error (every_nth (Z.to_nat step) l) j
             = nth_error l (j * Z.to_nat step)) /\
  (step = 1 -> every_nth (Z.to_nat step) l = l).
Proof.
  intros Hs Hd. split; [|split].
  - unfold every_nth, step_by. now apply StepBy_drains_upto.
  - intros j. unfold every_nth. apply every_nth_upto_nth_error; lia.
  - intros ->. unfold every_nth. now apply every_nth_upto_one.
Qed.

Lemma X11_step_by_witness :
  drains (step_by (ints [1; 2; 3; 4; 5; 6; 7]) 3) [1; 4; 7].
Proof.
  assert (Hd : drains (ints [1; 2; 3; 4; 5; 6; 7]) [1; 2; 3; 4; 5; 6; 7])
    by (apply ints_drains; rewrite size_modulus_eq; simpl; lia).
  apply (@X11_step_by_yields_every_nth _ _ _ (ints [1; 2; 3; 4; 5; 6; 7]) 3
           [1; 2; 3; 4; 5; 6; 7]); [rewrite size_modulus_eq; lia | exact Hd].
Defined.

(** * Terminal operations on finite iterators *)

Lemma fold_flow_fold_left {Item A R : Type} (f : A -> Item -> A) (l : list Item) :
  forall acc : A,
  fold_flow (R := R) (fun a v => Continue (f a v)) acc l = Continue (fold_left f l acc).
Proof.
  induction l as [|x l IH]; intros acc; [reflexivity|].
  cbn [fold_flow fold_left]. apply IH.
Qed.

Section FoldFacts.

Context {I Item : Type} `{Iterator I Item}.

Lemma fold_drains (init : Item) (func : Item -> Item -> Item) (it : I)
    (l : list Item) :
  drains it l ->
  exists f0, forall fuel, (f0 <= fuel)%nat ->
    fold fuel init func it = Done (fold_left func l init).
Proof.
  intros Hd.
  destruct (range_for_drains (R := Empty_set)
              (fun (res : Item) v => Continue (func res v)) init Hd) as [f0 Hf].
  exists f0. intros fuel Hle. unfold fold.
  now rewrite (Hf fuel Hle), fold_flow_fold_left.
Qed.

Lemma sum_drains `{Summable Item} (it : I) (l : list Item) :
  drains it l ->
  exists f0, forall fuel, (f0 <= fuel)%nat ->
    sum fuel it = Done (fold_left sum_add l sum_init).
Proof.
  intros Hd.
  destruct (range_for_drains (R := Empty_set)
              (fun (res : Item) v => Continue (sum_add res v)) sum_init Hd) as [f0 Hf].
  exists f0. intros fuel Hle. unfold sum.
  now rewrite (Hf fuel Hle), fold_flow_fold_left.
Qed.

Lemma for_each_drains {W : Type} (func : Item -> W -> W) (world : W) (it : I)
    (l : list Item) :
  drains it l ->
  exists f0, forall fuel, (f0 <= fuel)%nat ->
    for_each fuel func world it = Done (fold_left (fun w v => func v w) l world).
Proof.
  intros Hd.
  destruct (range_for_drains (R := Empty_set)
              (fun (w : W) v => Continue (func v w)) world Hd) as [f0 Hf].
  exists f0. intros fuel Hle. unfold for_each.
  now rewrite (Hf fuel Hle), fold_flow_fold_left.
Qed.

Lemma max_by_drains {V : YieldsValues I} (cmp : Item -> Item -> Item) (it : I)
    (x : Item) (l : list Item) :
  drains it (x :: l) ->
  exists f0, forall fuel, (f0 <= fuel)%nat ->
    max_by fuel cmp it = Done (Some (fold_left (fun m v => cmp v m) l x)).
Proof.
  intros Hd. apply drains_cons in Hd. destruct Hd as (it1 & [f1 Hr] & Hd1).
  destruct (range_for_drains (R := Empty_set)
              (fun (m : Item) v => Continue (cmp v m)) x Hd1) as [f2 Hf].
  exists (Nat.max f1 f2). intros fuel Hle. unfold max_by.
  rewrite (Hr fuel) by lia. rewrite (Hf fuel) by lia.
  now rewrite fold_flow_fold_left.
Qed.

Lemma max_by_Exhausted {V : YieldsValues I} (cmp : Item -> Item -> Item) (it : I) :
  Exhausted it ->
  exists f0, forall fuel, (f0 <= fuel)%nat -> max_by fuel cmp it = Done None.
Proof.
  intros Hex. destruct (Exhausted_inv Hex) as (it1 & [f0 Hr] & _).
  exists f0. intros fuel Hle. unfold max_by. now rewrite (Hr fuel Hle).
Qed.

Lemma min_by_drains {V : YieldsValues I} (cmp : Item -> Item -> Item) (it : I)
    (x : Item) (l : list Item) :
  drains it (x :: l) ->
  exists f0, forall fuel, (f0 <= fuel)%nat ->
    min_by fuel cmp it = Done (Some (fold_left (fun m v => cmp v m) l x)).
Proof. apply max_by_drains. Qed.

Lemma min_by_Exhausted {V : YieldsValues I} (cmp : Item -> Item -> Item) (it : I) :
  Exhausted it ->
  exists f0, forall fuel, (f0 <= fuel)%nat -> min_by fuel cmp it = Done None.
Proof. apply max_by_Exhausted. Qed.

End FoldFacts.

(** X12: [fold] over a finite iterator is the left fold of its items from
    [init], in the order they are yielded; on an empty iterator it returns
    [init].  Folding a chain goes on, over the second iterator, from the
    fold of the first. *)
Theorem X12_fold_is_left_fold
    {I1 I2 Item : Type} `{Iterator I1 Item} `{Iterator I2 Item}
    (a : I1) (b : I2) (la lb : list Item) (init : Item)
    (func : Item -> Item -> Item) :
  drains a la -> drains b lb ->
  exists f0, forall fuel, (f0 <= fuel)%nat ->
    fold fuel init func a = Done (fold_left func la init) /\
    fold fuel init func (chain a b)
    = Done (fold_left func lb (fold_left func la init)).
Proof.
  intros Ha Hb.
  destruct (fold_drains init func Ha) as [f1 Hf1].
  destruct (fold_drains init func (Chain_drains Ha Hb)) as [f2 Hf2].
  exists (Nat.max f1 f2). intros fuel Hle. split.
  - apply Hf1. lia.
  - unfold chain. rewrite (Hf2 fuel) by lia. now rewrite fold_left_app.
Qed.

Lemma X12_fold_witness :
  exists f0, forall fuel, (f0 <= fuel)%nat ->
    fold fuel 1 Z.mul (ints [1; 2; 3]) = Done 6 /\
    fold fuel 1 Z.mul (chain (ints [1; 2; 3]) (ints [4])) = Done 24.
Proof.
  assert (Ha : drains (ints [1; 2; 3]) [1; 2; 3])
    by (apply ints_drains; rewrite size_modulus_eq; simpl; lia).
  assert (Hb : drains (ints [4]) [4])
    by (apply ints_drains; rewrite size_modulus_eq; simpl; lia).
  exact (X12_fold_is_left_fold 1 Z.mul Ha Hb).
Defined.

(** X13: [sum] over a finite iterator adds its items, left to right, to
    the value-initialised item; on an empty iterator it returns that
    value.  The sum of a chain is the sum of the second iterator's items
    added, one by one, to the sum of the first. *)
Theorem X13_sum_adds_left_to_right
    {I1 I2 Item : Type} `{Iterator I1 Item} `{Iterator I2 Item} `{Summable Item}
    (a : I1) (b : I2) (la lb : list Item) :
  drains a la -> drains b lb ->
  exists f0, forall fuel, (f0 <= fuel)%nat ->
    sum fuel a = Done (fold_left sum_add la sum_init) /\
    sum fuel (chain a b) = Done (fold_left sum_add lb (fold_left sum_add la sum_init)).
Proof.
  intros Ha Hb.
  destruct (sum_drains Ha) as [f1 Hf1].
  destruct (sum_drains (Chain_drains Ha Hb)) as [f2 Hf2].
  exists (Nat.max f1 f2). intros fuel Hle. split.
  - apply Hf1. lia.
  - unfold chain. rewrite (Hf2 fuel) by lia. now rewrite fold_left_app.
Qed.

Lemma X13_sum_witness :
  exists f0, forall fuel, (f0 <= fuel)%nat ->
    sum fuel (ints [1; 2; 3]) = Done 6 /\
    sum fuel (chain (ints [1; 2; 3]) (ints (@nil Z))) = Done 6.
Proof.
  assert (Ha : drains (ints [1; 2; 3]) [1; 2; 3])
    by (apply ints_drains; rewrite size_modulus_eq; simpl; lia).
  assert (Hb : drains (ints []) [])
    by (apply ints_drains; rewrite size_modulus_eq; simpl; lia).
  exact (X13_sum_adds_left_to_right Ha Hb).
Defined.

(** X14: [for_each] calls the function on every item of a finite iterator,
    once each and in the order they are yielded; a function that records
    its argument records the items of the source. *)
Theorem X14_for_each_visits_in_order
    {I Item W : Type} `{Iterator I Item} (it : I) (l : list Item)
    (func : Item -> W -> W) (world : W) :
  drains it l ->
  exists f0, forall fuel, (f0 <= fuel)%nat ->
    for_each fuel func world it = Done (fold_left (fun w v => func v w) l world) /\
    for_each fuel (fun v (log : list Item) => log ++ [v]) [] it = Done l.
Proof.
  intros Hd.
  destruct (for_each_drains func world Hd) as [f1 H1].
  destruct (for_each_drains (fun v (log : list Item) => log ++ [v]) [] Hd) as [f2 H2].
  exists (Nat.max f1 f2). intros fuel Hle. split.
  - apply H1. lia.
  - rewrite (H2 fuel) by lia. f_equal.
    assert (Hlog : forall (k log : list Item),
               fold_left (fun w v => w ++ [v]) k log = log ++ k).
    { induction k as [|x k IH]; intros log; cbn [fold_left].
      - now rewrite app_nil_r.
      - rewrite IH, <- app_assoc. reflexivity. }
    apply Hlog.
Qed.

Lemma X14_for_each_witness :
  exists f0, forall fuel, (f0 <= fuel)%nat ->
    for_each fuel (fun v w => w + v) 0 (ints [1; 2; 3]) = Done 6 /\
    for_each fuel (fun v (log : list Z) => log ++ [v]) [] (ints [1; 2; 3])
    = Done [1; 2; 3].
Proof.
  assert (Hd : drains (ints [1; 2; 3]) [1; 2; 3])
    by (apply ints_drains; rewrite size_modulus_eq; simpl; lia).
  exact (X14_for_each_visits_in_order (fun v w => w + v) 0 Hd).
Defined.

(** X15: on an iterator that yields values, [max_by] and [min_by] start
    from the first item and replace the running value by
    [cmp(v, running)] for every later item [v], in order; on an exhausted
    iterator they return no value after a single pull.  With a function
    that returns one of its arguments the result is an item of the
    source. *)
Theorem X15_max_by_min_by_fold_from_first
    {I Item : Type} `{Iterator I Item} {V : YieldsValues I} (it : I) (l : list Item)
    (cmp : Item -> Item -> Item) :
  drains it l ->
  exists f0, forall fuel, (f0 <= fuel)%nat ->
    match l with
    | [] => max_by fuel cmp it = Done None /\ min_by fuel cmp it = Done None
    | x :: rest =>
        let best := fold_left (fun m v => cmp v m) rest x in
        max_by fuel cmp it = Done (Some best) /\
        min_by fuel cmp it = Done (Some best) /\
        ((forall v m, cmp v m = v \/ cmp v m = m) -> In best l)
    end.
Proof.
  intros Hd. destruct l as [|x rest].
  - apply drains_nil_Exhausted in Hd.
    destruct (max_by_Exhausted cmp Hd) as [f1 H1].
    destruct (min_by_Exhausted cmp Hd) as [f2 H2].
    exists (Nat.max f1 f2). intros fuel Hle. split; [apply H1 | apply H2]; lia.
  - destruct (max_by_drains cmp Hd) as [f1 H1].
    destruct (min_by_drains cmp Hd) as [f2 H2].
    exists (Nat.max f1 f2). intros fuel Hle.
    split; [apply H1; lia|]. split; [apply H2; lia|].
    intros Hpick. clear - Hpick.
    assert (Hin : forall (k : list Item) (m : Item),
               fold_left (fun m v => cmp v m) k m = m \/
               In (fold_left (fun m v => cmp v m) k m) k).
    { induction k as [|y k IH]; intros m; cbn [fold_left]; [now left|].
      destruct (IH (cmp y m)) as [E|Hk].
      - rewrite E. destruct (Hpick y m) as [->| ->]; [right; now left | now left].
      - right. now right. }
    destruct (Hin rest x) as [E|Hk]; [left; now rewrite E | now right].
Qed.

Lemma X15_max_by_witness :
  exists f0, forall fuel, (f0 <= fuel)%nat ->
    max_by fuel Z.max (map (ints [3; 9; 4]) (fun v => 2 * v)) = Done (Some 18) /\
    min_by fuel Z.min (map (ints [3; 9; 4]) (fun v => 2 * v)) = Done (Some 6).
Proof.
  assert (Hd : drains (map (ints [3; 9; 4]) (fun v => 2 * v)) [6; 18; 8]).
  { apply (@Map_drains _ _ _ _ (fun v => 2 * v) [3; 9; 4]).
    apply ints_drains. rewrite size_modulus_eq. simpl. lia. }
  destruct (X15_max_by_min_by_fold_from_first Z.max Hd) as [f1 H1].
  destruct (X15_max_by_min_by_fold_from_first Z.min Hd) as [f2 H2].
  exists (Nat.max f1 f2). intros fuel Hle. split.
  - apply (H1 fuel). lia.
  - apply (H2 fuel). lia.
Defined.

(** ** Searching operations *)

Lemma fold_flow_app {Item A R : Type} (body : A -> Item -> flow A R)
    (pre k : list Item) :
  forall acc : A,
  fold_flow body acc (pre ++ k) =
  match fold_flow body acc pre with
  | Continue a => fold_flow body a k
  | r => r
  end.
Proof.
  induction pre as [|x pre IH]; intros acc; [reflexivity|].
  cbn [app fold_flow]. destruct (body acc x); [apply IH | reflexivity | reflexivity].
Qed.

Lemma fold_flow_find {Item : Type} (p : Item -> bool) (l : list Item) :
  fold_flow (fun (_ : unit) v => if p v then Return v else Continue tt) tt l
  = match List.find p l with Some v => Return v | None => Continue tt end.
Proof.
  induction l as [|x l IH]; [reflexivity|]. cbn [fold_flow List.find].
  destruct (p x); [reflexivity | exact IH].
Qed.

Lemma fold_flow_any {Item : Type} (p : Item -> bool) (l : list Item) :
  fold_flow (fun (_ : unit) v => if p v then Return true else Continue tt) tt l
  = if existsb p l then Return true else Continue tt.
Proof.
  induction l as [|x l IH]; [reflexivity|]. cbn [fold_flow existsb].
  destruct (p x); [reflexivity | exact IH].
Qed.

Lemma fold_flow_none {Item : Type} (p : Item -> bool) (l : list Item) :
  fold_flow (fun (_ : unit) v => if p v then Return false else Continue tt) tt l
  = if existsb p l then Return false else Continue tt.
Proof.
  induction l as [|x l IH]; [reflexivity|]. cbn [fold_flow existsb].
  destruct (p x); [reflexivity | exact IH].
Qed.

Lemma fold_flow_all {Item : Type} (p : Item -> bool) (l : list Item) :
  fold_flow (fun (_ : unit) v => if negb (p v) then Return false else Continue tt) tt l
  = if forallb p l then Continue tt else Return false.
Proof.
  induction l as [|x l IH]; [reflexivity|]. cbn [fold_flow forallb].
  destruct (p x); [exact IH | reflexivity].
Qed.

Section SearchFacts.

Context {I Item : Type} `{Iterator I Item}.

(** A loop whose body returns on the last of the items [y :: l] needs no
    call beyond the ones that yield them. *)
Lemma iterate_returns {A R : Type} (fuel : nat) (body : A -> Item -> flow A R)
    (r : R) (l : list Item) :
  forall (n : nat) (acc : A) (y : Item) (it it' : I),
  (List.length l <= n)%nat ->
  trace_at fuel it (List.map Some l) it' ->
  fold_flow body acc (y :: l) = Return r ->
  iterate n fuel body acc (Some y) it = Done (inr r).
Proof.
  induction l as [|x l IH]; intros n acc y it it' Hn Ht Hr.
  - cbn [fold_flow] in Hr. destruct n; cbn [iterate];
      destruct (body acc y); (discriminate || now inversion Hr).
  - destruct n as [|n]; [simpl in Hn; lia|].
    cbn [List.map trace_at] in Ht. destruct Ht as (it1 & Hnext & Ht).
    cbn [fold_flow] in Hr. cbn [iterate].
    destruct (body acc y) as [acc'|r'|]; [|now inversion Hr | discriminate].
    rewrite Hnext. apply (IH n acc' x it1 it'); [simpl in Hn; lia | exact Ht | exact Hr].
Qed.

Lemma range_for_returns {A R : Type} (body : A -> Item -> flow A R) (acc : A)
    (it post : I) (k : list Item) (r : R) :
  yields it k post ->
  fold_flow body acc k = Return r ->
  exists f0, forall fuel, (f0 <= fuel)%nat -> range_for fuel body acc it = Done (inr r).
Proof.
  intros Hy Hr. destruct (trace_uniform Hy) as [f0 Hf].
  exists (Nat.max f0 (List.length k)). intros fuel Hle.
  assert (Ht : trace_at fuel it (List.map Some k) post) by (apply Hf; lia).
  destruct k as [|y l]; [discriminate|].
  cbn [List.map trace_at] in Ht. destruct Ht as (it1 & Hnext & Ht).
  unfold range_for. rewrite Hnext.
  apply (@iterate_returns A R fuel body r l fuel acc y it1 post);
    [simpl in Hle; lia | exact Ht | exact Hr].
Qed.

End SearchFacts.

(** X16: on a finite iterator [find] returns the first item that satisfies
    the predicate, or nothing when there is none; [any] tells whether some
    item satisfies it, [all] whether every item does, and [none] whether
    no item does. *)
Theorem X16_searches_on_finite_iterators
    {I Item : Type} `{Iterator I Item} (it : I) (l : list Item) (p : Item -> bool) :
  drains it l ->
  exists f0, forall fuel, (f0 <= fuel)%nat ->
    find fuel p it = Done (List.find p l) /\
    any fuel p it = Done (existsb p l) /\
    all fuel p it = Done (forallb p l) /\
    none fuel p it = Done (negb (existsb p l)).
Proof.
  intros Hd.
  destruct (range_for_drains (R := Item)
              (fun (_ : unit) v => if p v then Return v else Continue tt) tt Hd)
    as [f1 Hf1].
  destruct (range_for_drains (R := bool)
              (fun (_ : unit) v => if p v then Return true else Continue tt) tt Hd)
    as [f2 Hf2].
  destruct (range_for_drains (R := bool)
              (fun (_ : unit) v => if negb (p v) then Return false else Continue tt)
              tt Hd) as [f3 Hf3].
  destruct (range_for_drains (R := bool)
              (fun (_ : unit) v => if p v then Return false else Continue tt) tt Hd)
    as [f4 Hf4].
  exists (Nat.max (Nat.max f1 f2) (Nat.max f3 f4)). intros fuel Hle.
  unfold find, any, all, none.
  rewrite (Hf1 fuel), (Hf2 fuel), (Hf3 fuel), (Hf4 fuel) by lia.
  rewrite fold_flow_find, fold_flow_any, fold_flow_all, fold_flow_none.
  repeat split.
  - now destruct (List.find p l).
  - now destruct (existsb p l).
  - now destruct (forallb p l).
  - now destruct (existsb p l).
Qed.

Lemma X16_searches_witness :
  exists f0, forall fuel, (f0 <= fuel)%nat ->
    find fuel Z.even (ints [1; 4; 6]) = Done (Some 4) /\
    any fuel Z.even (ints [1; 4; 6]) = Done true /\
    all fuel Z.even (ints [1; 4; 6]) = Done false /\
    none fuel Z.even (ints [1; 4; 6]) = Done false.
Proof.
  assert (Hd : drains (ints [1; 4; 6]) [1; 4; 6])
    by (apply ints_drains; rewrite size_modulus_eq; simpl; lia).
  exact (X16_searches_on_finite_iterators Z.even Hd).
Defined.

(** X17: the searching operations stop at the first item that decides the
    answer and pull nothing after it: once an iterator has yielded items
    that fail the predicate and then one that satisfies it, [find] returns
    that item, [any] is true, [none] is false and [all] of the negated
    predicate is false, whatever the iterator would do next, an endless
    iterator included. *)
Theorem X17_searches_stop_at_first_match
    {I Item : Type} `{Iterator I Item} (it mid post : I) (pre : list Item)
    (x : Item) (p : Item -> bool) :
  yields it pre mid -> returns mid (Some x) post ->
  (forall y, In y pre -> p y = false) -> p x = true ->
  exists f0, forall fuel, (f0 <= fuel)%nat ->
    find fuel p it = Done (Some x) /\
    any fuel p it = Done true /\
    none fuel p it = Done false /\
    all fuel (fun v => negb (p v)) it = Done false.
Proof.
  intros Hy Hr Hpre Hx.
  assert (Hk : yields it (pre ++ [x]) post).
  { unfold yields. rewrite List.map_app.
    eapply trace_app; [exact Hy|]. econstructor; [exact Hr | constructor]. }
  assert (Hfind : List.find p (pre ++ [x]) = Some x).
  { clear - Hpre Hx. induction pre as [|y pre IH]; cbn [app List.find].
    - now rewrite Hx.
    - rewrite (Hpre y) by now left. apply IH. intros z Hz. apply Hpre. now right. }
  assert (Hex : existsb p (pre ++ [x]) = true).
  { rewrite existsb_app. cbn [existsb]. rewrite Hx. now rewrite orb_true_r. }
  assert (Hall : forallb (fun v => negb (p v)) (pre ++ [x]) = false).
  { rewrite forallb_app. cbn [forallb]. rewrite Hx. now rewrite andb_false_r. }
  destruct (range_for_returns
              (fun (_ : unit) v => if p v then Return v else Continue tt) tt
              (r := x) Hk) as [f1 Hf1];
    [now rewrite fold_flow_find, Hfind|].
  destruct (range_for_returns
              (fun (_ : unit) v => if p v then Return true else Continue tt) tt
              (r := true) Hk) as [f2 Hf2];
    [now rewrite fold_flow_any, Hex|].
  destruct (range_for_returns
              (fun (_ : unit) v => if p v then Return false else Continue tt) tt
              (r := false) Hk) as [f3 Hf3];
    [now rewrite fold_flow_none, Hex|].
  destruct (range_for_returns
              (fun (_ : unit) v => if negb (negb (p v)) then Return false else Continue tt)
              tt (r := false) Hk) as [f4 Hf4];
    [now rewrite (fold_flow_all (fun v => negb (p v))), Hall|].
  exists (Nat.max (Nat.max f1 f2) (Nat.max f3 f4)). intros fuel Hle.
  unfold find, any, all, none.
  rewrite (Hf1 fuel), (Hf2 fuel), (Hf3 fuel), (Hf4 fuel) by lia.
  repeat split.
Qed.

Lemma X17_searches_stop_witness :
  exists f0, forall fuel, (f0 <= fuel)%nat ->
    find fuel (fun v => v =? 2) (cycle (ints [1; 2; 3])) = Done (Some 2).
Proof.
  pose (a := mkArray [1; 2; 3]).
  assert (Hlen : len a < size_modulus) by (vm_compute; reflexivity).
  assert (H1 : returns (Array_iter a) (Some 1) (mkArrayIterator a 1))
    by (apply (@ArrayIterator_next_item Z a [] 1 [2; 3]); [reflexivity | exact Hlen]).
  assert (H2 : returns (mkArrayIterator a 1) (Some 2) (mkArrayIterator a 2))
    by (apply (@ArrayIterator_next_item Z a [1] 2 [3]); [reflexivity | exact Hlen]).
  assert (Hy : yields (cycle (ints [1; 2; 3])) [1]
                 (mkCycle (Array_iter a) (mkArrayIterator a 1))).
  { unfold yields. cbn [List.map]. econstructor; [|constructor].
    exact (Cycle_returns_inner (Array_iter a) H1). }
  destruct (@X17_searches_stop_at_first_match _ _ _ _ _ _ [1] 2 (fun v => v =? 2)
              Hy (Cycle_returns_inner (Array_iter a) H2)) as [f0 Hf].
  - intros y [<-|[]]. reflexivity.
  - reflexivity.
  - exists f0. intros fuel Hle. apply (Hf fuel Hle).
Defined.

(** ** Join *)




Section JoinFacts.

Context {I Item : Type} `{Iterator I Item} (to_string : Item -> string).



End JoinFacts.



(** A separator that holds a NUL: [sep.data()] is read up to the NUL, yet
    [sep.length()] characters are cut from the end of the result. *)
Example join_separator_with_NUL :
  join int_to_string 50 (view_of (String Ascii.zero "x")) (ints [1; 2])
  = Done EmptyString.
Proof. vm_compute. reflexivity. Qed.

(** * Endless iterators *)

Section CycleEndless.

Context {I Item : Type} `{Iterator I Item}.

(** Over a source that is not empty, a call of [Cycle]'s [next()] yields
    an item, from the running copy or from a fresh one. *)
Lemma Cycle_returns_item (original inner : I) (l k : list Item) :
  l <> [] -> drains original l -> drains inner k ->
  exists x inner' k',
    returns (mkCycle original inner) (Some x) (mkCycle original inner') /\
    drains inner' k'.
Proof.
  intros Hne Ho Hi. destruct k as [|y k].
  - destruct (drains_returns_None Hi) as (inner1 & Hr1 & _).
    destruct l as [|x l]; [contradiction|].
    apply drains_cons in Ho. destruct Ho as (original1 & Hr2 & Hd2).
    exists x, original1, l. split; [|exact Hd2].
    exact (Cycle_returns_restart Hr1 Hr2).
  - apply drains_cons in Hi. destruct Hi as (inner1 & Hr & Hd1).
    exists y, inner1, k. split; [|exact Hd1].
    exact (Cycle_returns_inner original Hr).
Qed.

Lemma Cycle_trace_items (original : I) (l : list Item) :
  l <> [] -> drains original l ->
  forall (c : Cycle I) (vs : list (option Item)) (c' : Cycle I),
  trace c vs c' ->
  (exists inner k, c = mkCycle original inner /\ drains inner k) ->
  ~ In None vs /\ exists inner' k', c' = mkCycle original inner' /\ drains inner' k'.
Proof.
  intros Hne Ho c vs c' Ht.
  induction Ht as [c|c v c1 vs c2 Hr _ IH]; intros (inner & k & -> & Hk).
  - split; [intros [] | now exists inner, k].
  - destruct (Cycle_returns_item Hne Ho Hk) as (x & inner' & k' & Hr' & Hk').
    destruct (returns_det Hr Hr') as [-> ->].
    destruct IH as [Hnone Hinv]; [now exists inner', k'|].
    split; [|exact Hinv]. intros [E|Hin]; [discriminate | contradiction].
Qed.

End CycleEndless.

(** X19: [cycle] over a finite source that has at least one item never
    ends: no call ever returns exhaustion, and after any number of calls
    the next call yields an item. *)
Theorem X19_cycle_never_ends
    {I Item : Type} `{Iterator I Item} (original : I) (l : list Item) :
  l <> [] -> drains original l ->
  forall (vs : list (option Item)) (c' : Cycle I),
  trace (cycle original) vs c' ->
  ~ In None vs /\ exists x c'', returns c' (Some x) c''.
Proof.
  intros Hne Ho vs c' Ht.
  destruct (Cycle_trace_items Hne Ho Ht) as (Hnone & inner' & k' & -> & Hk').
  - now exists original, l.
  - split; [exact Hnone|].
    destruct (Cycle_returns_item Hne Ho Hk') as (x & inner'' & _ & Hr & _).
    now exists x, (mkCycle original inner'').
Qed.

Lemma X19_cycle_witness :
  let a := mkArray [1; 2] in
  exists x c'', returns (mkCycle (Array_iter a) (mkArrayIterator a 2)) (Some x) c''.
Proof.
  intros a.
  assert (Hlen : len a < size_modulus) by (vm_compute; reflexivity).
  assert (H1 : returns (Array_iter a) (Some 1) (mkArrayIterator a 1))
    by (apply (@ArrayIterator_next_item Z a [] 1 [2]); [reflexivity | exact Hlen]).
  assert (H2 : returns (mkArrayIterator a 1) (Some 2) (mkArrayIterator a 2))
    by (apply (@ArrayIterator_next_item Z a [1] 2 []); [reflexivity | exact Hlen]).
  assert (Ht : trace (cycle (Array_iter a)) [Some 1; Some 2]
                 (mkCycle (Array_iter a) (mkArrayIterator a 2))).
  { econstructor; [exact (Cycle_returns_inner (Array_iter a) H1)|].
    econstructor; [exact (Cycle_returns_inner (Array_iter a) H2) | constructor]. }
  assert (Hne : [1; 2] <> []) by discriminate.
  exact (proj2 (X19_cycle_never_ends Hne (Array_iter_drains a Hlen) Ht)).
Defined.

(** ** A range over [size_t] that ends at the largest value *)

Lemma SizeRange_next_item (fuel : nat) (r : Range Z) (c : Z) :
  0 <= c < size_modulus -> Range_end r = size_modulus - 1 ->
  SizeRange_next fuel (mkRangeIterator r c)
  = Some (Some c, mkRangeIterator r (wrap (c + 1))).
Proof.
  intros Hc Hend. unfold SizeRange_next, RangeIterator_next.
  cbn [RangeIterator_cursor RangeIterator_range]. rewrite Hend.
  destruct (Z.leb_spec c (size_modulus - 1)) as [_|]; [reflexivity | lia].
Qed.

Lemma SizeRange_yields (r : Range Z) (n : nat) :
  Range_end r = size_modulus - 1 ->
  forall c : Z,
  0 <= c < size_modulus ->
  @yields _ _ SizeRange_next (mkRangeIterator r c)
    (List.map (fun i => wrap (c + Z.of_nat i)) (seq 0 n))
    (mkRangeIterator r (wrap (c + Z.of_nat n))).
Proof.
  intros Hend. induction n as [|n IH]; intros c Hc.
  - cbn [seq List.map]. change (Z.of_nat 0) with 0.
    rewrite Z.add_0_r, wrap_small by assumption. constructor.
  - rewrite <- cons_seq, <- seq_shift. cbn [List.map]. rewrite List.map_map.
    change (Z.of_nat 0) with 0. rewrite Z.add_0_r, (wrap_small Hc).
    unfold yields. cbn [List.map]. econstructor.
    + exists O. intros fuel _. now apply SizeRange_next_item.
    + pose proof (IH (wrap (c + 1)) (wrap_range (c + 1))) as Hy.
      unfold yields in Hy.
      rewrite (List.map_ext (fun i => wrap (c + Z.of_nat (S i)))
                 (fun i => wrap (wrap (c + 1) + Z.of_nat i))).
      * replace (wrap (c + Z.of_nat (S n))) with (wrap (wrap (c + 1) + Z.of_nat n));
          [exact Hy|].
        unfold wrap. rewrite Zplus_mod_idemp_l. f_equal. lia.
      * intros i. unfold wrap. rewrite Zplus_mod_idemp_l. f_equal. lia.
Qed.

(** X20: a [Range<size_t>] whose end is the largest value of [size_t]
    never ends: its iterator yields any number of items, going back to 0
    after the largest value, because [cursor <= end] holds for every
    cursor.  The start is below the end, as the constructor asserts. *)
Theorem X20_size_range_to_max_never_ends (s : Z) (n : nat) :
  0 <= s < size_modulus - 1 ->
  exists it',
    @yields _ _ SizeRange_next (Range_iter (mkRange s (size_modulus - 1)))
      (List.map (fun i => wrap (s + Z.of_nat i)) (seq 0 n)) it'.
Proof.
  intros Hs. eexists. unfold Range_iter. cbn [Range_start].
  apply SizeRange_yields; [reflexivity | lia].
Qed.

Lemma X20_size_range_witness :
  exists it',
    @yields _ _ SizeRange_next
      (Range_iter (mkRange (size_modulus - 2) (size_modulus - 1)))
      [size_modulus - 2; size_modulus - 1; 0; 1] it'.
Proof.
  apply (@X20_size_range_to_max_never_ends (size_modulus - 2) 4).
  rewrite size_modulus_eq. lia.
Defined.

(** ** The wide range and Enumerate *)

(** X21: a range from [s] to [e] over a type wide enough for [e + 1]
    yields [s], [s + 1], ..., [e]: both ends are included, and it counts
    [e - s + 1] items. *)
Theorem X21_range_includes_both_ends (s e : Z) :
  s < e ->
  drains (Range_iter (mkRange s e)) (from_to s (Z.to_nat (e - s + 1))) /\
  In s (from_to s (Z.to_nat (e - s + 1))) /\
  In e (from_to s (Z.to_nat (e - s + 1))) /\
  exists f0, forall fuel, (f0 <= fuel)%nat ->
    count fuel (Range_iter (mkRange s e)) = Done (wrap (e - s + 1)).
Proof.
  intros Hse.
  assert (Hd : drains (Range_iter (mkRange s e)) (from_to s (Z.to_nat (e - s + 1))))
    by (apply WideRange_drains; lia).
  split; [exact Hd|]. split; [|split].
  - unfold from_to. apply in_map_iff. exists O. split; [lia|].
    apply in_seq. lia.
  - unfold from_to. apply in_map_iff. exists (Z.to_nat (e - s)). split; [lia|].
    apply in_seq. lia.
  - destruct (count_drains Hd) as [f0 Hf]. exists f0. intros fuel Hle.
    rewrite (Hf fuel Hle), from_to_length. do 2 f_equal. lia.
Qed.

Lemma X21_range_witness :
  drains (Range_iter (mkRange 1 4)) [1; 2; 3; 4].
Proof.
  apply (@X21_range_includes_both_ends 1 4). lia.
Defined.

Lemma indexed_combine {Item : Type} (l : list Item) :
  forall index : Z,
  0 <= index -> index + Z.of_nat (List.length l) <= size_modulus ->
  indexed index l = combine (from_to index (List.length l)) l.
Proof.
  induction l as [|x l IH]; intros index Hi Hlen; [reflexivity|].
  cbn [indexed List.length]. rewrite from_to_succ. cbn [combine]. f_equal.
  destruct l as [|y l]; [reflexivity|].
  cbn [List.length] in Hlen. rewrite wrap_small by lia.
  apply IH; [lia | cbn [List.length]; lia].
Qed.

Lemma combine_from_to_nth_error {Item : Type} (l : list Item) :
  forall (c : Z) (i : nat) (x : Item),
  nth_error l i = Some x ->
  nth_error (combine (from_to c (List.length l)) l) i = Some (c + Z.of_nat i, x).
Proof.
  induction l as [|y l IH]; intros c i x Hn; [now destruct i|].
  cbn [List.length]. rewrite from_to_succ. cbn [combine].
  destruct i as [|i]; cbn [nth_error] in *.
  - inversion Hn; subst. now rewrite Z.add_0_r.
  - rewrite (IH (c + 1) i x Hn). do 2 f_equal. lia.
Qed.

(** X22: [enumerate] over a finite iterator of at most [size_modulus]
    items pairs every item with its position, counted from 0. *)
Theorem X22_enumerate_pairs_items_with_positions
    {I Item : Type} `{Iterator I Item} (inner : I) (l : list Item) :
  drains inner l ->
  Z.of_nat (List.length l) <= size_modulus ->
  drains (enumerate inner) (combine (from_to 0 (List.length l)) l) /\
  forall (i : nat) (x : Item),
    nth_error l i = Some x ->
    nth_error (combine (from_to 0 (List.length l)) l) i = Some (Z.of_nat i, x).
Proof.
  intros Hd Hlen. split.
  - rewrite <- indexed_combine by lia. unfold enumerate.
    apply Enumerate_drains; [pose proof size_modulus_pos; lia | exact Hd].
  - intros i x Hn. now rewrite (combine_from_to_nth_error l 0 i Hn).
Qed.

Lemma X22_enumerate_witness :
  drains (enumerate (ints [7; 8; 9])) [(0, 7); (1, 8); (2, 9)].
Proof.
  assert (Hd : drains (ints [7; 8; 9]) [7; 8; 9])
    by (apply ints_drains; rewrite size_modulus_eq; simpl; lia).
  apply (@X22_enumerate_pairs_items_with_positions _ _ _ (ints [7; 8; 9]) [7; 8; 9]);
    [exact Hd | rewrite size_modulus_eq; simpl; lia].
Defined.

(** * Operations put together *)

(** X23: collecting a filtered and then mapped finite iterator of fewer
    than [size_modulus] items gives the array of the images of the items
    that satisfy the predicate, in the order of the source, when the free
    store gives an array of that many elements; the exception of the
    allocation leaves [collect] when it does not. *)
Theorem X23_collect_of_filter_and_map
    {I A B : Type} `{Iterator I A} (inner : I) (l : list A) (p : A -> bool)
    (mapper : A -> B) (can_allocate : Z -> bool) (fresh : B) :
  drains inner l ->
  Z.of_nat (List.length l) < size_modulus ->
  exists f0, forall fuel, (f0 <= fuel)%nat ->
    collect can_allocate fresh fuel (map (filter inner p) mapper)
    = if can_allocate (Z.of_nat (List.length (List.filter p l)))
      then Done (mkArray (List.map mapper (List.filter p l)))
      else Thrown.
Proof.
  intros Hd Hlen.
  pose proof (Map_drains mapper (Filter_drains p Hd)) as Hm.
  assert (Hbound : Z.of_nat (List.length (List.map mapper (List.filter p l)))
                   < size_modulus).
  { rewrite length_map. pose proof (filter_length_le p l). lia. }
  destruct (from_iterator_drains can_allocate fresh Hm Hbound) as [f0 Hf].
  exists f0. intros fuel Hle. unfold collect, map, filter.
  rewrite (proj2 (Hf fuel Hle)). now rewrite length_map.
Qed.

Lemma X23_collect_witness :
  exists f0, forall fuel, (f0 <= fuel)%nat ->
    collect free_store 0 fuel (map (filter (ints one_to_ten) Z.even) (fun v => v + 1))
    = Done (mkArray [3; 5; 7; 9; 11]).
Proof.
  assert (Hd : drains (ints one_to_ten) one_to_ten)
    by (apply ints_drains; rewrite size_modulus_eq; simpl; lia).
  apply (@X23_collect_of_filter_and_map _ _ _ _ (ints one_to_ten) one_to_ten
           Z.even (fun v => v + 1) free_store 0 Hd).
  rewrite size_modulus_eq. simpl. lia.
Defined.

(** X24: on a finite iterator that yields values [max] is [max_by] with
    the function that keeps the running value unless the new item is
    strictly greater, and [min] is [min_by] with the one that keeps it
    unless the new item is strictly less. *)
Theorem X24_max_is_max_by_strict_greater
    {I Item : Type} `{Iterator I Item} `{Ordered Item} {V : YieldsValues I}
    (it : I) (l : list Item) :
  drains it l ->
  exists f0, forall fuel, (f0 <= fuel)%nat ->
    max fuel it = max_by fuel (fun v m => if gt v m then v else m) it /\
    min fuel it = min_by fuel (fun v m => if lt v m then v else m) it.
Proof.
  intros Hd. destruct l as [|x l].
  - apply drains_nil_Exhausted in Hd.
    destruct (max_Exhausted Hd) as [f1 Hf1].
    destruct (min_Exhausted Hd) as [f2 Hf2].
    destruct (max_by_Exhausted (fun v m => if gt v m then v else m) Hd) as [f3 Hf3].
    destruct (min_by_Exhausted (fun v m => if lt v m then v else m) Hd) as [f4 Hf4].
    exists (Nat.max (Nat.max f1 f2) (Nat.max f3 f4)). intros fuel Hle.
    rewrite (Hf1 fuel), (Hf2 fuel), (Hf3 fuel), (Hf4 fuel) by lia. now split.
  - destruct (max_drains Hd) as [f1 Hf1].
    destruct (min_drains Hd) as [f2 Hf2].
    destruct (max_by_drains (fun v m => if gt v m then v else m) Hd) as [f3 Hf3].
    destruct (min_by_drains (fun v m => if lt v m then v else m) Hd) as [f4 Hf4].
    exists (Nat.max (Nat.max f1 f2) (Nat.max f3 f4)). intros fuel Hle.
    rewrite (Hf1 fuel), (Hf2 fuel), (Hf3 fuel), (Hf4 fuel) by lia. now split.
Qed.

Lemma X24_max_witness :
  exists f0, forall fuel, (f0 <= fuel)%nat ->
    max fuel (map (ints [3; 9; 4]) (fun v => 2 * v))
    = max_by fuel (fun v m => if v >? m then v else m)
        (map (ints [3; 9; 4]) (fun v => 2 * v)) /\
    min fuel (map (ints [3; 9; 4]) (fun v => 2 * v))
    = min_by fuel (fun v m => if v <? m then v else m)
        (map (ints [3; 9; 4]) (fun v => 2 * v)).
Proof.
  assert (Hd : drains (map (ints [3; 9; 4]) (fun v => 2 * v)) [6; 18; 8]).
  { apply (@Map_drains _ _ _ _ (fun v => 2 * v) [3; 9; 4]).
    apply ints_drains. rewrite size_modulus_eq. simpl. lia. }
  exact (X24_max_is_max_by_strict_greater Hd).
Defined.

Lemma alternate_prefix_of_interleaved {A : Type} (la : list A) :
  forall (lb : list A) (m : nat),
  (List.length la + List.length lb <= m)%nat ->
  exists rest, interleaved_upto m la lb = alternate la lb ++ rest.
Proof.
  induction la as [|x la IH]; intros lb m Hm.
  - now exists (interleaved_upto m [] lb).
  - destruct m as [|m]; [simpl in Hm; lia|]. cbn [interleaved_upto alternate].
    destruct lb as [|y lb].
    + now exists (interleaved_upto m [] la).
    + destruct m as [|m]; [simpl in Hm; lia|]. cbn [interleaved_upto].
      destruct (IH lb m) as [rest E]; [simpl in Hm; lia|].
      exists rest. rewrite E. reflexivity.
Qed.

(** X25: over two finite iterators [interleave_shortest] yields a prefix
    of what [interleave] yields: the two agree until a side whose turn it
    is has run out, where the first stops and the second goes on with the
    other side. *)
Theorem X25_interleave_shortest_is_prefix_of_interleave
    {I1 I2 Item : Type} `{Iterator I1 Item} `{Iterator I2 Item}
    (first : I1) (second : I2) (la lb : list Item) :
  drains first la -> drains second lb ->
  exists rest,
    drains (interleave_shortest first second) (alternate la lb) /\
    drains (interleave first second) (alternate la lb ++ rest).
Proof.
  intros Ha Hb.
  destruct (alternate_prefix_of_interleaved la lb (Nat.le_refl _)) as [rest E].
  exists rest. split.
  - unfold interleave_shortest. now apply InterleaveShortest_drains.
  - rewrite <- E. unfold interleave.
    now apply (Interleave_drains_upto (Nat.le_refl _) Ha Hb).
Qed.

Lemma X25_interleave_shortest_witness :
  exists rest,
    drains (interleave_shortest (ints [1; 2; 3; 4]) (ints [9])) [1; 9; 2] /\
    drains (interleave (ints [1; 2; 3; 4]) (ints [9])) ([1; 9; 2] ++ rest).
Proof.
  assert (Ha : drains (ints [1; 2; 3; 4]) [1; 2; 3; 4])
    by (apply ints_drains; rewrite size_modulus_eq; simpl; lia).
  assert (Hb : drains (ints [9]) [9])
    by (apply ints_drains; rewrite size_modulus_eq; simpl; lia).
  exact (X25_interleave_shortest_is_prefix_of_interleave Ha Hb).
Defined.
